(** * lua_utf8.cpp: the codepoint-addressed string library of Grit, verified

    A shallow embedding of [src/lua_utf8.cpp].  The file has three layers:

    - the two libraries the source is glue between: ICU's [UnicodeString]
      (UTF-16 code units, conversion from and to UTF-8) and [RegexMatcher],
      and the part of the Lua C API the source calls (a value stack, errors
      raised by a non-local exit);
    - the functions of [lua_utf8.cpp], written in a state-and-error monad over
      the Lua stack, one definition per C function and with the names of the
      source;
    - the theorems about them.

    ICU's regular-expression compiler and matching algorithm are not part of
    the repository.  The functions are therefore defined over a record
    [RegexEngine] of the three operations the source reaches through
    [RegexMatcher] (compile, group count, leftmost match from an offset);
    the matcher object itself (cursor, append position, replacement
    templates) is modelled on top of it.  [mini_engine] is an executable
    engine for a fragment of ICU's pattern syntax, used to run the functions
    on concrete inputs.  ICU's character database is taken the same way, as
    the record [UCharDatabase] of the three functions [getProperty] calls.

    Not embedded: [lua_utf8_upper] and [lua_utf8_lower] (ICU's case mapping
    tables), [regex_matcher_gc] (memory), and [utf8_lua_init] with the
    metatable that the macros of lua_wrappers_common.h generate (the global
    tables of the host). *)

From Stdlib Require Import ZArith Bool Ascii String DecimalString List Lia.
Import ListNotations.
Open Scope Z_scope.

(** ** Byte strings and UTF-16 strings *)

(** A [std::string] or a Lua string: bytes 0..255. *)
Definition bytes := list Z.

(** ICU's [UnicodeString]: UTF-16 code units 0..0xFFFF. *)
Definition UnicodeString := list Z.

Definition byte_of_ascii (a : ascii) : Z := Z.of_N (N_of_ascii a).

(** A string literal of the source, as bytes. *)
Definition lit (s : string) : bytes := map byte_of_ascii (list_ascii_of_string s).

(** [operator<<(std::ostream&, int)]: the decimal digits of an integer. *)
Definition decimal (z : Z) : bytes := lit (NilZero.string_of_int (Z.to_int z)).

(** A C string read back through a character pointer stops at the first
    NUL: [luaL_checkstring] followed by [StringPiece] on input, and
    [lua_pushstring] of [c_str()] on output. *)
Fixpoint c_str (s : bytes) : bytes :=
  match s with
  | [] => []
  | b :: r => if b =? 0 then [] else b :: c_str r
  end.

Definition U_REPLACEMENT : Z := 0xFFFD.

Definition is_lead (u : Z) : bool := (0xD800 <=? u) && (u <=? 0xDBFF).
Definition is_trail (u : Z) : bool := (0xDC00 <=? u) && (u <=? 0xDFFF).
Definition is_surrogate (u : Z) : bool := (0xD800 <=? u) && (u <=? 0xDFFF).

(** The UTF-8 form of one code point (1 to 4 bytes). *)
Definition utf8_of_cp (c : Z) : bytes :=
  if c <? 0x80 then [c]
  else if c <? 0x800 then [0xC0 + c / 64; 0x80 + c mod 64]
  else if c <? 0x10000 then
    [0xE0 + c / 4096; 0x80 + (c / 64) mod 64; 0x80 + c mod 64]
  else
    [0xF0 + c / 262144; 0x80 + (c / 4096) mod 64;
     0x80 + (c / 64) mod 64; 0x80 + c mod 64].

(** The UTF-16 form of one code point ([U16_APPEND]): one unit up to
    0xFFFF (a surrogate value is stored as it is), a surrogate pair up to
    0x10FFFF, nothing beyond. *)
Definition utf16_of_cp (c : Z) : UnicodeString :=
  if (c <? 0) || (0x10FFFF <? c) then []
  else if c <? 0x10000 then [c]
  else [0xD800 + (c - 0x10000) / 1024; 0xDC00 + (c - 0x10000) mod 1024].

Definition supplementary (hi lo : Z) : Z :=
  0x10000 + (hi - 0xD800) * 1024 + (lo - 0xDC00).

Definition utf8 (cps : list Z) : bytes := flat_map utf8_of_cp cps.
Definition utf16 (cps : list Z) : UnicodeString := flat_map utf16_of_cp cps.

Definition is_cont (b : Z) : bool := (0x80 <=? b) && (b <=? 0xBF).

(** Second byte of a three-byte form: no overlong form, no surrogate. *)
Definition lead3_t1 (b0 b1 : Z) : bool :=
  if b0 =? 0xE0 then (0xA0 <=? b1) && (b1 <=? 0xBF)
  else if b0 =? 0xED then (0x80 <=? b1) && (b1 <=? 0x9F)
  else is_cont b1.

(** Second byte of a four-byte form: no overlong form, at most 0x10FFFF. *)
Definition lead4_t1 (b0 b1 : Z) : bool :=
  if b0 =? 0xF0 then (0x90 <=? b1) && (b1 <=? 0xBF)
  else if b0 =? 0xF4 then (0x80 <=? b1) && (b1 <=? 0x8F)
  else is_cont b1.

(** [UnicodeString::fromUTF8]: well-formed sequences are decoded to UTF-16,
    every maximal ill-formed part becomes one U+FFFD. *)
Fixpoint fromUTF8 (s : bytes) : UnicodeString :=
  match s with
  | [] => []
  | b0 :: r0 =>
    if b0 <? 0x80 then b0 :: fromUTF8 r0
    else if b0 <? 0xC2 then U_REPLACEMENT :: fromUTF8 r0
    else if b0 <? 0xE0 then
      match r0 with
      | b1 :: r1 =>
        if is_cont b1 then ((b0 - 0xC0) * 64 + (b1 - 0x80)) :: fromUTF8 r1
        else U_REPLACEMENT :: fromUTF8 r0
      | [] => [U_REPLACEMENT]
      end
    else if b0 <? 0xF0 then
      match r0 with
      | b1 :: r1 =>
        if lead3_t1 b0 b1 then
          match r1 with
          | b2 :: r2 =>
            if is_cont b2 then
              ((b0 - 0xE0) * 4096 + (b1 - 0x80) * 64 + (b2 - 0x80)) :: fromUTF8 r2
            else U_REPLACEMENT :: fromUTF8 r1
          | [] => [U_REPLACEMENT]
          end
        else U_REPLACEMENT :: fromUTF8 r0
      | [] => [U_REPLACEMENT]
      end
    else if b0 <? 0xF5 then
      match r0 with
      | b1 :: r1 =>
        if lead4_t1 b0 b1 then
          match r1 with
          | b2 :: r2 =>
            if is_cont b2 then
              match r2 with
              | b3 :: r3 =>
                if is_cont b3 then
                  utf16_of_cp ((b0 - 0xF0) * 262144 + (b1 - 0x80) * 4096
                               + (b2 - 0x80) * 64 + (b3 - 0x80))
                  ++ fromUTF8 r3
                else U_REPLACEMENT :: fromUTF8 r2
              | [] => [U_REPLACEMENT]
              end
            else U_REPLACEMENT :: fromUTF8 r1
          | [] => [U_REPLACEMENT]
          end
        else U_REPLACEMENT :: fromUTF8 r0
      | [] => [U_REPLACEMENT]
      end
    else U_REPLACEMENT :: fromUTF8 r0
  end.

(** [UnicodeString::toUTF8]: a surrogate pair becomes one four-byte form, an
    unpaired surrogate becomes U+FFFD. *)
Fixpoint toUTF8 (u : UnicodeString) : bytes :=
  match u with
  | [] => []
  | c :: r =>
    if is_lead c then
      match r with
      | d :: r' =>
        if is_trail d then utf8_of_cp (supplementary c d) ++ toUTF8 r'
        else utf8_of_cp U_REPLACEMENT ++ toUTF8 r
      | [] => utf8_of_cp U_REPLACEMENT
      end
    else if is_trail c then utf8_of_cp U_REPLACEMENT ++ toUTF8 r
    else utf8_of_cp c ++ toUTF8 r
  end.

(** [to_utf8] of the source: the bytes a [ByteSink] collects from [toUTF8]. *)
Definition to_utf8 (ustr : UnicodeString) : bytes := toUTF8 ustr.

(** [UnicodeString::countChar32()]: the number of code points; a surrogate
    pair counts once. *)
Fixpoint countChar32 (u : UnicodeString) : Z :=
  match u with
  | [] => 0
  | c :: r =>
    match r with
    | d :: r' =>
      if is_lead c && is_trail d then 1 + countChar32 r' else 1 + countChar32 r
    | [] => 1
    end
  end.

Definition pinIndex (len i : Z) : Z :=
  if i <? 0 then 0 else if i >? len then len else i.

Definition ulength (u : UnicodeString) : Z := Z.of_nat (length u).

(** [extractBetween(start, limit, target)]: the code units at the offsets
    [start <= k < limit], both ends pinned to [0, length()].   The offsets
    count UTF-16 code units. *)
Definition extractBetween (u : UnicodeString) (start limit : Z) : UnicodeString :=
  let s := pinIndex (ulength u) start in
  let l := pinIndex (ulength u) limit in
  firstn (Z.to_nat (l - s)) (skipn (Z.to_nat s) u).

(** [operator[] (offset)], that is [charAt]: the code unit at a code-unit
    offset, [kInvalidUChar] (0xFFFF) outside the string. *)
Definition charAt (u : UnicodeString) (offset : Z) : Z :=
  if (0 <=? offset) && (offset <? ulength u)
  then nth (Z.to_nat offset) u 0xFFFF else 0xFFFF.

(** [append(UChar32)]. *)
Definition append32 (u : UnicodeString) (c : Z) : UnicodeString := u ++ utf16_of_cp c.

Fixpoint starts_with (needle u : UnicodeString) : bool :=
  match needle, u with
  | [], _ => true
  | n :: needle', c :: u' => (n =? c) && starts_with needle' u'
  | _ :: _, [] => false
  end.

Fixpoint indexOf_from (needle u : UnicodeString) (offset : Z) : Z :=
  match u with
  | [] => -1
  | _ :: u' =>
    if starts_with needle u then offset else indexOf_from needle u' (offset + 1)
  end.

(** [indexOf(text, start)]: the code-unit offset of the first occurrence of
    [text] at or after [start], -1 when there is none or [text] is empty. *)
Definition indexOf (u needle : UnicodeString) (start : Z) : Z :=
  match needle with
  | [] => -1
  | _ => let s := pinIndex (ulength u) start in
         indexOf_from needle (skipn (Z.to_nat s) u) s
  end.

(** ** The Lua side *)

#[warnings="-register-all"]
Inductive lua_value : Type :=
| LNil
| LBoolean (b : bool)
| LNumber (n : Z)
| LString (s : bytes)
| LTable (t : list (bytes * lua_value))
| LFunction (id : nat)
| LUserdata (id : nat).

(** The values [lua_type] tells apart ([LUA_TNONE] for an index past the top). *)
Inductive lua_Type : Type :=
| LUA_TNONE | LUA_TNIL | LUA_TBOOLEAN | LUA_TNUMBER | LUA_TSTRING
| LUA_TTABLE | LUA_TFUNCTION | LUA_TUSERDATA.

Definition type_of (v : option lua_value) : lua_Type :=
  match v with
  | None => LUA_TNONE
  | Some LNil => LUA_TNIL
  | Some (LBoolean _) => LUA_TBOOLEAN
  | Some (LNumber _) => LUA_TNUMBER
  | Some (LString _) => LUA_TSTRING
  | Some (LTable _) => LUA_TTABLE
  | Some (LFunction _) => LUA_TFUNCTION
  | Some (LUserdata _) => LUA_TUSERDATA
  end.

(** What ends a call other than a normal return. *)
Inductive failure : Type :=
| LuaError (msg : bytes)          (* [my_lua_error] with a message built in the source *)
| ArgError (index : Z)            (* raised inside a helper of lua_util.h *)
| AssertFailed                    (* [APP_ASSERT] *)
| OutOfFuel.                      (* the bound of a modelled [while] loop was reached *)

Inductive result (A : Type) : Type :=
| Ok (a : A)
| Raise (f : failure).
Arguments Ok {A} a.
Arguments Raise {A} f.

(** The stack of the running C function, bottom first: index 1 is the head. *)
Definition lua_State := list lua_value.

(** Code that reads and grows the stack and may leave by an error. *)
Definition Lua (A : Type) : Type := lua_State -> result (A * lua_State).

Definition ret {A} (a : A) : Lua A := fun L => Ok (a, L).

Definition bind {A B} (c : Lua A) (k : A -> Lua B) : Lua B :=
  fun L => match c L with
           | Ok (a, L') => k a L'
           | Raise f => Raise f
           end.

Notation "x <- c ;; k" := (bind c (fun x => k))
  (at level 61, c at next level, right associativity).
Notation "c ;;; k" := (bind c (fun _ => k))
  (at level 61, right associativity).

Definition raise {A} (f : failure) : Lua A := fun _ => Raise f.

(** [my_lua_error(L, msg)]: never returns. *)
Definition my_lua_error {A} (msg : bytes) : Lua A := raise (LuaError msg).

(** The value at an acceptable index: positive from the bottom, negative from
    the top. *)
Definition index_value (L : lua_State) (index : Z) : option lua_value :=
  if index >? 0 then nth_error L (Z.to_nat (index - 1))
  else if index <? 0 then
    let k := Z.of_nat (length L) + index in
    if k <? 0 then None else nth_error L (Z.to_nat k)
  else None.

Definition lua_gettop : Lua Z := fun L => ret (Z.of_nat (length L)) L.
Definition lua_at (index : Z) : Lua (option lua_value) :=
  fun L => ret (index_value L index) L.
Definition lua_type (index : Z) : Lua lua_Type :=
  v <- lua_at index ;; ret (type_of v).
Definition lua_isnil (index : Z) : Lua bool :=
  v <- lua_at index ;; ret (match v with Some LNil => true | _ => false end).
Definition lua_isfunction (index : Z) : Lua bool :=
  v <- lua_at index ;; ret (match v with Some (LFunction _) => true | _ => false end).
Definition lua_istable (index : Z) : Lua bool :=
  v <- lua_at index ;; ret (match v with Some (LTable _) => true | _ => false end).
Definition lua_push (v : lua_value) : Lua unit := fun L => Ok (tt, L ++ [v]).
Definition lua_pushnil : Lua unit := lua_push LNil.
Definition lua_pushnumber (n : Z) : Lua unit := lua_push (LNumber n).
Definition lua_pushstring (s : bytes) : Lua unit := lua_push (LString (c_str s)).
Definition lua_pushvalue (index : Z) : Lua unit :=
  v <- lua_at index ;; lua_push (match v with Some x => x | None => LNil end).

(** The last [n] values of a list. *)
Definition lastn {A} (n : nat) (l : list A) : list A := skipn (length l - n) l.

(** A C function of the library: it runs on a stack holding the arguments
    and returns how many values, counted from the top, are its results. *)
Definition lua_CFunction := Lua Z.

Definition call (f : lua_CFunction) (args : list lua_value) : result (list lua_value) :=
  match f args with
  | Ok (n, L) => Ok (lastn (Z.to_nat n) L)
  | Raise e => Raise e
  end.

(** *** Helpers declared in lua_util.h

    Their bodies are not in [src/]; what the callers rely on is modelled. *)

Definition INT_MIN : Z := - 2 ^ 31.
Definition INT_MAX : Z := 2 ^ 31 - 1.
Definition LONG_MIN : Z := - 2 ^ 63.
Definition LONG_MAX : Z := 2 ^ 63 - 1.

(** Modelled from the spec: [check_args(L, n)] of lua_util.h, the
    argument-count check ("wrong argument count ... reported immediately,
    aborting the call"). *)
Definition check_args (n : Z) : Lua unit :=
  top <- lua_gettop ;;
  if top =? n then ret tt else raise (ArgError 0).

(** Modelled from the spec: [check_t<T>(L, index)] of lua_util.h, the number
    at [index] as a value of the integer type [T] ("wrong argument type at a
    given position ... reported immediately").  Lua numbers are modelled by
    their integral values. *)
Definition check_t (lo hi : Z) (index : Z) : Lua Z :=
  v <- lua_at index ;;
  match v with
  | Some (LNumber n) =>
    if (lo <=? n) && (n <=? hi) then ret n else raise (ArgError index)
  | _ => raise (ArgError index)
  end.

Definition check_int := check_t INT_MIN INT_MAX.
Definition check_int32 := check_t INT_MIN INT_MAX.
Definition check_long := check_t LONG_MIN LONG_MAX.

(** Modelled from the spec: [check_bool(L, index)] of lua_util.h. *)
Definition check_bool (index : Z) : Lua bool :=
  v <- lua_at index ;;
  match v with
  | Some (LBoolean b) => ret b
  | _ => raise (ArgError index)
  end.

(** Modelled from the spec: [check_string(L, index)] of lua_util.h, the
    string at [index] as a [std::string]. *)
Definition check_string (index : Z) : Lua bytes :=
  v <- lua_at index ;;
  match v with
  | Some (LString s) => ret s
  | _ => raise (ArgError index)
  end.

(** [luaL_checknumber(L, index)]. *)
Definition luaL_checknumber (index : Z) : Lua Z :=
  v <- lua_at index ;;
  match v with
  | Some (LNumber n) => ret n
  | _ => raise (ArgError index)
  end.

(** [APP_ASSERT(cond)]. *)
Definition APP_ASSERT (cond : bool) : Lua unit :=
  if cond then ret tt else raise AssertFailed.

(** A counted loop [for (i = from; ...; ++i)] of [n] rounds that threads a
    local variable. *)
Fixpoint for_loop {S : Type} (n : nat) (i : Z) (body : Z -> S -> Lua S) (s : S) : Lua S :=
  match n with
  | O => ret s
  | S n' => s' <- body i s ;; for_loop n' (i + 1) body s'
  end.

(** ** lua_utf8.cpp: utilities (lines 43-75) *)

Definition checkustring (index : Z) : Lua UnicodeString :=
  t <- lua_type index ;;
  match t with
  | LUA_TSTRING =>
    v <- lua_at index ;;
    match v with
    | Some (LString s) => ret (fromUTF8 (c_str s))
    | _ => raise (ArgError index)
    end
  | _ => my_lua_error (lit "Expected a string at index " ++ decimal index)
  end.

Definition pushustring (str : UnicodeString) : Lua unit :=
  lua_pushstring (to_utf8 str).

(** ** lua_utf8.cpp: the functions without patterns (lines 90-225) *)

Definition lua_utf8_len : lua_CFunction :=
  check_args 1 ;;;
  ustr <- checkustring 1 ;;
  lua_pushnumber (countChar32 ustr) ;;;
  ret 1.

Definition lua_utf8_codepoint : lua_CFunction :=
  top <- lua_gettop ;;
  posi <- (if top >=? 2 then check_int 2 else ret 1) ;;
  let posi := if posi <=? 0 then 1 else posi in
  pose <- (if top >=? 3 then check_int 3 else ret posi) ;;
  let pose := if pose <=? posi then posi else pose in
  ustr <- checkustring 1 ;;
  let pose := if pose >? countChar32 ustr then countChar32 ustr else pose in
  for_loop (Z.to_nat (pose - posi + 1)) posi
    (fun i _ => lua_pushnumber (charAt ustr (i - 1))) tt ;;;
  ret (pose - posi + 1).

Definition lua_utf8_char : lua_CFunction :=
  n <- lua_gettop ;;
  ustr <- for_loop (Z.to_nat n) 1
            (fun i ustr => cp <- luaL_checknumber i ;; ret (append32 ustr cp)) [] ;;
  pushustring ustr ;;;
  ret 1.

(** [long] arithmetic (LP64): the value kept in a 64-bit signed integer. *)
Definition wrap_long (z : Z) : Z := (z + 2 ^ 63) mod 2 ^ 64 - 2 ^ 63.

(** Lines 204-215 of [lua_utf8_sub]: the raw [start] and [limit] turned into
    the 0-based half-open range handed to [extractBetween]. *)
Definition sub_range (len start limit : Z) : Z * Z :=
  let start := if start <? 0 then wrap_long (start + wrap_long (len + 1)) else start in
  let limit := if limit <? 0 then wrap_long (limit + wrap_long (len + 1)) else limit in
  let start := if start >? len then wrap_long (len + 1) else start in
  let start := if start <? 1 then 1 else start in
  let limit := if limit >? len then len else limit in
  let limit := if limit <? 0 then 0 else limit in
  let limit := if limit <? start then wrap_long (start - 1) else limit in
  let start := wrap_long (start - 1) in
  (start, limit).

(** An optional numeric argument: [nil] keeps the default. *)
Definition opt_arg (index : Z) (default : Z) (get : Z -> Lua Z) : Lua Z :=
  isnil <- lua_isnil index ;;
  if isnil then ret default else get index.

Definition lua_utf8_sub : lua_CFunction :=
  top <- lua_gettop ;;
  sl <- (if top =? 3 then
           limit <- opt_arg 3 (-1) check_long ;;
           start <- opt_arg 2 1 check_long ;;
           ret (start, limit)
         else if top =? 2 then
           start <- opt_arg 2 1 check_long ;;
           ret (start, -1)
         else
           check_args 1 ;;; ret (1, -1)) ;;
  ustr <- checkustring 1 ;;
  let len := countChar32 ustr in
  let '(start, limit) := sub_range len (fst sl) (snd sl) in
  APP_ASSERT (start >=? 0) ;;;
  APP_ASSERT (start <=? len) ;;;
  APP_ASSERT (limit >=? 0) ;;;
  APP_ASSERT (limit <=? len) ;;;
  APP_ASSERT (start <=? limit) ;;;
  let target := extractBetween ustr start limit in
  pushustring target ;;;
  ret 1.

(** ** lua_utf8.cpp: reverse and the length metamethod (lines 81-88, 149-155) *)

(** The second pass of [UnicodeString::reverse()]: every trail surrogate that
    is followed by a lead surrogate changes places with it. *)
Fixpoint reswap_surrogates (u : UnicodeString) : UnicodeString :=
  match u with
  | [] => []
  | c :: t =>
    match t with
    | d :: r =>
      if is_trail c && is_lead d then d :: c :: reswap_surrogates r
      else c :: reswap_surrogates t
    | [] => [c]
    end
  end.

(** [UnicodeString::reverse()]: the code units are reversed; when a lead
    surrogate was met on the way, the second pass puts the surrogate pairs
    back in order. *)
Definition reverse (u : UnicodeString) : UnicodeString :=
  if existsb is_lead u then reswap_surrogates (rev u) else rev u.

Definition lua_utf8_reverse : lua_CFunction :=
  check_args 1 ;;;
  ustr <- checkustring 1 ;;
  pushustring (reverse ustr) ;;;
  ret 1.

(** The [__len] metamethod of strings: Lua hands it the operand twice. *)
Definition lua_utf8_mt_len : lua_CFunction :=
  check_args 2 ;;;
  ustr <- checkustring 1 ;;
  lua_pushnumber (countChar32 ustr) ;;;
  ret 1.

(** ** lua_utf8.cpp: getProperty (lines 98-115) *)

(** [UPropertyNameChoice] of uchar.h. *)
Inductive UPropertyNameChoice : Type :=
| U_SHORT_PROPERTY_NAME
| U_LONG_PROPERTY_NAME.

(** What [lua_utf8_get_property] uses of ICU's character database and does
    not contain: the property a name stands for, the value of a property at
    a code point, and the name of a value of a property ([None] for the
    null pointer ICU returns when there is no such name). *)
Record UCharDatabase : Type := {
  UProperty : Type;
  u_getPropertyEnum : bytes -> UProperty;
  u_getIntPropertyValue : Z -> UProperty -> Z;
  u_getPropertyValueName : UProperty -> Z -> UPropertyNameChoice -> option bytes
}.

(** [lua_pushstring(L, s)] for a pointer that may be null: Lua pushes [nil]
    for the null pointer. *)
Definition lua_pushstring_ptr (s : option bytes) : Lua unit :=
  match s with
  | Some s => lua_pushstring s
  | None => lua_pushnil
  end.

(** The value at a positive index replaced by [v]. *)
Fixpoint set_nth (k : nat) (v : lua_value) (L : lua_State) : lua_State :=
  match L, k with
  | [], _ => []
  | _ :: L', O => v :: L'
  | x :: L', S k' => x :: set_nth k' v L'
  end.

Section Properties.

Variable D : UCharDatabase.

(** [lua_number2str] of luaconf.h: the text Lua gives a number that stands
    where a string is expected. *)
Variable lua_number2str : Z -> bytes.

(** [luaL_checkstring(L, index)] for a positive index: a string as it is up
    to its first NUL; a number is converted to a string in its stack slot;
    anything else is an argument error. *)
Definition luaL_checkstring (index : Z) : Lua bytes :=
  fun L =>
    match index_value L index with
    | Some (LString s) => Ok (c_str s, L)
    | Some (LNumber n) =>
      Ok (c_str (lua_number2str n),
          set_nth (Z.to_nat (index - 1)) (LString (lua_number2str n)) L)
    | _ => Raise (ArgError index)
    end.

Definition lua_utf8_get_property : lua_CFunction :=
  check_args 2 ;;;
  ustr <- checkustring 1 ;;
  prop_ <- luaL_checkstring 2 ;;
  for_loop (Z.to_nat (countChar32 ustr)) 0
    (fun i _ =>
       let c := charAt ustr i in
       let prop := u_getPropertyEnum D prop_ in
       let value := u_getIntPropertyValue D c prop in
       let value_ := u_getPropertyValueName D prop value U_SHORT_PROPERTY_NAME in
       let value_ :=
         match value_ with
         | None => u_getPropertyValueName D prop value U_LONG_PROPERTY_NAME
         | Some _ => value_
         end in
       lua_pushstring_ptr value_) tt ;;;
  ret (countChar32 ustr).

End Properties.

(** ** ICU regular expressions *)

(** The failing [UErrorCode] values the matcher can report. *)
Inductive UErrorCode : Type :=
| U_INDEX_OUTOFBOUNDS_ERROR
| U_REGEX_INTERNAL_ERROR
| U_REGEX_RULE_SYNTAX
| U_REGEX_INVALID_STATE
| U_REGEX_BAD_ESCAPE_SEQUENCE
| U_REGEX_UNIMPLEMENTED
| U_REGEX_MISMATCHED_PAREN
| U_REGEX_INVALID_RANGE
| U_REGEX_MISSING_CLOSE_BRACKET
| U_REGEX_INVALID_CAPTURE_GROUP_NAME.

Definition u_errorName (e : UErrorCode) : bytes :=
  match e with
  | U_INDEX_OUTOFBOUNDS_ERROR => lit "U_INDEX_OUTOFBOUNDS_ERROR"
  | U_REGEX_INTERNAL_ERROR => lit "U_REGEX_INTERNAL_ERROR"
  | U_REGEX_RULE_SYNTAX => lit "U_REGEX_RULE_SYNTAX"
  | U_REGEX_INVALID_STATE => lit "U_REGEX_INVALID_STATE"
  | U_REGEX_BAD_ESCAPE_SEQUENCE => lit "U_REGEX_BAD_ESCAPE_SEQUENCE"
  | U_REGEX_UNIMPLEMENTED => lit "U_REGEX_UNIMPLEMENTED"
  | U_REGEX_MISMATCHED_PAREN => lit "U_REGEX_MISMATCHED_PAREN"
  | U_REGEX_INVALID_RANGE => lit "U_REGEX_INVALID_RANGE"
  | U_REGEX_MISSING_CLOSE_BRACKET => lit "U_REGEX_MISSING_CLOSE_BRACKET"
  | U_REGEX_INVALID_CAPTURE_GROUP_NAME => lit "U_REGEX_INVALID_CAPTURE_GROUP_NAME"
  end.

(** One match: the code-unit offsets of its start and end, and the text of
    the capture groups 1..N (empty for a group that took no part). *)
Record MatchResult : Type := {
  m_start : nat;
  m_end : nat;
  m_groups : list UnicodeString
}.

(** What the source uses of ICU and does not contain: the pattern compiler,
    the search for the leftmost match that starts at or after a code-unit
    offset, and the decimal-digit property of a code point
    ([u_isdigit] with [u_charDigitValue]). *)
Record RegexEngine : Type := {
  regex_prog : Type;
  regex_compile : UnicodeString -> UErrorCode + regex_prog;
  regex_groupCount : regex_prog -> nat;
  regex_exec : regex_prog -> UnicodeString -> nat -> option MatchResult;
  digit_value : Z -> option Z
}.

(** The code point that starts a UTF-16 string, and what follows it. *)
Definition next32 (u : UnicodeString) : option (Z * UnicodeString) :=
  match u with
  | [] => None
  | c :: r =>
    match r with
    | d :: r' =>
      if is_lead c && is_trail d then Some (supplementary c d, r') else Some (c, r)
    | [] => Some (c, r)
    end
  end.

(** The number of code units of the code point at an offset. *)
Definition width32 (u : UnicodeString) (pos : nat) : nat :=
  match skipn pos u with
  | c :: d :: _ => if is_lead c && is_trail d then 2%nat else 1%nat
  | _ => 1%nat
  end.

Definition substring (u : UnicodeString) (from to : nat) : UnicodeString :=
  firstn (to - from) (skipn from u).

Definition hex_value (c : Z) : option Z :=
  if (48 <=? c) && (c <=? 57) then Some (c - 48)
  else if (65 <=? c) && (c <=? 70) then Some (c - 55)
  else if (97 <=? c) && (c <=? 102) then Some (c - 87)
  else None.

(** [n] hexadecimal digits at the head of [u]: their value and the rest. *)
Fixpoint read_hex (n : nat) (acc : Z) (u : UnicodeString) : option (Z * UnicodeString) :=
  match n with
  | O => Some (acc, u)
  | S n' =>
    match u with
    | c :: r =>
      match hex_value c with
      | Some d => read_hex n' (acc * 16 + d) r
      | None => None
      end
    | [] => None
    end
  end.

(** [u_unescapeAt] on the letter after a backslash, for the two escapes
    [appendReplacement] hands to it: [uXXXX] and [UXXXXXXXX]. *)
Definition unescape_u (letter : Z) (after : UnicodeString) : option (Z * UnicodeString) :=
  match read_hex (if letter =? 117 then 4 else 8) 0 after with
  | Some (v, r) => if v <? 0x110000 then Some (v, r) else None
  | None => None
  end.

Definition BACKSLASH : Z := 92.
Definition DOLLARSIGN : Z := 36.

Section Matcher.

Variable E : RegexEngine.

(** The digits of a group number after a dollar sign: as many as keep the
    number at most [ngroups]. *)
Fixpoint scan_group_number (fuel : nat) (ngroups : nat) (groupNum : Z) (numDigits : nat)
    (u : UnicodeString) : UErrorCode + (Z * UnicodeString) :=
  match fuel with
  | O => inr (groupNum, u)
  | S fuel' =>
    match next32 u with
    | None => inr (groupNum, u)
    | Some (c, r) =>
      match digit_value E c with
      | None => inr (groupNum, u)
      | Some d =>
        if groupNum * 10 + d >? Z.of_nat ngroups then
          match numDigits with
          | O => inl U_INDEX_OUTOFBOUNDS_ERROR
          | _ => inr (groupNum, u)
          end
        else scan_group_number fuel' ngroups (groupNum * 10 + d) (S numDigits) r
      end
    end
  end.

(** The replacement-text loop of [RegexMatcher::appendReplacement]: a
    backslash makes the next character literal (or starts a [u]/[U] escape),
    a dollar sign followed by digits names a capture group, every other
    character stands for itself.  [group k] is the text of group [k] of the
    current match, [group 0] the whole match.  Named groups are not part of
    [RegexEngine]: a dollar sign followed by a brace is the error ICU gives
    for a name the pattern does not define. *)
Fixpoint expand_replacement (fuel : nat) (ngroups : nat) (group : nat -> UnicodeString)
    (repl dest : UnicodeString) : UErrorCode + UnicodeString :=
  match fuel with
  | O => inr dest
  | S fuel' =>
    match repl with
    | [] => inr dest
    | c :: r =>
      if c =? BACKSLASH then
        match r with
        | [] => inr dest
        | c2 :: r2 =>
          if (c2 =? 85) || (c2 =? 117) then
            match unescape_u c2 r2 with
            | Some (v, r3) =>
              expand_replacement fuel' ngroups group r3 (dest ++ utf16_of_cp v)
            | None => expand_replacement fuel' ngroups group r dest
            end
          else expand_replacement fuel' ngroups group r2 (dest ++ [c2])
        end
      else if negb (c =? DOLLARSIGN) then
        expand_replacement fuel' ngroups group r (dest ++ [c])
      else
        match next32 r with
        | Some (c2, _) =>
          match digit_value E c2 with
          | Some _ =>
            match scan_group_number (length r) ngroups 0 0 r with
            | inl e => inl e
            | inr (groupNum, r') =>
              expand_replacement fuel' ngroups group r'
                (dest ++ group (Z.to_nat groupNum))
            end
          | None => inl U_REGEX_INVALID_CAPTURE_GROUP_NAME
          end
        | None => inl U_REGEX_INVALID_CAPTURE_GROUP_NAME
        end
    end
  end.

End Matcher.

Definition int32_wrap (z : Z) : Z := (z + 2 ^ 31) mod 2 ^ 32 - 2 ^ 31.

Fixpoint bytes_eqb (a b : bytes) : bool :=
  match a, b with
  | [], [] => true
  | x :: a', y :: b' => (x =? y) && bytes_eqb a' b'
  | _, _ => false
  end.

(** [t[k]] for a string key, [nil] when the key is absent (a table without
    metatable). *)
Fixpoint table_get (t : list (bytes * lua_value)) (k : bytes) : lua_value :=
  match t with
  | [] => LNil
  | (k', v) :: t' => if bytes_eqb k' k then v else table_get t' k
  end.

Definition type_name (v : lua_value) : bytes :=
  match v with
  | LNil => lit "nil"
  | LBoolean _ => lit "boolean"
  | LNumber _ => lit "number"
  | LString _ => lit "string"
  | LTable _ => lit "table"
  | LFunction _ => lit "function"
  | LUserdata _ => lit "userdata"
  end.

(** [lua_gettable(L, index)]: the key on top is replaced by the value the
    table at [index] holds for it. *)
Definition lua_gettable (index : Z) : Lua unit :=
  fun L =>
    match index_value L index, rev L with
    | Some (LTable t), LString k :: below => Ok (tt, rev below ++ [table_get t k])
    | Some (LTable t), _ :: below => Ok (tt, rev below ++ [LNil])
    | Some v, _ => Raise (LuaError (lit "attempt to index a " ++ type_name v ++ lit " value"))
    | None, _ => Raise (LuaError (lit "attempt to index a nil value"))
    end.

Section Host.

(** A function value of the host, run on its arguments. *)
Variable host_call : nat -> list lua_value -> result lua_value.

(** [lua_call(L, nargs, 1)]: the callee is the value BELOW the [nargs]
    arguments on top; callee and arguments are replaced by one result.
    Calling a value that is not a function is an error. *)
Definition lua_call (nargs : Z) : Lua unit :=
  fun L =>
    let n := Z.to_nat nargs in
    let args := lastn n L in
    let below := firstn (length L - n) L in
    match rev below with
    | LFunction id :: rest =>
      match host_call id args with
      | Ok v => Ok (tt, rev rest ++ [v])
      | Raise f => Raise f
      end
    | v :: _ => Raise (LuaError (lit "attempt to call a " ++ type_name v ++ lit " value"))
    | [] => Raise (LuaError (lit "attempt to call a nil value"))
    end.

End Host.

(** ** The matcher object *)

Section RegexMatcherModel.

Variable E : RegexEngine.

(** [RegexMatcher]: a compiled pattern with its text, the input, the last
    match, and the position up to which [appendReplacement] has copied. *)
Record RegexMatcher : Type := {
  fPattern : regex_prog E;
  fPatternString : UnicodeString;
  fInput : UnicodeString;
  fMatch : bool;
  fMatchStart : nat;
  fMatchEnd : nat;
  fGroups : list UnicodeString;
  fLastMatchEnd : option nat;
  fAppendPosition : nat
}.

(** [RegexMatcher(regex, 0, status)]: fails when the pattern does not
    compile; otherwise a matcher over the empty input. *)
Definition RegexMatcher_new (regex : UnicodeString) : UErrorCode + RegexMatcher :=
  match regex_compile E regex with
  | inl status => inl status
  | inr prog =>
    inr {| fPattern := prog; fPatternString := regex; fInput := [];
           fMatch := false; fMatchStart := 0; fMatchEnd := 0; fGroups := [];
           fLastMatchEnd := None; fAppendPosition := 0 |}
  end.

(** [reset(input)]. *)
Definition reset (m : RegexMatcher) (input : UnicodeString) : RegexMatcher :=
  {| fPattern := fPattern m; fPatternString := fPatternString m; fInput := input;
     fMatch := false; fMatchStart := 0; fMatchEnd := 0; fGroups := [];
     fLastMatchEnd := None; fAppendPosition := 0 |}.

(** [reset(position, status)]. *)
Definition reset_at (m : RegexMatcher) (position : Z) : UErrorCode + RegexMatcher :=
  if (position <? 0) || (position >? ulength (fInput m)) then inl U_INDEX_OUTOFBOUNDS_ERROR
  else
    inr {| fPattern := fPattern m; fPatternString := fPatternString m;
           fInput := fInput m;
           fMatch := false; fMatchStart := 0; fMatchEnd := Z.to_nat position;
           fGroups := []; fLastMatchEnd := None; fAppendPosition := 0 |}.

Definition no_match (m : RegexMatcher) (last : option nat) : RegexMatcher :=
  {| fPattern := fPattern m; fPatternString := fPatternString m; fInput := fInput m;
     fMatch := false; fMatchStart := fMatchStart m; fMatchEnd := fMatchEnd m;
     fGroups := fGroups m; fLastMatchEnd := last;
     fAppendPosition := fAppendPosition m |}.

Definition search (m : RegexMatcher) (last : option nat) (startPos : nat)
    : bool * RegexMatcher :=
  match regex_exec E (fPattern m) (fInput m) startPos with
  | Some r =>
    (true,
     {| fPattern := fPattern m; fPatternString := fPatternString m;
        fInput := fInput m;
        fMatch := true; fMatchStart := m_start r; fMatchEnd := m_end r;
        fGroups := m_groups r; fLastMatchEnd := last;
        fAppendPosition := fAppendPosition m |})
  | None => (false, no_match m last)
  end.

(** [find()]: the next match after the previous one.  After an empty match
    the search resumes one code point further; after a failed search that
    followed a match it fails again. *)
Definition find (m : RegexMatcher) : bool * RegexMatcher :=
  if fMatch m then
    if (fMatchStart m =? fMatchEnd m)%nat then
      if (length (fInput m) <=? fMatchEnd m)%nat
      then (false, no_match m (Some (fMatchEnd m)))
      else search m (Some (fMatchEnd m)) (fMatchEnd m + width32 (fInput m) (fMatchEnd m))
    else search m (Some (fMatchEnd m)) (fMatchEnd m)
  else
    match fLastMatchEnd m with
    | Some _ => (false, m)
    | None => search m None (fMatchEnd m)
    end.

(** [find(start, status)]. *)
Definition find_at (m : RegexMatcher) (start : Z) : UErrorCode + (bool * RegexMatcher) :=
  match reset_at m start with
  | inl status => inl status
  | inr m' => inr (find m')
  end.

Definition groupCount (m : RegexMatcher) : nat := regex_groupCount E (fPattern m).

(** [group(i, status)]; [group(status)] is [group 0], the whole match. *)
Definition group (m : RegexMatcher) (i : nat) : UErrorCode + UnicodeString :=
  if negb (fMatch m) then inl U_REGEX_INVALID_STATE
  else if (groupCount m <? i)%nat then inl U_INDEX_OUTOFBOUNDS_ERROR
  else
    match i with
    | O => inr (substring (fInput m) (fMatchStart m) (fMatchEnd m))
    | S k => inr (nth k (fGroups m) [])
    end.

Definition group_text (m : RegexMatcher) (i : nat) : UnicodeString :=
  match group m i with
  | inr t => t
  | inl _ => []
  end.

(** [appendReplacement(dest, replacement, status)]: the input between the
    append position and the match, then the expanded replacement; the append
    position moves to the end of the match. *)
Definition appendReplacement (m : RegexMatcher) (dest replacement : UnicodeString)
    : UErrorCode + (RegexMatcher * UnicodeString) :=
  if negb (fMatch m) then inl U_REGEX_INVALID_STATE
  else
    let dest := dest ++ substring (fInput m) (fAppendPosition m) (fMatchStart m) in
    let m' :=
      {| fPattern := fPattern m; fPatternString := fPatternString m;
         fInput := fInput m;
         fMatch := fMatch m; fMatchStart := fMatchStart m; fMatchEnd := fMatchEnd m;
         fGroups := fGroups m; fLastMatchEnd := fLastMatchEnd m;
         fAppendPosition := fMatchEnd m |} in
    match expand_replacement E (S (length replacement)) (groupCount m)
            (group_text m) replacement dest with
    | inl status => inl status
    | inr dest' => inr (m', dest')
    end.

(** [appendTail(dest)]: the input from the append position on. *)
Definition appendTail (m : RegexMatcher) (dest : UnicodeString) : UnicodeString :=
  dest ++ skipn (fAppendPosition m) (fInput m).

End RegexMatcherModel.

Arguments fPattern {E} _.
Arguments fPatternString {E} _.
Arguments fInput {E} _.
Arguments fMatch {E} _.
Arguments fMatchStart {E} _.
Arguments fMatchEnd {E} _.
Arguments fGroups {E} _.
Arguments fLastMatchEnd {E} _.
Arguments fAppendPosition {E} _.
Arguments reset {E} _ _.
Arguments reset_at {E} _ _.
Arguments find {E} _.
Arguments find_at {E} _ _.
Arguments groupCount {E} _.
Arguments group {E} _ _.
Arguments group_text {E} _ _.
Arguments appendReplacement {E} _ _ _.
Arguments appendTail {E} _ _.
Arguments search {E} _ _ _.
Arguments no_match {E} _ _.

(** ** lua_utf8.cpp: the pattern functions (lines 228-620) *)

Definition QUOTE : Z := 34.

(** [my_lua_error(L, const UnicodeString&)] (lines 57-58). *)
Definition my_lua_error_u {A} (str : UnicodeString) : Lua A :=
  my_lua_error (to_utf8 str).

(** The text raised when [needle] does not compile. *)
Definition syntax_error (needle : UnicodeString) (status : UErrorCode) : UnicodeString :=
  lit "Syntax error in regex: " ++ [QUOTE] ++ needle ++ [QUOTE] ++ lit ": "
  ++ u_errorName status.

Section PatternFunctions.

Variable E : RegexEngine.

(** The loop [for (long i=1 ; i<=matches ; ++i)] that pushes the text of
    every capture group. *)
Definition push_groups (matcher : RegexMatcher E) (matches : nat) : Lua unit :=
  for_loop matches 1
    (fun i _ =>
       match group matcher (Z.to_nat i) with
       | inl status => my_lua_error (u_errorName status)
       | inr m => pushustring m
       end) tt.

Definition lua_utf8_find : lua_CFunction :=
  top <- lua_gettop ;;
  ip <- (if top =? 4 then
           isnil <- lua_isnil 4 ;;
           plain <- (if isnil then ret false else check_bool 4) ;;
           init <- opt_arg 3 1 check_int32 ;;
           ret (init, plain)
         else if top =? 3 then
           init <- opt_arg 3 1 check_int32 ;;
           ret (init, false)
         else
           check_args 2 ;;; ret (1, false)) ;;
  let init := fst ip in
  let plain := snd ip in
  haystack <- checkustring 1 ;;
  needle <- checkustring 2 ;;
  let haystack_len := countChar32 haystack in
  let needle_len := countChar32 needle in
  if init >? haystack_len then ret 0
  else
    let init := if init <? 0 then int32_wrap (init + (haystack_len + 1)) else init in
    let init := if init <? 1 then 1 else init in
    let init := int32_wrap (init - 1) in
    if plain then
      let r := indexOf haystack needle init in
      if r =? -1 then lua_pushnil ;;; ret 1
      else
        lua_pushnumber (r + 1) ;;;
        lua_pushnumber (r + needle_len) ;;;
        ret 2
    else
      match RegexMatcher_new E needle with
      | inl status => my_lua_error_u (syntax_error needle status)
      | inr matcher =>
        let matcher := reset matcher haystack in
        match find_at matcher init with
        | inl status => my_lua_error (u_errorName status)
        | inr (found, matcher) =>
          if found then
            lua_pushnumber (Z.of_nat (fMatchStart matcher) + 1) ;;;
            lua_pushnumber (Z.of_nat (fMatchEnd matcher)) ;;;
            let matches := groupCount matcher in
            push_groups matcher matches ;;;
            ret (2 + Z.of_nat matches)
          else lua_pushnil ;;; ret 1
        end
      end.

(** [aux_match(L, matcher)]: the matcher is advanced in place, so the new
    matcher is returned next to the result count. *)
Definition aux_match (matcher : RegexMatcher E) : Lua (Z * RegexMatcher E) :=
  let (found, matcher) := find matcher in
  if found then
    let matches := groupCount matcher in
    if (matches =? 0)%nat then
      match group matcher 0 with
      | inl status => my_lua_error (u_errorName status)
      | inr m => pushustring m ;;; ret (1, matcher)
      end
    else
      push_groups matcher matches ;;;
      ret (Z.of_nat matches, matcher)
  else lua_pushnil ;;; ret (1, matcher).

Definition lua_utf8_match : lua_CFunction :=
  top <- lua_gettop ;;
  init <- (if top =? 3 then opt_arg 3 1 check_long
           else check_args 2 ;;; ret 1) ;;
  haystack <- checkustring 1 ;;
  needle <- checkustring 2 ;;
  let haystack_len := countChar32 haystack in
  if haystack_len =? 0 then lua_pushnil ;;; ret 1
  else
    let init := if init >? haystack_len then haystack_len else init in
    let init := if init <? 0 then wrap_long (init + (haystack_len + 1)) else init in
    let init := if init <? 1 then 1 else init in
    let init := wrap_long (init - 1) in
    match RegexMatcher_new E needle with
    | inl status => my_lua_error_u (syntax_error needle status)
    | inr matcher =>
      let matcher := reset matcher haystack in
      match reset_at matcher init with
      | inl status => my_lua_error (u_errorName status)
      | inr matcher => r <- aux_match matcher ;; ret (fst r)
      end
    end.

(** [struct RegexWrapper]; a value of this type stands for a wrapper whose
    pattern compiled. *)
Record RegexWrapper : Type := {
  matcher : RegexMatcher E;
  text : UnicodeString
}.

(** [new RegexWrapper(regex, text)] followed by the test of its status. *)
Definition RegexWrapper_new (regex text : UnicodeString) : UErrorCode + RegexWrapper :=
  match RegexMatcher_new E regex with
  | inl status => inl status
  | inr m => inr {| matcher := m; text := text |}
  end.

(** [regex_matcher_index]: [self] is the userdata at index 1. *)
Definition regex_matcher_index (self : RegexWrapper) : lua_CFunction :=
  check_args 2 ;;;
  key <- check_string 2 ;;
  (if bytes_eqb key (lit "input") then pushustring (fInput (matcher self))
   else if bytes_eqb key (lit "pattern") then pushustring (fPatternString (matcher self))
   else my_lua_error (lit "Not a readable RegexMatcher member: " ++ key)) ;;;
  ret 1.

(** [lua_utf8_gmatch_iter]: [self] is the userdata in upvalue 1; it is
    advanced in place. *)
Definition lua_utf8_gmatch_iter (self : RegexWrapper) : Lua (Z * RegexWrapper) :=
  r <- aux_match (matcher self) ;;
  ret (fst r, {| matcher := snd r; text := text self |}).

(** [lua_utf8_gmatch]: the closure it returns is pushed as an opaque function
    value; the wrapper bound to it as upvalue 1 is returned beside the result
    count. *)
Definition lua_utf8_gmatch : Lua (Z * RegexWrapper) :=
  check_args 2 ;;;
  haystack <- checkustring 1 ;;
  needle <- checkustring 2 ;;
  match RegexWrapper_new needle haystack with
  | inl status => my_lua_error_u (syntax_error needle status)
  | inr w =>
    let w := {| matcher := reset (matcher w) (text w); text := text w |} in
    lua_push (LFunction 0) ;;;
    ret (1, w)
  end.

End PatternFunctions.

Section Gsub.

Variable E : RegexEngine.
Variable host_call : nat -> list lua_value -> result lua_value.

(** The variables of [lua_utf8_gsub] that its loop updates. *)
Record gsub_vars : Type := {
  g_matcher : RegexMatcher E;
  g_repl : UnicodeString;
  g_r : UnicodeString;
  g_counter : Z
}.

(** Lines 568-609: the replacement text of the current match, by [mode]
    (0: [repl] is a function, 1: a table, 2: a template string). *)
Definition gsub_replacement (mode : Z) (matcher : RegexMatcher E) (repl : UnicodeString)
    : Lua UnicodeString :=
  let matches := groupCount matcher in
  if mode =? 0 then
    (if (matches =? 0)%nat then
       match group matcher 0 with
       | inl status => my_lua_error (u_errorName status)
       | inr m => pushustring m ;;; lua_pushvalue 3 ;;; lua_call host_call 1
       end
     else
       push_groups E matcher matches ;;;
       lua_pushvalue 3 ;;;
       lua_call host_call (Z.of_nat matches)) ;;;
    checkustring (-1)
  else if mode =? 1 then
    (if (matches =? 0)%nat then
       match group matcher 0 with
       | inl status => my_lua_error (u_errorName status)
       | inr m => pushustring m
       end
     else
       match group matcher 1 with
       | inl status => my_lua_error (u_errorName status)
       | inr m => pushustring m
       end) ;;;
    lua_gettable 3 ;;;
    checkustring (-1)
  else ret repl.

(** Lines 566-615: [while (matcher.find() && counter++!=n) { ... }].  The
    counter is incremented only when [find] succeeded, and before the
    comparison decides. *)
Fixpoint gsub_loop (fuel : nat) (mode n : Z) (v : gsub_vars) : Lua gsub_vars :=
  match fuel with
  | O => raise OutOfFuel
  | S fuel' =>
    let (found, matcher) := find (g_matcher v) in
    if negb found then
      ret {| g_matcher := matcher; g_repl := g_repl v; g_r := g_r v;
             g_counter := g_counter v |}
    else
      let counter := int32_wrap (g_counter v + 1) in
      if g_counter v =? n then
        ret {| g_matcher := matcher; g_repl := g_repl v; g_r := g_r v;
               g_counter := counter |}
      else
        repl <- gsub_replacement mode matcher (g_repl v) ;;
        match appendReplacement matcher (g_r v) repl with
        | inl status => my_lua_error (u_errorName status)
        | inr (matcher, r) =>
          gsub_loop fuel' mode n
            {| g_matcher := matcher; g_repl := repl; g_r := r; g_counter := counter |}
        end
  end.

(** Every successful [find] starts strictly after the start of the previous
    match, so the loop makes at most [length haystack + 1] rounds and one
    more call of [find]. *)
Definition gsub_fuel (haystack : UnicodeString) : nat := length haystack + 2.

Definition lua_utf8_gsub : lua_CFunction :=
  top <- lua_gettop ;;
  n <- (if top =? 4 then opt_arg 4 (-1) check_int32
        else check_args 3 ;;; ret (-1)) ;;
  haystack <- checkustring 1 ;;
  needle <- checkustring 2 ;;
  isfunction <- lua_isfunction 3 ;;
  istable <- lua_istable 3 ;;
  mr <- (if isfunction then ret (0, [])
         else if istable then ret (1, [])
         else repl <- checkustring 3 ;; ret (2, repl)) ;;
  let mode := fst mr in
  let repl := snd mr in
  match RegexMatcher_new E needle with
  | inl status => my_lua_error_u (syntax_error needle status)
  | inr matcher =>
    let matcher := reset matcher haystack in
    v <- gsub_loop (gsub_fuel haystack) mode n
           {| g_matcher := matcher; g_repl := repl; g_r := []; g_counter := 0 |} ;;
    let r := appendTail (g_matcher v) (g_r v) in
    pushustring r ;;;
    ret 1
  end.

End Gsub.

(** ** An executable engine for a fragment of ICU's patterns

    Literal characters, [.], bracket sets of characters and ranges with
    negation, capture groups, alternation and the greedy quantifiers
    [*], [+], [?].  Every other construct of ICU's syntax is declined with
    [U_REGEX_UNIMPLEMENTED].  Matching is by code point, offsets count code
    units. *)

Module Mini.

Inductive regex : Type :=
| REps
| RAny
| RSet (neg : bool) (ranges : list (Z * Z))
| RSeq (a b : regex)
| RAlt (a b : regex)
| RStar (a : regex)
| RGroup (n : nat) (a : regex).

Fixpoint size (r : regex) : nat :=
  match r with
  | REps | RAny | RSet _ _ => 1
  | RSeq a b | RAlt a b => S (size a + size b)
  | RStar a | RGroup _ a => S (size a)
  end.

Definition in_ranges (cp : Z) (ranges : list (Z * Z)) : bool :=
  existsb (fun lh => (fst lh <=? cp) && (cp <=? snd lh)) ranges.

(** [.] does not match a line terminator. *)
Definition line_terminator (cp : Z) : bool :=
  in_ranges cp [(0x0A, 0x0D); (0x85, 0x85); (0x2028, 0x2029)].

Definition accepts (r : regex) (cp : Z) : bool :=
  match r with
  | RAny => negb (line_terminator cp)
  | RSet neg ranges => xorb neg (in_ranges cp ranges)
  | _ => false
  end.

Definition caps := list (option (nat * nat)).

Fixpoint set_cap (n : nat) (v : nat * nat) (c : caps) : caps :=
  match c, n with
  | [], _ => []
  | _ :: c', O => Some v :: c'
  | x :: c', S n' => x :: set_cap n' v c'
  end.

(** A backtracking matcher in continuation-passing style: [s] is the input
    that remains at offset [i]; [k] continues after a match of [r]. *)
Fixpoint run (fuel : nat) (r : regex) (s : UnicodeString) (i : nat) (c : caps)
    (k : UnicodeString -> nat -> caps -> option (nat * caps)) : option (nat * caps) :=
  match fuel with
  | O => None
  | S fuel' =>
    match r with
    | REps => k s i c
    | RAny | RSet _ _ =>
      match next32 s with
      | Some (cp, s') =>
        if accepts r cp then k s' (i + (length s - length s'))%nat c else None
      | None => None
      end
    | RSeq a b => run fuel' a s i c (fun s' i' c' => run fuel' b s' i' c' k)
    | RAlt a b =>
      match run fuel' a s i c k with
      | Some x => Some x
      | None => run fuel' b s i c k
      end
    | RStar a =>
      match run fuel' a s i c
              (fun s' i' c' =>
                 if (i' =? i)%nat then None else run fuel' (RStar a) s' i' c' k) with
      | Some x => Some x
      | None => k s i c
      end
    | RGroup n a => run fuel' a s i c (fun s' i' c' => k s' i' (set_cap (n - 1) (i, i') c'))
    end
  end.

Definition cap_text (input : UnicodeString) (c : option (nat * nat)) : UnicodeString :=
  match c with
  | Some (a, b) => substring input a b
  | None => []
  end.

Record prog : Type := { p_regex : regex; p_groups : nat }.

(** The leftmost match: the start offsets are tried in turn, one code point
    apart. *)
Fixpoint scan (n : nat) (p : prog) (input s : UnicodeString) (i : nat)
    : option MatchResult :=
  match run (S (size (p_regex p)) * (length s + 2)) (p_regex p) s i
          (repeat None (p_groups p)) (fun _ i' c' => Some (i', c')) with
  | Some (e, c) =>
    Some {| m_start := i; m_end := e; m_groups := map (cap_text input) c |}
  | None =>
    match n with
    | O => None
    | S n' =>
      match next32 s with
      | Some (_, s') => scan n' p input s' (i + (length s - length s'))%nat
      | None => None
      end
    end
  end.

Definition exec (p : prog) (input : UnicodeString) (from : nat) : option MatchResult :=
  if (from <=? length input)%nat
  then scan (length input) p input (skipn from input) from
  else None.

(** The code points of a UTF-16 string. *)
Fixpoint code_points (u : UnicodeString) : list Z :=
  match u with
  | [] => []
  | c :: r =>
    match r with
    | d :: r' =>
      if is_lead c && is_trail d then supplementary c d :: code_points r'
      else c :: code_points r
    | [] => [c]
    end
  end.

Definition is_alnum (c : Z) : bool :=
  ((48 <=? c) && (c <=? 57)) || ((65 <=? c) && (c <=? 90)) || ((97 <=? c) && (c <=? 122)).

(** A printable ASCII character that is neither a letter nor a digit: a
    backslash before it makes it literal. *)
Definition ascii_punct (c : Z) : bool :=
  (32 <? c) && (c <? 127) && negb (is_alnum c).

(** Characters with a meaning of their own inside a bracket set. *)
Definition set_special (c : Z) : bool :=
  (c <=? 32) || (c =? 91) || (c =? 92) || (c =? 93) || (c =? 45) || (c =? 38)
  || (c =? 94).

(** The items of a bracket set up to the closing bracket. *)
Fixpoint parse_set (s : list Z) (acc : list (Z * Z))
    : UErrorCode + (list (Z * Z) * list Z) :=
  match s with
  | [] => inl U_REGEX_MISSING_CLOSE_BRACKET
  | c :: r =>
    if c =? 93 then
      match acc with
      | [] => inl U_REGEX_UNIMPLEMENTED
      | _ => inr (rev acc, r)
      end
    else if c =? 92 then
      match r with
      | e :: r2 =>
        if ascii_punct e then parse_set r2 ((e, e) :: acc)
        else inl U_REGEX_UNIMPLEMENTED
      | [] => inl U_REGEX_MISSING_CLOSE_BRACKET
      end
    else if set_special c then inl U_REGEX_UNIMPLEMENTED
    else
      match r with
      | d :: r2 =>
        if d =? 45 then
          match r2 with
          | hi :: r3 =>
            if set_special hi then inl U_REGEX_UNIMPLEMENTED
            else if c <=? hi then parse_set r3 ((c, hi) :: acc)
            else inl U_REGEX_INVALID_RANGE
          | [] => inl U_REGEX_MISSING_CLOSE_BRACKET
          end
        else parse_set r ((c, c) :: acc)
      | [] => inl U_REGEX_MISSING_CLOSE_BRACKET
      end
  end.

Definition is_quantifier (c : Z) : bool := (c =? 42) || (c =? 43) || (c =? 63).

(** A greedy quantifier after an atom.  Lazy and possessive quantifiers and
    counted repetition are declined. *)
Definition quantify (a : regex) (s : list Z) : UErrorCode + (regex * list Z) :=
  match s with
  | q :: r =>
    if q =? 123 then inl U_REGEX_UNIMPLEMENTED
    else if is_quantifier q then
      match r with
      | q2 :: _ =>
        if is_quantifier q2 || (q2 =? 123) then inl U_REGEX_UNIMPLEMENTED
        else inr (if q =? 42 then RStar a
                  else if q =? 43 then RSeq a (RStar a)
                  else RAlt a REps, r)
      | [] => inr (if q =? 42 then RStar a
                   else if q =? 43 then RSeq a (RStar a)
                   else RAlt a REps, r)
      end
    else inr (a, s)
  | [] => inr (a, s)
  end.

(** Recursive descent over the code points of a pattern; [ng] counts the
    capture groups opened so far. *)
Fixpoint parse_alt (fuel : nat) (s : list Z) (ng : nat)
    : UErrorCode + (regex * list Z * nat) :=
  match fuel with
  | O => inl U_REGEX_INTERNAL_ERROR
  | S f =>
    match parse_seq f s ng with
    | inl e => inl e
    | inr (a, s1, ng1) =>
      match s1 with
      | c :: s2 =>
        if c =? 124 then
          match parse_alt f s2 ng1 with
          | inl e => inl e
          | inr (b, s3, ng2) => inr (RAlt a b, s3, ng2)
          end
        else inr (a, s1, ng1)
      | [] => inr (a, s1, ng1)
      end
    end
  end
with parse_seq (fuel : nat) (s : list Z) (ng : nat)
    : UErrorCode + (regex * list Z * nat) :=
  match fuel with
  | O => inl U_REGEX_INTERNAL_ERROR
  | S f =>
    match s with
    | [] => inr (REps, s, ng)
    | c :: _ =>
      if (c =? 124) || (c =? 41) then inr (REps, s, ng)
      else
        match parse_atom f s ng with
        | inl e => inl e
        | inr (a, s1, ng1) =>
          match quantify a s1 with
          | inl e => inl e
          | inr (q, s2) =>
            match parse_seq f s2 ng1 with
            | inl e => inl e
            | inr (b, s3, ng2) => inr (RSeq q b, s3, ng2)
            end
          end
        end
    end
  end
with parse_atom (fuel : nat) (s : list Z) (ng : nat)
    : UErrorCode + (regex * list Z * nat) :=
  match fuel with
  | O => inl U_REGEX_INTERNAL_ERROR
  | S f =>
    match s with
    | [] => inl U_REGEX_RULE_SYNTAX
    | c :: r =>
      if c =? 40 then
        match r with
        | 63 :: _ => inl U_REGEX_UNIMPLEMENTED
        | _ =>
          match parse_alt f r (S ng) with
          | inl e => inl e
          | inr (a, 41 :: s2, ng2) => inr (RGroup (S ng) a, s2, ng2)
          | inr _ => inl U_REGEX_MISMATCHED_PAREN
          end
        end
      else if is_quantifier c then inl U_REGEX_RULE_SYNTAX
      else if c =? 46 then inr (RAny, r, ng)
      else if c =? 91 then
        match r with
        | 94 :: r' =>
          match parse_set r' [] with
          | inl e => inl e
          | inr (ranges, s2) => inr (RSet true ranges, s2, ng)
          end
        | _ =>
          match parse_set r [] with
          | inl e => inl e
          | inr (ranges, s2) => inr (RSet false ranges, s2, ng)
          end
        end
      else if c =? 92 then
        match r with
        | e :: r2 =>
          if ascii_punct e then inr (RSet false [(e, e)], r2, ng)
          else inl U_REGEX_UNIMPLEMENTED
        | [] => inl U_REGEX_BAD_ESCAPE_SEQUENCE
        end
      else if (c =? 93) || (c =? 123) || (c =? 125) || (c =? 94) || (c =? 36)
      then inl U_REGEX_UNIMPLEMENTED
      else inr (RSet false [(c, c)], r, ng)
    end
  end.

Definition compile (pattern : UnicodeString) : UErrorCode + prog :=
  let cps := code_points pattern in
  match parse_alt (4 * length cps + 8) cps 0 with
  | inl e => inl e
  | inr (r, [], ng) => inr {| p_regex := r; p_groups := ng |}
  | inr (_, _ :: _, _) => inl U_REGEX_MISMATCHED_PAREN
  end.

(** Decimal digits: the ASCII ones. *)
Definition ascii_digit (c : Z) : option Z :=
  if (48 <=? c) && (c <=? 57) then Some (c - 48) else None.

End Mini.

Definition mini_engine : RegexEngine :=
  {| regex_prog := Mini.prog;
     regex_compile := Mini.compile;
     regex_groupCount := Mini.p_groups;
     regex_exec := Mini.exec;
     digit_value := Mini.ascii_digit |}.

(** No host function is ever run by the functions of this file on the inputs
    below; this one fails. *)
Definition no_host (id : nat) (args : list lua_value) : result lua_value :=
  Raise (LuaError (lit "host function")).

(** * Notions used in the statements *)

(** ** Text *)

(** A Unicode scalar value: a code point that is not a surrogate. *)
Definition scalar (c : Z) : Prop :=
  0 <= c <= 0x10FFFF /\ is_surrogate c = false.

(** A scalar value other than NUL. *)
Definition text_char (c : Z) : Prop := scalar c /\ c <> 0.

(** A character of the Basic Multilingual Plane, NUL excluded: one UTF-16
    code unit. *)
Definition bmp_char (c : Z) : Prop := text_char c /\ c < 0x10000.

Definition ascii_units (a : list Z) : bool := forallb (fun c => (0 <=? c) && (c <? 0x80)) a.

(** ** Index arithmetic without machine integers *)

(** The range computed by [sub_range], without machine arithmetic. *)
Definition clamp (lo hi z : Z) : Z := Z.max lo (Z.min hi z).

Definition from_end (len z : Z) : Z := if z <? 0 then z + len + 1 else z.

(** ** Matchers and the matches they report *)

(** A matcher that has been reset on [input] at the code-unit offset [pos]. *)
Definition fresh_matcher {E : RegexEngine} (prog : regex_prog E)
    (pattern input : UnicodeString) (pos : nat) : RegexMatcher E :=
  {| fPattern := prog; fPatternString := pattern; fInput := input;
     fMatch := false; fMatchStart := 0; fMatchEnd := pos; fGroups := [];
     fLastMatchEnd := None; fAppendPosition := 0 |}.

(** The message raised for a pattern that does not compile, as bytes. *)
Definition syntax_error_message (needle : bytes) (status : UErrorCode) : bytes :=
  lit "Syntax error in regex: " ++ [QUOTE] ++ needle ++ [QUOTE] ++ lit ": "
  ++ u_errorName status.

(** The values [gsub] accepts as its third argument. *)
Definition is_repl (v : lua_value) : Prop :=
  match v with
  | LString _ | LTable _ | LFunction _ => True
  | _ => False
  end.

(** [w'] is what the wrapper [w] has become after some calls of the
    iterator. *)
Inductive advanced (E : RegexEngine) : RegexWrapper E -> RegexWrapper E -> Prop :=
| advanced_0 w : advanced E w w
| advanced_S w w' w'' L n L' :
    advanced E w w' ->
    lua_utf8_gmatch_iter E w' L = Ok ((n, w''), L') ->
    advanced E w w''.

(** The match a matcher holds after a successful [find]. *)
Definition result_of {E : RegexEngine} (m : RegexMatcher E) : MatchResult :=
  {| m_start := fMatchStart m; m_end := fMatchEnd m; m_groups := fGroups m |}.

(** The text of group [i] of a match ([i = 0]: the whole match) in a pattern
    of [ng] groups; empty for a group number the pattern does not have. *)
Definition result_group (ng : nat) (input : UnicodeString) (r : MatchResult) (i : nat)
    : UnicodeString :=
  if (ng <? i)%nat then []
  else match i with
       | O => substring input (m_start r) (m_end r)
       | S k => nth k (m_groups r) []
       end.

(** Where the search resumes after a match: at its end, or one code point
    further when the match was empty (nowhere, at the end of the input). *)
Definition resume (input : UnicodeString) (r : MatchResult) : option nat :=
  if (m_start r =? m_end r)%nat then
    if (length input <=? m_end r)%nat then None
    else Some (m_end r + width32 input (m_end r))%nat
  else Some (m_end r).

Section MatchSequences.

Variable E : RegexEngine.

(** The successive matches of a pattern in [input] from the offset [pos] on,
    left to right and without overlap. *)
Fixpoint matches_from (fuel : nat) (prog : regex_prog E) (input : UnicodeString)
    (pos : nat) : list MatchResult :=
  match fuel with
  | O => []
  | S fuel' =>
    match regex_exec E prog input pos with
    | None => []
    | Some r =>
      r :: match resume input r with
           | None => []
           | Some pos' => matches_from fuel' prog input pos'
           end
    end
  end.

Definition all_matches (prog : regex_prog E) (input : UnicodeString) : list MatchResult :=
  matches_from (length input + 2) prog input 0.

(** Where the next [find] of a matcher starts its search, if it searches. *)
Definition next_pos (m : RegexMatcher E) : option nat :=
  if fMatch m then resume (fInput m) (result_of m)
  else match fLastMatchEnd m with
       | Some _ => None
       | None => Some (fMatchEnd m)
       end.

(** The matches the coming calls of [find] will report. *)
Definition pending (fuel : nat) (m : RegexMatcher E) : list MatchResult :=
  match next_pos m with
  | None => []
  | Some pos => matches_from fuel (fPattern m) (fInput m) pos
  end.

(** An upper bound on the number of matches still to come. *)
Definition budget (m : RegexMatcher E) : nat :=
  match next_pos m with
  | None => 0
  | Some pos => length (fInput m) + 1 - pos
  end.

Definition set_append (m : RegexMatcher E) (pos : nat) : RegexMatcher E :=
  {| fPattern := fPattern m; fPatternString := fPatternString m; fInput := fInput m;
     fMatch := fMatch m; fMatchStart := fMatchStart m; fMatchEnd := fMatchEnd m;
     fGroups := fGroups m; fLastMatchEnd := fLastMatchEnd m;
     fAppendPosition := pos |}.

End MatchSequences.

Arguments next_pos {E} _.
Arguments pending {E} _ _.
Arguments budget {E} _.
Arguments set_append {E} _ _.

(** ** What gsub builds *)

(** The text a template stands for at one match. *)
Definition template_text {E : RegexEngine} (ng : nat) (g : nat -> UnicodeString) (repl : UnicodeString)
    : UErrorCode + UnicodeString :=
  expand_replacement E (S (length repl)) ng g repl [].

(** The string [gsub] builds: before each of the matches [ms] the input that
    was skipped since [pos], then the text for that match; after the last
    one the rest of the input.  The first text that fails ends it all. *)
Fixpoint replace_matches (text : MatchResult -> UErrorCode + UnicodeString)
    (input : UnicodeString) (ms : list MatchResult) (pos : nat)
    : UErrorCode + UnicodeString :=
  match ms with
  | [] => inr (skipn pos input)
  | r :: ms' =>
    match text r with
    | inl e => inl e
    | inr t =>
      match replace_matches text input ms' (m_end r) with
      | inl e => inl e
      | inr rest => inr (substring input pos (m_start r) ++ t ++ rest)
      end
    end
  end.

(** The string [gsub] builds when every text succeeds. *)
Fixpoint splice (text : MatchResult -> UnicodeString) (input : UnicodeString)
    (ms : list MatchResult) (pos : nat) : UnicodeString :=
  match ms with
  | [] => skipn pos input
  | r :: ms' =>
    substring input pos (m_start r) ++ text r ++ splice text input ms' (m_end r)
  end.

(** How many replacements the limit [n] still allows when [counter] have
    been counted: no bound for a negative [n]. *)
Definition quota (n counter : Z) : option nat :=
  if n <? 0 then None else Some (Z.to_nat (n - counter)).

Definition take_quota {A} (q : option nat) (l : list A) : list A :=
  match q with
  | None => l
  | Some k => firstn k l
  end.

(** The counter has not wrapped around and has not passed the limit. *)
Definition counter_ok (n counter : Z) (fuel : nat) : Prop :=
  0 <= counter
  /\ (0 <= n -> counter <= n /\ n <= INT_MAX)
  /\ (n < 0 -> counter + Z.of_nat fuel <= INT_MAX).

(** What [lua_utf8_gsub] makes of the loop's outcome: [appendTail]. *)
Definition gsub_output {E : RegexEngine} (x : result (gsub_vars E * lua_State))
    : result (UnicodeString * lua_State) :=
  match x with
  | Ok (v, L) => Ok (appendTail (g_matcher E v) (g_r E v), L)
  | Raise f => Raise f
  end.

(** The text of a template at a match of a pattern with [ng] groups. *)
Definition gsub_text (E : RegexEngine) (ng : nat) (input repl : UnicodeString)
    (r : MatchResult)
    : UErrorCode + UnicodeString :=
  template_text (E := E) ng (result_group ng input r) repl.

(** The pieces of a replacement template in ICU's syntax: a character that
    stands for itself, a dollar sign with the number of a capture group, a
    backslash with a character made literal. *)
Inductive token : Type :=
| TLit (c : Z)
| TGroup (d : nat)
| TEsc (c : Z).

Definition render_token (t : token) : UnicodeString :=
  match t with
  | TLit c => [c]
  | TGroup d => [DOLLARSIGN; 48 + Z.of_nat d]
  | TEsc c => [BACKSLASH; c]
  end.

Definition render (ts : list token) : UnicodeString := flat_map render_token ts.

(** What a piece contributes at a match whose groups are [g]. *)
Definition denote (g : nat -> UnicodeString) (t : token) : UnicodeString :=
  match t with
  | TLit c => [c]
  | TGroup d => g d
  | TEsc c => [c]
  end.

Definition not_digit_next (E : RegexEngine) (u : UnicodeString) : Prop :=
  match next32 u with
  | Some (c, _) => digit_value E c = None
  | None => True
  end.

(** A template read piece by piece the way it was meant: plain characters
    are neither dollar sign nor backslash, a group number is one digit, at
    most the number of groups, and not followed by a further digit, and an
    escaped character is not the letter of a [u] escape. *)
Fixpoint tokens_ok (E : RegexEngine) (ng : nat) (ts : list token) : Prop :=
  match ts with
  | [] => True
  | TLit c :: ts' => c <> DOLLARSIGN /\ c <> BACKSLASH /\ tokens_ok E ng ts'
  | TGroup d :: ts' =>
    (d <= 9)%nat /\ (d <= ng)%nat /\ not_digit_next E (render ts') /\ tokens_ok E ng ts'
  | TEsc c :: ts' => c <> 85 /\ c <> 117 /\ tokens_ok E ng ts'
  end.

(** Characters that are neither dollar sign nor backslash. *)
Definition plain (u : UnicodeString) : Prop :=
  Forall (fun c => c <> DOLLARSIGN /\ c <> BACKSLASH) u.

(** The key looked up for a match: the first capture group, or the whole
    match when the pattern has no group, as the Lua string pushed. *)
Definition table_key (ng : nat) (input : UnicodeString) (r : MatchResult) : bytes :=
  c_str (to_utf8 (result_group ng input r (if (ng =? 0)%nat then 0 else 1)%nat)).

(** The table has no string for the key of this match: the key is absent
    (the lookup gives [nil]) or maps to a value of another type. *)
Definition no_replacement (t : list (bytes * lua_value)) (ng : nat)
    (input : UnicodeString) (r : MatchResult) : Prop :=
  match table_get t (table_key ng input r) with
  | LString _ => False
  | _ => True
  end.

Definition expected_string_at_top : bytes := lit "Expected a string at index -1".

(** ** Further notions *)

(** A byte of a Lua string. *)
Definition is_byte (b : Z) : Prop := 0 <= b <= 255.


(** The characters at the positions [first..last], counted from 1. *)
Definition chars_between {A} (l : list A) (first last : Z) : list A :=
  firstn (Z.to_nat (last - first + 1)) (skipn (Z.to_nat (first - 1)) l).

(** The capture groups of a match as Lua strings, in order. *)
Definition group_values (ng : nat) (input : UnicodeString) (r : MatchResult)
    : list lua_value :=
  map (fun i => LString (c_str (to_utf8 (result_group ng input r i)))) (seq 1 ng).

(** What a match hands to Lua: its capture groups, or the whole match when
    the pattern has no group. *)
Definition captures (ng : nat) (input : UnicodeString) (r : MatchResult)
    : list lua_value :=
  if (ng =? 0)%nat then [LString (c_str (to_utf8 (result_group ng input r 0)))]
  else group_values ng input r.

(** What one call of [aux_match] hands to Lua: the captures of the match
    [find] comes to, or [nil]. *)
Definition found_values (E : RegexEngine) (m : RegexMatcher E) : list lua_value :=
  if fst (find m)
  then captures (groupCount (snd (find m))) (fInput (snd (find m)))
         (result_of (snd (find m)))
  else [LNil].

(** The results of [k] successive calls of the iterator of [gmatch], each
    run on the stack [args]; the wrapper is the one the closure holds. *)
Fixpoint gmatch_calls (E : RegexEngine) (args : lua_State) (k : nat) (w : RegexWrapper E)
    : result (list (list lua_value)) :=
  match k with
  | O => Ok []
  | S k' =>
    match lua_utf8_gmatch_iter E w args with
    | Ok ((n, w'), L) =>
      match gmatch_calls E args k' w' with
      | Ok rs => Ok (lastn (Z.to_nat n) L :: rs)
      | Raise f => Raise f
      end
    | Raise f => Raise f
    end
  end.




(** The string [lua_utf8_gsub] makes of the loop's outcome, the stack left
    aside. *)
Definition gsub_string {E : RegexEngine} (x : result (gsub_vars E * lua_State))
    : result UnicodeString :=
  match x with
  | Ok (v, _) => Ok (appendTail (g_matcher E v) (g_r E v))
  | Raise f => Raise f
  end.

(** What [getProperty] pushes for one code unit: the short name of the value
    the property named [prop_] has there, its long name when it has no
    short one, [nil] when it has neither. *)
Definition property_value (D : UCharDatabase) (prop_ : bytes) (c : Z) : lua_value :=
  let prop := u_getPropertyEnum D prop_ in
  let value := u_getIntPropertyValue D c prop in
  match u_getPropertyValueName D prop value U_SHORT_PROPERTY_NAME with
  | Some name => LString (c_str name)
  | None =>
    match u_getPropertyValueName D prop value U_LONG_PROPERTY_NAME with
    | Some name => LString (c_str name)
    | None => LNil
    end
  end.

(** ** Inputs of the examples *)

(** What [mini_engine] compiles the patterns [a], [[0-9]], [(b)(c)], [[lo]]
    and [(a)] to. *)
Definition prog_a : Mini.prog :=
  {| Mini.p_regex := Mini.RSeq (Mini.RSet false [(97, 97)]) Mini.REps;
     Mini.p_groups := 0 |}.

Definition prog_digit : Mini.prog :=
  {| Mini.p_regex := Mini.RSeq (Mini.RSet false [(48, 57)]) Mini.REps;
     Mini.p_groups := 0 |}.

Definition prog_b_c : Mini.prog :=
  {| Mini.p_regex :=
       Mini.RSeq (Mini.RGroup 1 (Mini.RSeq (Mini.RSet false [(98, 98)]) Mini.REps))
         (Mini.RSeq (Mini.RGroup 2 (Mini.RSeq (Mini.RSet false [(99, 99)]) Mini.REps))
            Mini.REps);
     Mini.p_groups := 2 |}.

Definition prog_lo : Mini.prog :=
  {| Mini.p_regex := Mini.RSeq (Mini.RSet false [(108, 108); (111, 111)]) Mini.REps;
     Mini.p_groups := 0 |}.

Definition prog_group_a : Mini.prog :=
  {| Mini.p_regex :=
       Mini.RSeq (Mini.RGroup 1 (Mini.RSeq (Mini.RSet false [(97, 97)]) Mini.REps))
         Mini.REps;
     Mini.p_groups := 1 |}.

(** The wrapper a successful step yields (an idle matcher otherwise). *)
Definition wrapper_of (r : result ((Z * RegexWrapper mini_engine) * lua_State))
    : RegexWrapper mini_engine :=
  match r with
  | Ok ((_, w), _) => w
  | Raise _ =>
    {| matcher := @fresh_matcher mini_engine
                    {| Mini.p_regex := Mini.REps; Mini.p_groups := 0 |} [] [] 0;
       text := [] |}
  end.

(** [gmatch("a,b,c", "[^,]+")] and its first two steps. *)
Definition demo_w0 : RegexWrapper mini_engine :=
  wrapper_of (lua_utf8_gmatch mini_engine [LString (lit "a,b,c"); LString (lit "[^,]+")]).
Definition demo_w1 : RegexWrapper mini_engine :=
  wrapper_of (lua_utf8_gmatch_iter mini_engine demo_w0 []).
Definition demo_w2 : RegexWrapper mini_engine :=
  wrapper_of (lua_utf8_gmatch_iter mini_engine demo_w1 []).

(** A stand-in for ICU's database with one property, the general category
    of ASCII letters and digits. *)
Definition demo_database : UCharDatabase :=
  {| UProperty := bool;
     u_getPropertyEnum := fun name => bytes_eqb name (lit "gc");
     u_getIntPropertyValue := fun c known =>
       if known then
         if (48 <=? c) && (c <=? 57) then 9
         else if (65 <=? c) && (c <=? 90) then 1
         else if (97 <=? c) && (c <=? 122) then 2
         else 0
       else 0;
     u_getPropertyValueName := fun known value choice =>
       if known then
         match value, choice with
         | 9, U_SHORT_PROPERTY_NAME => Some (lit "Nd")
         | 1, U_SHORT_PROPERTY_NAME => Some (lit "Lu")
         | 2, U_SHORT_PROPERTY_NAME => Some (lit "Ll")
         | 0, U_SHORT_PROPERTY_NAME => Some (lit "Cn")
         | _, _ => None
         end
       else None |}.

(** * Theorems *)

(** ** UTF-8 and UTF-16 *)

Ltac bool_to_Z :=
  repeat match goal with
  | H : _ && _ = true |- _ => apply andb_true_iff in H; destruct H
  | H : _ || _ = false |- _ => apply orb_false_iff in H; destruct H
  | H : _ && _ = false |- _ => apply andb_false_iff in H
  | H : _ || _ = true |- _ => apply orb_true_iff in H
  | H : (_ <=? _) = true |- _ => apply Z.leb_le in H
  | H : (_ <=? _) = false |- _ => apply Z.leb_gt in H
  | H : (_ <? _) = true |- _ => apply Z.ltb_lt in H
  | H : (_ <? _) = false |- _ => apply Z.ltb_ge in H
  | H : (_ =? _) = true |- _ => apply Z.eqb_eq in H
  | H : (_ =? _) = false |- _ => apply Z.eqb_neq in H
  | H : (_ >? _) = true |- _ => rewrite Z.gtb_ltb in H; apply Z.ltb_lt in H
  | H : (_ >? _) = false |- _ => rewrite Z.gtb_ltb in H; apply Z.ltb_ge in H
  | H : (_ >=? _) = true |- _ => rewrite Z.geb_leb in H; apply Z.leb_le in H
  | H : (_ >=? _) = false |- _ => rewrite Z.geb_leb in H; apply Z.leb_gt in H
  end.

(** Decide a comparison that the context settles. *)
Ltac decide_test t :=
  let E := fresh "E" in
  destruct t eqn:E; bool_to_Z;
  try (exfalso; Z.div_mod_to_equations; lia);
  try (exfalso; destruct E; bool_to_Z; lia).

Ltac decide_tests :=
  repeat match goal with
  | |- context [if ?t then _ else _] =>
    lazymatch t with
    | context [if _ then _ else _] => fail
    | _ => decide_test t
    end
  end.

Lemma scalar_range c : scalar c -> 0 <= c < 0xD800 \/ 0xE000 <= c <= 0x10FFFF.
Proof.
  unfold scalar, is_surrogate. intros [R S].
  destruct (0xD800 <=? c) eqn:A; destruct (c <=? 0xDFFF) eqn:B;
    simpl in S; try discriminate; bool_to_Z; lia.
Qed.

Lemma fromUTF8_utf8_of_cp c r :
  scalar c -> fromUTF8 (utf8_of_cp c ++ r) = utf16_of_cp c ++ fromUTF8 r.
Proof.
  intros Hc. destruct (scalar_range c Hc) as [R | R];
  unfold utf8_of_cp, utf16_of_cp.
  - decide_test (c <? 0x80).
    + cbn [app fromUTF8]. decide_tests. reflexivity.
    + decide_test (c <? 0x800).
      * cbn [app fromUTF8]. unfold is_cont. decide_tests. cbn [app].
        f_equal. Z.div_mod_to_equations. lia.
      * decide_test (c <? 0x10000).
        cbn [app fromUTF8]. unfold lead3_t1, is_cont. decide_tests; cbn [app];
          f_equal; Z.div_mod_to_equations; lia.
  - decide_test (c <? 0x80). decide_test (c <? 0x800).
    decide_test (c <? 0x10000).
    + cbn [app fromUTF8]. unfold lead3_t1, is_cont. decide_tests; cbn [app];
        f_equal; Z.div_mod_to_equations; lia.
    + cbn [app fromUTF8]. unfold lead4_t1, is_cont.
      decide_test ((c <? 0) || (1114111 <? c)).
      decide_tests;
        replace ((240 + c / 262144 - 240) * 262144
                 + (128 + (c / 4096) mod 64 - 128) * 4096
                 + (128 + (c / 64) mod 64 - 128) * 64 + (128 + c mod 64 - 128))
          with c by (Z.div_mod_to_equations; lia);
        unfold utf16_of_cp; decide_tests; reflexivity.
Qed.

Lemma toUTF8_utf16_of_cp c r :
  scalar c -> toUTF8 (utf16_of_cp c ++ r) = utf8_of_cp c ++ toUTF8 r.
Proof.
  intros Hc. destruct (scalar_range c Hc) as [R | R]; unfold utf16_of_cp.
  - decide_test ((c <? 0) || (0x10FFFF <? c)). decide_test (c <? 0x10000).
    cbn [app toUTF8]. unfold is_lead, is_trail. decide_tests. reflexivity.
  - decide_test ((c <? 0) || (0x10FFFF <? c)). decide_test (c <? 0x10000).
    + cbn [app toUTF8]. unfold is_lead, is_trail. decide_tests. reflexivity.
    + cbn [app toUTF8]. unfold is_lead, is_trail, supplementary. decide_tests.
      f_equal. f_equal. Z.div_mod_to_equations. lia.
Qed.

Lemma fromUTF8_utf8 cps : Forall scalar cps -> fromUTF8 (utf8 cps) = utf16 cps.
Proof.
  induction 1 as [|c cps Hc _ IH]; [reflexivity|].
  unfold utf8, utf16 in *. cbn [flat_map].
  rewrite fromUTF8_utf8_of_cp by assumption. now rewrite IH.
Qed.

Lemma toUTF8_utf16 cps : Forall scalar cps -> toUTF8 (utf16 cps) = utf8 cps.
Proof.
  induction 1 as [|c cps Hc _ IH]; [reflexivity|].
  unfold utf8, utf16 in *. cbn [flat_map].
  rewrite toUTF8_utf16_of_cp by assumption. now rewrite IH.
Qed.

Lemma c_str_app_nonzero a b :
  Forall (fun x => x <> 0) a -> c_str (a ++ b) = a ++ c_str b.
Proof.
  induction 1 as [|x a Hx _ IH]; [reflexivity|].
  cbn [app c_str]. decide_test (x =? 0). now rewrite IH.
Qed.

Lemma utf8_of_cp_nonzero c : text_char c -> Forall (fun x => x <> 0) (utf8_of_cp c).
Proof.
  intros [[R _] N]. unfold utf8_of_cp.
  decide_tests; repeat constructor; Z.div_mod_to_equations; lia.
Qed.

Lemma c_str_utf8 cps : Forall text_char cps -> c_str (utf8 cps) = utf8 cps.
Proof.
  induction 1 as [|c cps Hc _ IH]; [reflexivity|].
  unfold utf8 in *. cbn [flat_map].
  rewrite c_str_app_nonzero by (now apply utf8_of_cp_nonzero). now rewrite IH.
Qed.

Lemma text_chars_scalar cps : Forall text_char cps -> Forall scalar cps.
Proof. apply Forall_impl. now intros c [H _]. Qed.

Lemma bmp_chars_text cps : Forall bmp_char cps -> Forall text_char cps.
Proof. apply Forall_impl. now intros c [H _]. Qed.

(** Well-formed text crosses the boundary unchanged, in both directions. *)
Lemma checked_text cps :
  Forall text_char cps -> fromUTF8 (c_str (utf8 cps)) = utf16 cps.
Proof.
  intros H. rewrite c_str_utf8 by assumption.
  now apply fromUTF8_utf8, text_chars_scalar.
Qed.

Lemma pushed_text cps :
  Forall text_char cps -> c_str (to_utf8 (utf16 cps)) = utf8 cps.
Proof.
  intros H. unfold to_utf8. rewrite toUTF8_utf16 by now apply text_chars_scalar.
  now apply c_str_utf8.
Qed.

Lemma utf16_bmp cps : Forall bmp_char cps -> utf16 cps = cps.
Proof.
  induction 1 as [|c cps Hc _ IH]; [reflexivity|].
  unfold utf16 in *. cbn [flat_map]. rewrite IH.
  destruct Hc as [[[R _] _] B]. unfold utf16_of_cp. decide_tests. reflexivity.
Qed.

Lemma bmp_not_lead c : bmp_char c -> is_lead c = false.
Proof.
  intros [[[R S] _] _]. unfold is_surrogate in S. unfold is_lead.
  destruct (0xD800 <=? c) eqn:A; [|reflexivity].
  destruct (c <=? 0xDFFF) eqn:B; [discriminate|].
  destruct (c <=? 0xDBFF) eqn:C; [|reflexivity]. bool_to_Z. lia.
Qed.

Lemma countChar32_bmp cps :
  Forall bmp_char cps -> countChar32 cps = Z.of_nat (length cps).
Proof.
  induction 1 as [|c cps Hc _ IH]; [reflexivity|].
  cbn [countChar32]. destruct cps as [|d r].
  - reflexivity.
  - rewrite (bmp_not_lead c Hc). cbn [andb]. rewrite IH.
    cbn [length]. lia.
Qed.

Lemma list_length_ind {A} (P : list A -> Prop) :
  (forall l, (forall l', (length l' < length l)%nat -> P l') -> P l) ->
  forall l, P l.
Proof.
  intros H l. remember (length l) as n eqn:En. revert l En.
  induction n as [n IH] using lt_wf_ind. intros l ->.
  apply H. intros l' Hl. now apply (IH (length l')).
Qed.

Lemma countChar32_cons2 c d r :
  countChar32 (c :: d :: r)
  = if is_lead c && is_trail d then 1 + countChar32 r else 1 + countChar32 (d :: r).
Proof. reflexivity. Qed.

Lemma countChar32_bounds u : 0 <= countChar32 u <= Z.of_nat (length u).
Proof.
  induction u as [u IH] using list_length_ind.
  destruct u as [|c [|d r]]; [cbn; lia | cbn; lia |].
  rewrite countChar32_cons2.
  pose proof (IH r ltac:(cbn; lia)).
  pose proof (IH (d :: r) ltac:(cbn; lia)).
  cbn [length] in *. destruct (is_lead c && is_trail d); lia.
Qed.

(** ** sub: the index arithmetic *)

Lemma wrap_long_small z : LONG_MIN <= z <= LONG_MAX -> wrap_long z = z.
Proof.
  unfold wrap_long, LONG_MIN, LONG_MAX.
  change (2 ^ 63) with 9223372036854775808.
  change (2 ^ 64) with 18446744073709551616.
  intros H. rewrite Z.mod_small by lia. lia.
Qed.

Lemma int32_wrap_small z : INT_MIN <= z <= INT_MAX -> int32_wrap z = z.
Proof.
  unfold int32_wrap, INT_MIN, INT_MAX.
  change (2 ^ 31) with 2147483648. change (2 ^ 32) with 4294967296.
  intros H. rewrite Z.mod_small by lia. lia.
Qed.

Ltac long_consts :=
  unfold LONG_MIN, LONG_MAX, INT_MIN, INT_MAX in *;
  change (2 ^ 63) with 9223372036854775808 in *;
  change (2 ^ 31) with 2147483648 in *.

Lemma sub_range_eq len start limit :
  0 <= len <= INT_MAX ->
  LONG_MIN <= start <= LONG_MAX -> LONG_MIN <= limit <= LONG_MAX ->
  sub_range len start limit
  = let s := clamp 1 (len + 1) (from_end len start) in
    let l := clamp 0 len (from_end len limit) in
    (s - 1, if l <? s then s - 1 else l).
Proof.
  intros Hl Hs He. unfold sub_range, clamp, from_end. cbv zeta.
  rewrite (wrap_long_small (len + 1)) by (long_consts; lia).
  destruct (start <? 0) eqn:A; destruct (limit <? 0) eqn:B; bool_to_Z;
    repeat rewrite wrap_long_small by (long_consts; lia);
    repeat match goal with
    | |- context [if ?t then _ else _] =>
      lazymatch t with
      | context [if _ then _ else _] => fail
      | _ => destruct t eqn:?; bool_to_Z
      end
    | |- context [wrap_long ?z] => rewrite (wrap_long_small z) by (long_consts; lia)
    | H : context [wrap_long ?z] |- _ =>
      rewrite (wrap_long_small z) in H by (long_consts; lia)
    end;
    long_consts; f_equal; lia.
Qed.

Lemma sub_range_bounds len start limit :
  0 <= len <= INT_MAX ->
  LONG_MIN <= start <= LONG_MAX -> LONG_MIN <= limit <= LONG_MAX ->
  0 <= fst (sub_range len start limit) <= snd (sub_range len start limit)
  /\ snd (sub_range len start limit) <= len.
Proof.
  intros Hl Hs He. rewrite sub_range_eq by assumption.
  unfold clamp, from_end. cbv zeta. cbn [fst snd].
  destruct (start <? 0), (limit <? 0);
    match goal with |- context [if ?t then _ else _] => destruct t eqn:? end;
    bool_to_Z; lia.
Qed.

(** ** Running the functions on a given stack *)

Arguments fromUTF8 : simpl never.
Arguments toUTF8 : simpl never.
Arguments to_utf8 : simpl never.
Arguments c_str : simpl never.
Arguments countChar32 : simpl never.
Arguments sub_range : simpl never.
Arguments extractBetween : simpl never.
Arguments indexOf : simpl never.
Arguments lit : simpl never.
Arguments decimal : simpl never.
Arguments u_errorName : simpl never.
Arguments syntax_error : simpl never.
Arguments lastn : simpl never.
Arguments wrap_long : simpl never.
Arguments int32_wrap : simpl never.
Arguments LONG_MIN : simpl never.
Arguments LONG_MAX : simpl never.
Arguments INT_MIN : simpl never.
Arguments INT_MAX : simpl never.

Lemma in_long z :
  LONG_MIN <= z <= LONG_MAX -> (LONG_MIN <=? z) && (z <=? LONG_MAX) = true.
Proof. intros. apply andb_true_iff. split; apply Z.leb_le; lia. Qed.

Lemma in_int z :
  INT_MIN <= z <= INT_MAX -> (INT_MIN <=? z) && (z <=? INT_MAX) = true.
Proof. intros. apply andb_true_iff. split; apply Z.leb_le; lia. Qed.

Lemma lastn_app {A} (a b : list A) : lastn (length b) (a ++ b) = b.
Proof.
  unfold lastn. rewrite length_app.
  replace (length a + length b - length b)%nat with (length a + 0)%nat by lia.
  rewrite skipn_app, Nat.add_0_r, skipn_all.
  replace (length a - length a)%nat with 0%nat by lia. reflexivity.
Qed.

Lemma lastn_all {A} (l : list A) : lastn (length l) l = l.
Proof. unfold lastn. now rewrite Nat.sub_diag. Qed.

Lemma lastn_0 {A} (l : list A) : lastn 0 l = [].
Proof. unfold lastn. rewrite Nat.sub_0_r. apply skipn_all. Qed.

(** The operations on the stack, unfolded. *)
Ltac lua_unfold :=
  unfold lua_utf8_len, opt_arg, check_args, check_long, check_int, check_int32,
    check_t, check_bool, check_string, luaL_checknumber, lua_isnil,
    lua_isfunction, lua_istable, checkustring, lua_type, lua_at, lua_gettop,
    pushustring, lua_pushstring, lua_pushnil, lua_pushnumber, lua_pushvalue,
    lua_push, APP_ASSERT, my_lua_error_u, my_lua_error, raise, bind, ret in *.

(** Evaluate, settling the range tests of numeric arguments on the way. *)
Ltac lua_run :=
  lua_unfold; simpl;
  repeat (first [ rewrite in_long by (assumption || (long_consts; lia))
                | rewrite in_int by (assumption || (long_consts; lia)) ];
          simpl).

Lemma sub_asserts_pass (ustr : UnicodeString) start limit (L : lua_State) :
  0 <= countChar32 ustr <= INT_MAX ->
  LONG_MIN <= start <= LONG_MAX -> LONG_MIN <= limit <= LONG_MAX ->
  (let '(start, limit) := sub_range (countChar32 ustr) start limit in
   APP_ASSERT (start >=? 0) ;;;
   APP_ASSERT (start <=? countChar32 ustr) ;;;
   APP_ASSERT (limit >=? 0) ;;;
   APP_ASSERT (limit <=? countChar32 ustr) ;;;
   APP_ASSERT (start <=? limit) ;;;
   pushustring (extractBetween ustr start limit) ;;;
   ret 1) L
  = Ok (1, L ++ [LString (c_str (to_utf8
        (extractBetween ustr (fst (sub_range (countChar32 ustr) start limit))
                             (snd (sub_range (countChar32 ustr) start limit)))))]).
Proof.
  intros Hl Hs He.
  pose proof (sub_range_bounds _ _ _ Hl Hs He) as B.
  destruct (sub_range (countChar32 ustr) start limit) as [s l].
  cbn [fst snd] in *. lua_unfold.
  replace (s >=? 0) with true by (symmetry; rewrite Z.geb_leb; apply Z.leb_le; lia).
  replace (s <=? countChar32 ustr) with true by (symmetry; apply Z.leb_le; lia).
  replace (l >=? 0) with true by (symmetry; rewrite Z.geb_leb; apply Z.leb_le; lia).
  replace (l <=? countChar32 ustr) with true by (symmetry; apply Z.leb_le; lia).
  replace (s <=? l) with true by (symmetry; apply Z.leb_le; lia).
  reflexivity.
Qed.

Lemma bind_ok {A B} (c : Lua A) (k : A -> Lua B) L a L' :
  c L = Ok (a, L') -> bind c k L = k a L'.
Proof. unfold bind. now intros ->. Qed.

Lemma bind_raise {A B} (c : Lua A) (k : A -> Lua B) L f :
  c L = Raise f -> bind c k L = Raise f.
Proof. unfold bind. now intros ->. Qed.

(** One statement of a function body: it yields [a] and leaves the stack [L']. *)
Ltac bind_step a L' :=
  erewrite (bind_ok _ _ _ a L') by (lua_run; reflexivity); cbv beta.

(** [sub] with both indices given. *)
Lemma sub_3 s i j :
  0 <= countChar32 (fromUTF8 (c_str s)) <= INT_MAX ->
  LONG_MIN <= i <= LONG_MAX -> LONG_MIN <= j <= LONG_MAX ->
  call lua_utf8_sub [LString s; LNumber i; LNumber j]
  = let u := fromUTF8 (c_str s) in
    let rg := sub_range (countChar32 u) i j in
    Ok [LString (c_str (to_utf8 (extractBetween u (fst rg) (snd rg))))].
Proof.
  intros Hl Hi Hj. unfold call, lua_utf8_sub.
  set (L := [LString s; LNumber i; LNumber j]).
  bind_step 3 L. bind_step (i, j) L. bind_step (fromUTF8 (c_str s)) L.
  cbn [fst snd]. rewrite sub_asserts_pass by assumption.
  reflexivity.
Qed.

(** [sub] with the start index alone. *)
Lemma sub_2 s i :
  0 <= countChar32 (fromUTF8 (c_str s)) <= INT_MAX ->
  LONG_MIN <= i <= LONG_MAX ->
  call lua_utf8_sub [LString s; LNumber i]
  = let u := fromUTF8 (c_str s) in
    let rg := sub_range (countChar32 u) i (-1) in
    Ok [LString (c_str (to_utf8 (extractBetween u (fst rg) (snd rg))))].
Proof.
  intros Hl Hi. unfold call, lua_utf8_sub.
  set (L := [LString s; LNumber i]).
  bind_step 2 L. bind_step (i, -1) L. bind_step (fromUTF8 (c_str s)) L.
  cbn [fst snd]. rewrite sub_asserts_pass by (assumption || (long_consts; lia)).
  reflexivity.
Qed.

Lemma index_value_1 v L : index_value (v :: L) 1 = Some v.
Proof. reflexivity. Qed.

(** Break the tests and matches a hypothesis is stuck on. *)
Ltac crunch H :=
  repeat match type of H with
  | context [match ?x with _ => _ end] =>
    lazymatch x with
    | context [match _ with _ => _ end] => fail
    | _ => destruct x eqn:?
    end
  end; try discriminate H.

Lemma sub_never_asserts s rest :
  countChar32 (fromUTF8 (c_str s)) <= INT_MAX ->
  lua_utf8_sub (LString s :: rest) <> Raise AssertFailed.
Proof.
  intros Hl. pose proof (countChar32_bounds (fromUTF8 (c_str s))) as [Hl0 _].
  unfold lua_utf8_sub. set (L := LString s :: rest).
  bind_step (Z.of_nat (length L)) L.
  match goal with
  | |- bind ?c ?k ?L <> _ => destruct (c L) as [[[start limit] L'] | f] eqn:Hc
  end.
  - assert (L' = L /\ LONG_MIN <= start <= LONG_MAX /\ LONG_MIN <= limit <= LONG_MAX)
      as (-> & Hs & He).
    { clear - Hc. lua_unfold. crunch Hc; inversion Hc; subst; bool_to_Z;
        repeat split; try assumption; long_consts; lia. }
    erewrite bind_ok by exact Hc.
    bind_step (fromUTF8 (c_str s)) L.
    cbn [fst snd]. rewrite sub_asserts_pass by (assumption || lia).
    discriminate.
  - erewrite bind_raise by exact Hc.
    clear - Hc. lua_unfold. crunch Hc; inversion Hc; discriminate.
Qed.

Lemma extractBetween_inside u a b :
  0 <= a <= b -> b <= ulength u ->
  extractBetween u a b = firstn (Z.to_nat (b - a)) (skipn (Z.to_nat a) u).
Proof.
  intros H1 H2. unfold extractBetween, pinIndex.
  decide_tests. reflexivity.
Qed.

Lemma extractBetween_empty u a : extractBetween u a a = [].
Proof. unfold extractBetween. now rewrite Z.sub_diag. Qed.

Lemma extractBetween_all u : extractBetween u 0 (ulength u) = u.
Proof.
  pose proof (Zle_0_nat (length u)).
  rewrite extractBetween_inside by (unfold ulength; lia).
  unfold ulength. rewrite Z.sub_0_r, Nat2Z.id. cbn [Z.to_nat skipn].
  apply firstn_all.
Qed.

Lemma extractBetween_last pre c :
  extractBetween (pre ++ [c]) (ulength (pre ++ [c]) - 1) (ulength (pre ++ [c])) = [c].
Proof.
  assert (Hn : ulength (pre ++ [c]) = Z.of_nat (length pre) + 1)
    by (unfold ulength; rewrite length_app; cbn [length]; lia).
  rewrite extractBetween_inside by lia. rewrite Hn.
  replace (Z.to_nat (Z.of_nat (length pre) + 1 - 1)) with (length pre + 0)%nat by lia.
  replace (Z.to_nat (Z.of_nat (length pre) + 1 - (Z.of_nat (length pre) + 1 - 1)))
    with 1%nat by lia.
  rewrite skipn_app, Nat.add_0_r, skipn_all.
  replace (length pre - length pre)%nat with 0%nat by lia. reflexivity.
Qed.

(** C7: for every string and every raw start and limit, the range that
    [lua_utf8_sub] computes satisfies [0 <= start <= limit <= L], where [L]
    is the code point count of the string; and whatever arguments follow the
    string, no [APP_ASSERT] of [lua_utf8_sub] fails. *)
Theorem sub_range_valid (s : bytes) (start limit : Z) :
  let L := countChar32 (fromUTF8 (c_str s)) in
  L <= INT_MAX ->
  LONG_MIN <= start <= LONG_MAX -> LONG_MIN <= limit <= LONG_MAX ->
  (0 <= fst (sub_range L start limit) <= snd (sub_range L start limit)
   /\ snd (sub_range L start limit) <= L)
  /\ forall rest, lua_utf8_sub (LString s :: rest) <> Raise AssertFailed.
Proof.
  intros L Hl Hs He.
  pose proof (countChar32_bounds (fromUTF8 (c_str s))) as [Hl0 _].
  split.
  - apply sub_range_bounds; (assumption || (subst L; lia)).
  - intros rest. now apply sub_never_asserts.
Qed.

Lemma sub_range_valid_witness :
  (0 <= fst (sub_range 5 (-3) 9) <= snd (sub_range 5 (-3) 9)
   /\ snd (sub_range 5 (-3) 9) <= 5)
  /\ forall rest, lua_utf8_sub (LString (lit "hello") :: rest) <> Raise AssertFailed.
Proof.
  apply (sub_range_valid (lit "hello") (-3) 9); vm_compute; intuition discriminate.
Defined.

(** ** sub: what it returns *)

Lemma sub_range_whole n :
  0 <= n <= INT_MAX -> sub_range n 1 (-1) = (0, n).
Proof.
  intros H. rewrite sub_range_eq by (long_consts; lia).
  unfold clamp, from_end. cbv zeta. simpl (1 <? 0). simpl (-1 <? 0). cbv iota.
  decide_tests; f_equal; lia.
Qed.

Lemma sub_range_last n :
  1 <= n <= INT_MAX -> sub_range n (-1) (-1) = (n - 1, n).
Proof.
  intros H. rewrite sub_range_eq by (long_consts; lia).
  unfold clamp, from_end. cbv zeta. simpl (-1 <? 0). cbv iota.
  decide_tests; f_equal; lia.
Qed.

Lemma sub_range_empty n i j :
  0 <= n <= INT_MAX ->
  LONG_MIN <= i <= LONG_MAX -> LONG_MIN <= j <= LONG_MAX ->
  from_end n j < from_end n i ->
  fst (sub_range n i j) = snd (sub_range n i j).
Proof.
  intros H Hi Hj Hlt. rewrite sub_range_eq by assumption.
  unfold clamp in *. cbv zeta. cbn [fst snd].
  decide_tests; lia.
Qed.

Lemma bmp_text_checked cps :
  Forall bmp_char cps -> fromUTF8 (c_str (utf8 cps)) = cps.
Proof.
  intros H. rewrite checked_text by now apply bmp_chars_text.
  now apply utf16_bmp.
Qed.

Lemma bmp_text_pushed cps :
  Forall bmp_char cps -> c_str (to_utf8 cps) = utf8 cps.
Proof.
  intros H. rewrite <- (utf16_bmp cps H) at 1.
  now apply pushed_text, bmp_chars_text.
Qed.

(** C3 (amended): for text [cps] of non-NUL characters of the Basic
    Multilingual Plane, [sub(s, 1, -1)] is [s] and [sub(s, -1)] is the last
    code point of [s]; for every string [s] whatsoever and indices with
    [j < i] after the reinterpretation of negative values as
    [value + L + 1], [sub(s, i, j)] is the empty string. *)
Theorem sub_bmp_text (cps : list Z) (s : bytes) (i j : Z) :
  Forall bmp_char cps -> Z.of_nat (length cps) <= INT_MAX ->
  countChar32 (fromUTF8 (c_str s)) <= INT_MAX ->
  LONG_MIN <= i <= LONG_MAX -> LONG_MIN <= j <= LONG_MAX ->
  call lua_utf8_sub [LString (utf8 cps); LNumber 1; LNumber (-1)]
    = Ok [LString (utf8 cps)]
  /\ (from_end (countChar32 (fromUTF8 (c_str s))) j
      < from_end (countChar32 (fromUTF8 (c_str s))) i ->
      call lua_utf8_sub [LString s; LNumber i; LNumber j] = Ok [LString []])
  /\ (forall pre c, cps = pre ++ [c] ->
      call lua_utf8_sub [LString (utf8 cps); LNumber (-1)]
        = Ok [LString (utf8_of_cp c)]).
Proof.
  intros Hb Hn Hl Hi Hj.
  pose proof (countChar32_bounds (fromUTF8 (c_str s))) as [Hl0 _].
  assert (Hc : countChar32 (fromUTF8 (c_str (utf8 cps))) = Z.of_nat (length cps))
    by (rewrite bmp_text_checked by assumption; now apply countChar32_bmp).
  repeat split.
  - rewrite sub_3 by (rewrite ?Hc; long_consts; lia). cbv zeta.
    rewrite Hc, sub_range_whole by lia. cbn [fst snd].
    rewrite bmp_text_checked by assumption.
    fold (ulength cps). rewrite extractBetween_all.
    now rewrite bmp_text_pushed.
  - intros Hlt. rewrite sub_3 by (assumption || lia). cbv zeta.
    rewrite (sub_range_empty _ i j) by (assumption || lia).
    now rewrite extractBetween_empty.
  - intros pre c ->.
    assert (1 <= Z.of_nat (length (pre ++ [c]))) by (rewrite length_app; cbn; lia).
    rewrite sub_2 by (rewrite ?Hc; long_consts; lia). cbv zeta.
    rewrite Hc, sub_range_last by lia. cbn [fst snd].
    rewrite bmp_text_checked by assumption.
    fold (ulength (pre ++ [c])). rewrite extractBetween_last.
    apply Forall_app in Hb as [_ Hb].
    rewrite (bmp_text_pushed [c] Hb). unfold utf8. cbn [flat_map].
    now rewrite app_nil_r.
Qed.

Lemma bmp_char_dec_true c :
  (0 <? c) && (c <? 0x10000) && negb (is_surrogate c) = true -> bmp_char c.
Proof.
  intros H. apply andb_true_iff in H as [H S]. apply andb_true_iff in H as [A B].
  apply negb_true_iff in S. bool_to_Z. repeat split; try lia. exact S.
Qed.

Lemma sub_bmp_text_witness :
  call lua_utf8_sub [LString (utf8 [104; 0xE9; 0x4E2D]); LNumber 1; LNumber (-1)]
    = Ok [LString (utf8 [104; 0xE9; 0x4E2D])]
  /\ call lua_utf8_sub [LString (lit "hello"); LNumber (-1); LNumber 2]
    = Ok [LString []]
  /\ call lua_utf8_sub [LString (utf8 [104; 0xE9; 0x4E2D]); LNumber (-1)]
    = Ok [LString (utf8_of_cp 0x4E2D)].
Proof.
  destruct (sub_bmp_text [104; 0xE9; 0x4E2D] (lit "hello") (-1) 2) as (A & B & C).
  - repeat constructor; apply bmp_char_dec_true; reflexivity.
  - vm_compute; discriminate.
  - vm_compute; discriminate.
  - vm_compute; intuition discriminate.
  - vm_compute; intuition discriminate.
  - split; [exact A | split].
    + apply B. vm_compute. reflexivity.
    + apply (C [104; 0xE9] 0x4E2D). reflexivity.
Defined.

(** C3 as stated fails on three kinds of strings: on a character outside the
    Basic Multilingual Plane (U+1F600: [sub(s, 1, -1)] is U+FFFD, because
    the range counts code points and [extractBetween] counts code units),
    on bytes that are not UTF-8, and on a string with a NUL inside. *)
Lemma sub_whole_counterexample :
  call lua_utf8_sub [LString [0xF0; 0x9F; 0x98; 0x80]; LNumber 1; LNumber (-1)]
    = Ok [LString [0xEF; 0xBF; 0xBD]]
  /\ call lua_utf8_sub [LString [0xFF]; LNumber 1; LNumber (-1)]
    = Ok [LString [0xEF; 0xBF; 0xBD]]
  /\ call lua_utf8_sub [LString [97; 0; 98]; LNumber 1; LNumber (-1)]
    = Ok [LString [97]].
Proof. repeat split; vm_compute; reflexivity. Qed.

(** ** codepoint and char *)

Lemma index_value_middle (pre : lua_State) x post :
  index_value (pre ++ x :: post) (Z.of_nat (length pre) + 1) = Some x.
Proof.
  unfold index_value. decide_test (Z.of_nat (length pre) + 1 >? 0).
  replace (Z.to_nat (Z.of_nat (length pre) + 1 - 1)) with (length pre + 0)%nat by lia.
  rewrite nth_error_app2 by lia.
  replace (length pre + 0 - length pre)%nat with 0%nat by lia. reflexivity.
Qed.

Lemma char_loop post : forall pre acc,
  for_loop (length post) (Z.of_nat (length pre) + 1)
    (fun i ustr => cp <- luaL_checknumber i ;; ret (append32 ustr cp)) acc
    (map LNumber (pre ++ post))
  = Ok (acc ++ utf16 post, map LNumber (pre ++ post)).
Proof.
  induction post as [|c post IH]; intros pre acc.
  - cbn. unfold ret. now rewrite !app_nil_r.
  - cbn [length for_loop].
    erewrite bind_ok with (a := append32 acc c) (L' := map LNumber (pre ++ c :: post)).
    + replace (Z.of_nat (length pre) + 1 + 1) with (Z.of_nat (length (pre ++ [c])) + 1)
        by (rewrite length_app; cbn [length]; lia).
      replace (pre ++ c :: post) with ((pre ++ [c]) ++ post)
        by (now rewrite <- app_assoc).
      rewrite IH. unfold append32, utf16. cbn [flat_map].
      now rewrite <- app_assoc.
    + lua_unfold. rewrite map_app. cbn [map].
      replace (length pre) with (length (map LNumber pre)) by apply length_map.
      now rewrite index_value_middle.
Qed.

Lemma charAt_middle pre c post :
  charAt (pre ++ c :: post) (Z.of_nat (length pre) + 1 - 1) = c.
Proof.
  unfold charAt, ulength. rewrite length_app. cbn [length].
  decide_test ((0 <=? Z.of_nat (length pre) + 1 - 1)
               && (Z.of_nat (length pre) + 1 - 1 <? Z.of_nat (length pre + S (length post)))).
  replace (Z.to_nat (Z.of_nat (length pre) + 1 - 1)) with (length pre + 0)%nat by lia.
    rewrite app_nth2 by lia.
    replace (length pre + 0 - length pre)%nat with 0%nat by lia. reflexivity.
Qed.

Lemma codepoint_loop post : forall pre (L : lua_State),
  for_loop (length post) (Z.of_nat (length pre) + 1)
    (fun i (_ : unit) => lua_pushnumber (charAt (pre ++ post) (i - 1))) tt L
  = Ok (tt, L ++ map LNumber post).
Proof.
  induction post as [|c post IH]; intros pre L.
  - cbn. unfold ret. now rewrite !app_nil_r.
  - cbn [length for_loop].
    erewrite bind_ok with (a := tt) (L' := L ++ [LNumber c]).
    + replace (Z.of_nat (length pre) + 1 + 1) with (Z.of_nat (length (pre ++ [c])) + 1)
        by (rewrite length_app; cbn [length]; lia).
      replace (pre ++ c :: post) with ((pre ++ [c]) ++ post)
        by (now rewrite <- app_assoc).
      rewrite IH. cbn [map]. now rewrite <- app_assoc.
    + lua_unfold. now rewrite charAt_middle.
Qed.

Lemma char_of_bmp cps :
  Forall bmp_char cps ->
  call lua_utf8_char (map LNumber cps) = Ok [LString (utf8 cps)].
Proof.
  intros Hb. unfold call, lua_utf8_char.
  set (L := map LNumber cps).
  bind_step (Z.of_nat (length L)) L.
  rewrite Nat2Z.id. unfold L at 1. rewrite length_map.
  pose proof (char_loop cps [] []) as Hloop. cbn [length Z.of_nat app] in Hloop.
  change (0 + 1) with 1 in Hloop.
  erewrite bind_ok by exact Hloop.
  rewrite utf16_bmp by assumption. lua_unfold.
  rewrite bmp_text_pushed by assumption.
  f_equal. apply (lastn_app _ [_]).
Qed.

Lemma codepoint_of_bmp cps :
  Forall bmp_char cps -> Z.of_nat (length cps) <= INT_MAX ->
  call lua_utf8_codepoint
    [LString (utf8 cps); LNumber 1; LNumber (Z.of_nat (length cps))]
  = Ok (map LNumber cps).
Proof.
  intros Hb Hn. unfold call, lua_utf8_codepoint.
  set (n := Z.of_nat (length cps)) in *.
  assert (0 <= n) by (subst n; lia).
  set (L := [LString (utf8 cps); LNumber 1; LNumber n]).
  bind_step 3 L. bind_step 1 L. change (1 <=? 0) with false. cbv iota.
  bind_step n L. bind_step (fromUTF8 (c_str (utf8 cps))) L.
  rewrite bmp_text_checked by assumption.
  rewrite countChar32_bmp by assumption. fold n.
  replace (if (if n <=? 1 then 1 else n) >? n then n else if n <=? 1 then 1 else n)
    with n by (decide_tests; lia).
  replace (n - 1 + 1) with n by lia.
  unfold n at 1. rewrite Nat2Z.id.
  pose proof (codepoint_loop cps [] L) as Hloop. cbn [length Z.of_nat app] in Hloop.
  change (0 + 1) with 1 in Hloop.
  erewrite bind_ok by exact Hloop.
  unfold ret. unfold n. rewrite Nat2Z.id.
  f_equal. rewrite <- (length_map LNumber cps). apply lastn_app.
Qed.

(** C6 (amended): for every sequence [cps] of non-NUL characters of the
    Basic Multilingual Plane, [char] builds their UTF-8 text, and
    [codepoint] asked for the positions 1 to n of that text returns the
    values back, one number per position, in order. *)
Theorem codepoint_char_roundtrip (cps : list Z) :
  Forall bmp_char cps -> Z.of_nat (length cps) <= INT_MAX ->
  exists s,
    call lua_utf8_char (map LNumber cps) = Ok [LString s]
    /\ call lua_utf8_codepoint [LString s; LNumber 1; LNumber (Z.of_nat (length cps))]
       = Ok (map LNumber cps).
Proof.
  intros Hb Hn. exists (utf8 cps). split.
  - now apply char_of_bmp.
  - now apply codepoint_of_bmp.
Qed.

Lemma codepoint_char_roundtrip_witness :
  exists s,
    call lua_utf8_char [LNumber 65; LNumber 0x4E2D] = Ok [LString s]
    /\ call lua_utf8_codepoint [LString s; LNumber 1; LNumber 2]
       = Ok [LNumber 65; LNumber 0x4E2D].
Proof.
  apply (codepoint_char_roundtrip [65; 0x4E2D]).
  - repeat constructor; apply bmp_char_dec_true; reflexivity.
  - vm_compute; discriminate.
Defined.

(** C6 as stated fails on its own example: [codepoint] without indices
    returns the first code point only, since [i] and [j] default to 1. *)
Lemma codepoint_default_counterexample :
  call lua_utf8_char [LNumber 65; LNumber 0x4E2D] = Ok [LString [65; 0xE4; 0xB8; 0xAD]]
  /\ call lua_utf8_codepoint [LString [65; 0xE4; 0xB8; 0xAD]] = Ok [LNumber 65].
Proof. split; vm_compute; reflexivity. Qed.

(** Outside the Basic Multilingual Plane the values do not come back:
    [ustr[i-1]] reads a UTF-16 code unit, so U+1F600 is returned as the two
    halves of its surrogate pair. *)
Example codepoint_supplementary :
  call lua_utf8_char [LNumber 0x1F600] = Ok [LString [0xF0; 0x9F; 0x98; 0x80]]
  /\ call lua_utf8_codepoint [LString [0xF0; 0x9F; 0x98; 0x80]; LNumber 1; LNumber 1]
     = Ok [LNumber 0xD83D].
Proof. split; vm_compute; reflexivity. Qed.

(** ** find and match: the init index *)

Lemma RegexMatcher_new_ok E needle prog :
  regex_compile E needle = inr prog ->
  RegexMatcher_new E needle = inr (fresh_matcher prog needle [] 0).
Proof. unfold RegexMatcher_new. now intros ->. Qed.

Lemma RegexMatcher_new_fail E needle status :
  regex_compile E needle = inl status -> RegexMatcher_new E needle = inl status.
Proof. unfold RegexMatcher_new. now intros ->. Qed.

Lemma reset_at_ok E (prog : regex_prog E) pattern input pos :
  0 <= pos <= ulength input ->
  reset_at (reset (fresh_matcher prog pattern [] 0) input) pos
  = inr (fresh_matcher prog pattern input (Z.to_nat pos)).
Proof.
  intros H. unfold reset_at, reset, fresh_matcher. cbn [fInput fPattern fPatternString].
  decide_test ((pos <? 0) || (pos >? ulength input)).
  reflexivity.
Qed.

Lemma find_past_end_3 E hay needle init :
  INT_MIN <= init <= INT_MAX ->
  countChar32 (fromUTF8 (c_str hay)) < init ->
  call (lua_utf8_find E) [LString hay; LString needle; LNumber init] = Ok [].
Proof.
  intros Hi Hlt. unfold call, lua_utf8_find.
  set (L := [LString hay; LString needle; LNumber init]).
  bind_step 3 L. bind_step (init, false) L. cbn [fst snd].
  bind_step (fromUTF8 (c_str hay)) L. bind_step (fromUTF8 (c_str needle)) L.
  decide_test (init >? countChar32 (fromUTF8 (c_str hay))).
  reflexivity.
Qed.

Lemma find_past_end_4 E hay needle init plain :
  INT_MIN <= init <= INT_MAX ->
  countChar32 (fromUTF8 (c_str hay)) < init ->
  call (lua_utf8_find E) [LString hay; LString needle; LNumber init; LBoolean plain]
  = Ok [].
Proof.
  intros Hi Hlt. unfold call, lua_utf8_find.
  set (L := [LString hay; LString needle; LNumber init; LBoolean plain]).
  bind_step 4 L. bind_step (init, plain) L. cbn [fst snd].
  bind_step (fromUTF8 (c_str hay)) L. bind_step (fromUTF8 (c_str needle)) L.
  decide_test (init >? countChar32 (fromUTF8 (c_str hay))).
  reflexivity.
Qed.

Lemma match_empty_haystack E hay needle init :
  LONG_MIN <= init <= LONG_MAX ->
  countChar32 (fromUTF8 (c_str hay)) = 0 ->
  call (lua_utf8_match E) [LString hay; LString needle; LNumber init] = Ok [LNil].
Proof.
  intros Hi Hl. unfold call, lua_utf8_match.
  set (L := [LString hay; LString needle; LNumber init]).
  bind_step 3 L. bind_step init L.
  bind_step (fromUTF8 (c_str hay)) L. bind_step (fromUTF8 (c_str needle)) L.
  rewrite Hl. reflexivity.
Qed.

(** ** What a search hands to Lua *)

Section Captures.

Variable E : RegexEngine.

Lemma group_found (m : RegexMatcher E) i :
  fMatch m = true -> (i <= groupCount m)%nat ->
  group m i = inr (result_group (groupCount m) (fInput m) (result_of m) i).
Proof.
  intros Hm Hi. unfold group, result_group. rewrite Hm. cbn [negb].
  replace (groupCount m <? i)%nat with false
    by (symmetry; apply Nat.ltb_ge; exact Hi).
  now destruct i.
Qed.

Lemma push_groups_from (m : RegexMatcher E) k : forall a (L : lua_State),
  fMatch m = true -> (a + k <= groupCount m)%nat ->
  for_loop k (Z.of_nat (S a))
    (fun i (_ : unit) =>
       match group m (Z.to_nat i) with
       | inl status => my_lua_error (u_errorName status)
       | inr t => pushustring t
       end) tt L
  = Ok (tt, L ++ map (fun i => LString (c_str (to_utf8
                        (result_group (groupCount m) (fInput m) (result_of m) i))))
                   (seq (S a) k)).
Proof.
  induction k as [|k IH]; intros a L Hm Hk.
  - cbn. unfold ret. now rewrite app_nil_r.
  - cbn [for_loop seq map].
    erewrite bind_ok; cycle 1.
    { rewrite Nat2Z.id, group_found by (assumption || lia). reflexivity. }
    replace (Z.of_nat (S a) + 1) with (Z.of_nat (S (S a))) by lia.
    rewrite IH by (assumption || lia). now rewrite <- app_assoc.
Qed.

Lemma push_groups_run (m : RegexMatcher E) (L : lua_State) :
  fMatch m = true ->
  push_groups E m (groupCount m) L
  = Ok (tt, L ++ group_values (groupCount m) (fInput m) (result_of m)).
Proof.
  intros Hm. unfold push_groups, group_values.
  apply (push_groups_from m (groupCount m) 0 L Hm). lia.
Qed.

Lemma length_captures ng input r :
  length (captures ng input r) = if (ng =? 0)%nat then 1%nat else ng.
Proof.
  unfold captures, group_values. destruct (ng =? 0)%nat; [reflexivity|].
  now rewrite length_map, length_seq.
Qed.

Lemma find_found (m : RegexMatcher E) :
  fst (find m) = true -> fMatch (snd (find m)) = true.
Proof.
  unfold find, search, no_match.
  repeat match goal with
  | |- context [match ?x with _ => _ end] => destruct x
  end; cbn; congruence.
Qed.

(** One call of [aux_match]: it never fails; it pushes the captures of the
    match [find] comes to, or [nil] when [find] comes to none, and returns
    their number. *)
Lemma aux_match_run (m : RegexMatcher E) (L : lua_State) :
  aux_match E m L
  = Ok ((Z.of_nat (length (found_values E m)), snd (find m)), L ++ found_values E m).
Proof.
  pose proof (find_found m) as Hm.
  unfold aux_match, found_values. destruct (find m) as [found m1]. cbn [fst snd] in *.
  destruct found; [|reflexivity]. specialize (Hm eq_refl).
  rewrite length_captures. unfold captures.
  destruct (groupCount m1 =? 0)%nat eqn:E0.
  - rewrite group_found by (assumption || lia). reflexivity.
  - erewrite bind_ok by (apply push_groups_run; assumption). reflexivity.
Qed.

Lemma aux_match_call (m : RegexMatcher E) (L : lua_State) :
  call (r <- aux_match E m ;; ret (fst r)) L = Ok (found_values E m).
Proof.
  unfold call. erewrite bind_ok by apply aux_match_run.
  unfold ret. cbn [fst]. rewrite Nat2Z.id. f_equal. apply lastn_app.
Qed.

End Captures.

(** ** match: an init index past the end *)

(** [match], once its arguments are read: an empty haystack gives [nil]
    before anything else; otherwise the init index is cut to the code point
    count, a negative one counts from the end, and the search starts at the
    offset [init - 1]. *)
Lemma match_run E hay needle init :
  LONG_MIN <= init <= LONG_MAX ->
  call (lua_utf8_match E) [LString hay; LString needle; LNumber init]
  = let h := fromUTF8 (c_str hay) in
    let p := fromUTF8 (c_str needle) in
    let n := countChar32 h in
    if n =? 0 then Ok [LNil]
    else
      let i := if init >? n then n else init in
      let i := if i <? 0 then wrap_long (i + (n + 1)) else i in
      let i := if i <? 1 then 1 else i in
      match RegexMatcher_new E p with
      | inl status => Raise (LuaError (to_utf8 (syntax_error p status)))
      | inr m =>
        match reset_at (reset m h) (wrap_long (i - 1)) with
        | inl status => Raise (LuaError (u_errorName status))
        | inr m' => Ok (found_values E m')
        end
      end.
Proof.
  intros Hi. cbv zeta. unfold call at 1. unfold lua_utf8_match.
  set (L := [LString hay; LString needle; LNumber init]).
  bind_step 3 L. bind_step init L.
  bind_step (fromUTF8 (c_str hay)) L. bind_step (fromUTF8 (c_str needle)) L.
  destruct (countChar32 (fromUTF8 (c_str hay)) =? 0); [reflexivity|].
  destruct (RegexMatcher_new E (fromUTF8 (c_str needle))) as [status|m]; [reflexivity|].
  destruct (reset_at _ _) as [status|m']; [reflexivity|].
  apply (aux_match_call E m' L).
Qed.

(** C2 (amended): with an init index greater than the code point count [L]
    of the haystack, [find] returns at once with no result, whatever the
    pattern and whether it compiles or not; [match] does not fail: it cuts
    the index down to [L], so that the call returns what it returns for the
    init index [L], and on an empty haystack that is [nil], whatever the
    pattern. *)
Theorem init_past_end (E : RegexEngine) (hay needle : bytes) (init : Z)
    (plain : bool) :
  let h := fromUTF8 (c_str hay) in
  countChar32 h < init ->
  LONG_MIN <= init <= LONG_MAX ->
  countChar32 h <= INT_MAX ->
  (init <= INT_MAX ->
   call (lua_utf8_find E) [LString hay; LString needle; LNumber init] = Ok []
   /\ call (lua_utf8_find E) [LString hay; LString needle; LNumber init; LBoolean plain]
      = Ok [])
  /\ call (lua_utf8_match E) [LString hay; LString needle; LNumber init]
     = call (lua_utf8_match E) [LString hay; LString needle; LNumber (countChar32 h)]
  /\ (countChar32 h = 0 ->
      call (lua_utf8_match E) [LString hay; LString needle; LNumber init] = Ok [LNil]).
Proof.
  intros h Hlt Hi Hmax.
  pose proof (countChar32_bounds h) as [Hl0 _].
  split; [|split].
  - intros Hint. split.
    + apply find_past_end_3; [long_consts; lia | assumption].
    + apply find_past_end_4; [long_consts; lia | assumption].
  - rewrite !match_run by (assumption || (long_consts; lia)). cbv zeta. fold h.
    destruct (countChar32 h =? 0); [reflexivity|].
    decide_test (init >? countChar32 h). decide_test (countChar32 h >? countChar32 h).
    reflexivity.
  - intros Hz. now apply match_empty_haystack.
Qed.

Lemma init_past_end_witness :
  (call (lua_utf8_find mini_engine)
     [LString (lit "abc"); LString (lit "("); LNumber 10] = Ok []
   /\ call (lua_utf8_find mini_engine)
        [LString (lit "abc"); LString (lit "("); LNumber 10; LBoolean false] = Ok [])
  /\ call (lua_utf8_match mini_engine) [LString (lit "abc"); LString (lit "c"); LNumber 10]
     = call (lua_utf8_match mini_engine) [LString (lit "abc"); LString (lit "c"); LNumber 3].
Proof.
  destruct (init_past_end mini_engine (lit "abc") (lit "(") 10 false) as (A & _ & _);
    [vm_compute; reflexivity | vm_compute; intuition discriminate
    | vm_compute; discriminate |].
  destruct (init_past_end mini_engine (lit "abc") (lit "c") 10 false) as (_ & C & _);
    [vm_compute; reflexivity | vm_compute; intuition discriminate
    | vm_compute; discriminate |].
  split; [apply A; vm_compute; discriminate | exact C].
Defined.

(** C2 as stated fails for [match]: with init 10 on a haystack of three code
    points the search is not abandoned, it finds the last character. *)
Lemma match_init_counterexample :
  call (lua_utf8_match mini_engine)
    [LString (lit "abc"); LString (lit "c"); LNumber 10]
  = Ok [LString (lit "c")].
Proof. vm_compute. reflexivity. Qed.

(** ** Patterns that do not compile *)

Lemma toUTF8_ascii_app a r : ascii_units a = true -> toUTF8 (a ++ r) = a ++ toUTF8 r.
Proof.
  induction a as [|c a IH]; [reflexivity|].
  cbn [ascii_units forallb]. intros H. apply andb_true_iff in H as [Hc Ha].
  bool_to_Z. cbn [app]. unfold toUTF8; fold toUTF8.
  unfold is_lead, is_trail, utf8_of_cp.
  decide_test ((0xD800 <=? c) && (c <=? 0xDBFF)).
  decide_test ((0xDC00 <=? c) && (c <=? 0xDFFF)).
  decide_test (c <? 0x80). cbn [app]. f_equal. now apply IH.
Qed.

Lemma toUTF8_utf16_app cps r :
  Forall scalar cps -> toUTF8 (utf16 cps ++ r) = utf8 cps ++ toUTF8 r.
Proof.
  induction 1 as [|c cps Hc _ IH]; [reflexivity|].
  unfold utf8, utf16 in *. cbn [flat_map].
  rewrite <- !app_assoc, toUTF8_utf16_of_cp by assumption. now rewrite IH.
Qed.

Lemma u_errorName_ascii status : ascii_units (u_errorName status) = true.
Proof. destruct status; vm_compute; reflexivity. Qed.

Lemma syntax_error_text cps status :
  Forall text_char cps ->
  to_utf8 (syntax_error (fromUTF8 (c_str (utf8 cps))) status)
  = syntax_error_message (utf8 cps) status.
Proof.
  intros H. rewrite checked_text by assumption.
  unfold to_utf8, syntax_error, syntax_error_message.
  rewrite toUTF8_ascii_app by (vm_compute; reflexivity).
  rewrite (toUTF8_ascii_app [QUOTE]) by (vm_compute; reflexivity).
  rewrite toUTF8_utf16_app by now apply text_chars_scalar.
  rewrite (toUTF8_ascii_app [QUOTE]) by (vm_compute; reflexivity).
  rewrite toUTF8_ascii_app by (vm_compute; reflexivity).
  rewrite <- (app_nil_r (u_errorName status)) at 1.
  rewrite toUTF8_ascii_app by apply u_errorName_ascii.
  now rewrite app_nil_r.
Qed.

Section SyntaxErrors.

Variable E : RegexEngine.
Variables hay needle : bytes.
Variable status : UErrorCode.
Hypothesis compile_fails : regex_compile E (fromUTF8 (c_str needle)) = inl status.

Let raised : failure :=
  LuaError (to_utf8 (syntax_error (fromUTF8 (c_str needle)) status)).

Lemma gmatch_syntax_error :
  lua_utf8_gmatch E [LString hay; LString needle] = Raise raised.
Proof.
  unfold lua_utf8_gmatch. set (L := [LString hay; LString needle]).
  bind_step tt L. bind_step (fromUTF8 (c_str hay)) L.
  bind_step (fromUTF8 (c_str needle)) L.
  unfold RegexWrapper_new. rewrite (RegexMatcher_new_fail _ _ _ compile_fails).
  reflexivity.
Qed.

Lemma gsub_syntax_error_3 host_call repl :
  is_repl repl ->
  call (lua_utf8_gsub E host_call) [LString hay; LString needle; repl] = Raise raised.
Proof.
  intros Hr. unfold call, lua_utf8_gsub.
  set (L := [LString hay; LString needle; repl]).
  bind_step 3 L. bind_step (-1) L.
  bind_step (fromUTF8 (c_str hay)) L. bind_step (fromUTF8 (c_str needle)) L.
  destruct repl; try contradiction.
  - bind_step false L. bind_step false L.
    bind_step (2, fromUTF8 (c_str s)) L. cbn [fst snd].
    rewrite (RegexMatcher_new_fail _ _ _ compile_fails). reflexivity.
  - bind_step false L. bind_step true L.
    bind_step (1, @nil Z) L. cbn [fst snd].
    rewrite (RegexMatcher_new_fail _ _ _ compile_fails). reflexivity.
  - bind_step true L. bind_step false L.
    bind_step (0, @nil Z) L. cbn [fst snd].
    rewrite (RegexMatcher_new_fail _ _ _ compile_fails). reflexivity.
Qed.

Lemma gsub_syntax_error_4 host_call repl n :
  is_repl repl -> INT_MIN <= n <= INT_MAX ->
  call (lua_utf8_gsub E host_call) [LString hay; LString needle; repl; LNumber n]
  = Raise raised.
Proof.
  intros Hr Hn. unfold call, lua_utf8_gsub.
  set (L := [LString hay; LString needle; repl; LNumber n]).
  bind_step 4 L. bind_step n L.
  bind_step (fromUTF8 (c_str hay)) L. bind_step (fromUTF8 (c_str needle)) L.
  destruct repl; try contradiction.
  - bind_step false L. bind_step false L.
    bind_step (2, fromUTF8 (c_str s)) L. cbn [fst snd].
    rewrite (RegexMatcher_new_fail _ _ _ compile_fails). reflexivity.
  - bind_step false L. bind_step true L.
    bind_step (1, @nil Z) L. cbn [fst snd].
    rewrite (RegexMatcher_new_fail _ _ _ compile_fails). reflexivity.
  - bind_step true L. bind_step false L.
    bind_step (0, @nil Z) L. cbn [fst snd].
    rewrite (RegexMatcher_new_fail _ _ _ compile_fails). reflexivity.
Qed.

Lemma find_syntax_error_3 init :
  INT_MIN <= init <= INT_MAX ->
  init <= countChar32 (fromUTF8 (c_str hay)) ->
  call (lua_utf8_find E) [LString hay; LString needle; LNumber init] = Raise raised.
Proof.
  intros Hi Hle. unfold call, lua_utf8_find.
  set (L := [LString hay; LString needle; LNumber init]).
  bind_step 3 L. bind_step (init, false) L. cbn [fst snd].
  bind_step (fromUTF8 (c_str hay)) L. bind_step (fromUTF8 (c_str needle)) L.
  decide_test (init >? countChar32 (fromUTF8 (c_str hay))).
  rewrite (RegexMatcher_new_fail _ _ _ compile_fails). reflexivity.
Qed.

Lemma find_syntax_error_2 :
  1 <= countChar32 (fromUTF8 (c_str hay)) ->
  call (lua_utf8_find E) [LString hay; LString needle] = Raise raised.
Proof.
  intros Hle. unfold call, lua_utf8_find.
  set (L := [LString hay; LString needle]).
  bind_step 2 L. bind_step (1, false) L. cbn [fst snd].
  bind_step (fromUTF8 (c_str hay)) L. bind_step (fromUTF8 (c_str needle)) L.
  decide_test (1 >? countChar32 (fromUTF8 (c_str hay))).
  rewrite (RegexMatcher_new_fail _ _ _ compile_fails). reflexivity.
Qed.

Lemma match_syntax_error_3 init :
  LONG_MIN <= init <= LONG_MAX ->
  countChar32 (fromUTF8 (c_str hay)) <> 0 ->
  call (lua_utf8_match E) [LString hay; LString needle; LNumber init] = Raise raised.
Proof.
  intros Hi Hnz. unfold call, lua_utf8_match.
  set (L := [LString hay; LString needle; LNumber init]).
  bind_step 3 L. bind_step init L.
  bind_step (fromUTF8 (c_str hay)) L. bind_step (fromUTF8 (c_str needle)) L.
  decide_test (countChar32 (fromUTF8 (c_str hay)) =? 0).
  rewrite (RegexMatcher_new_fail _ _ _ compile_fails). reflexivity.
Qed.

Lemma match_syntax_error_2 :
  countChar32 (fromUTF8 (c_str hay)) <> 0 ->
  call (lua_utf8_match E) [LString hay; LString needle] = Raise raised.
Proof.
  intros Hnz. unfold call, lua_utf8_match.
  set (L := [LString hay; LString needle]).
  bind_step 2 L. bind_step 1 L.
  bind_step (fromUTF8 (c_str hay)) L. bind_step (fromUTF8 (c_str needle)) L.
  decide_test (countChar32 (fromUTF8 (c_str hay)) =? 0).
  rewrite (RegexMatcher_new_fail _ _ _ compile_fails). reflexivity.
Qed.

End SyntaxErrors.

Lemma find_syntax_error_4 E hay needle status init :
  regex_compile E (fromUTF8 (c_str needle)) = inl status ->
  INT_MIN <= init <= INT_MAX ->
  init <= countChar32 (fromUTF8 (c_str hay)) ->
  call (lua_utf8_find E) [LString hay; LString needle; LNumber init; LBoolean false]
  = Raise (LuaError (to_utf8 (syntax_error (fromUTF8 (c_str needle)) status))).
Proof.
  intros Hc Hi Hle. unfold call, lua_utf8_find.
  set (L := [LString hay; LString needle; LNumber init; LBoolean false]).
  bind_step 4 L. bind_step (init, false) L. cbn [fst snd].
  bind_step (fromUTF8 (c_str hay)) L. bind_step (fromUTF8 (c_str needle)) L.
  decide_test (init >? countChar32 (fromUTF8 (c_str hay))).
  rewrite (RegexMatcher_new_fail _ _ _ Hc). reflexivity.
Qed.

(** C9 (amended): for a pattern that does not compile, given as well-formed
    text, [gmatch] and [gsub] always raise an error whose message holds the
    pattern text between quotes, followed by the name of ICU's error code;
    [find] without [plain] raises it when the init index is at most the code
    point count [L] of the haystack, and [match] when the haystack is not
    empty.  (With a larger init [find] returns no value, and on an empty
    haystack [match] returns [nil], before the pattern is compiled.) *)
Theorem compile_error_raised (E : RegexEngine)
    (host_call : nat -> list lua_value -> result lua_value)
    (hay : bytes) (cps : list Z) (status : UErrorCode) (init n : Z)
    (repl : lua_value) :
  let needle := utf8 cps in
  let L := countChar32 (fromUTF8 (c_str hay)) in
  let msg := syntax_error_message needle status in
  Forall text_char cps ->
  regex_compile E (utf16 cps) = inl status ->
  INT_MIN <= init <= INT_MAX -> INT_MIN <= n <= INT_MAX -> is_repl repl ->
  lua_utf8_gmatch E [LString hay; LString needle] = Raise (LuaError msg)
  /\ call (lua_utf8_gsub E host_call) [LString hay; LString needle; repl]
     = Raise (LuaError msg)
  /\ call (lua_utf8_gsub E host_call) [LString hay; LString needle; repl; LNumber n]
     = Raise (LuaError msg)
  /\ (init <= L ->
      call (lua_utf8_find E) [LString hay; LString needle; LNumber init]
        = Raise (LuaError msg)
      /\ call (lua_utf8_find E)
           [LString hay; LString needle; LNumber init; LBoolean false]
        = Raise (LuaError msg))
  /\ (1 <= L ->
      call (lua_utf8_find E) [LString hay; LString needle] = Raise (LuaError msg))
  /\ (L <> 0 ->
      call (lua_utf8_match E) [LString hay; LString needle] = Raise (LuaError msg)
      /\ call (lua_utf8_match E) [LString hay; LString needle; LNumber init]
         = Raise (LuaError msg)).
Proof.
  intros needle L msg Ht Hc Hi Hn Hr.
  assert (Hc' : regex_compile E (fromUTF8 (c_str needle)) = inl status)
    by (unfold needle; now rewrite checked_text).
  assert (Hm : to_utf8 (syntax_error (fromUTF8 (c_str needle)) status) = msg)
    by (now apply syntax_error_text).
  rewrite <- Hm. repeat split.
  - now apply gmatch_syntax_error.
  - now apply gsub_syntax_error_3.
  - now apply gsub_syntax_error_4.
  - now apply find_syntax_error_3.
  - now apply find_syntax_error_4.
  - now apply find_syntax_error_2.
  - now apply match_syntax_error_2.
  - apply match_syntax_error_3; [assumption | long_consts; lia | assumption].
Qed.

Lemma text_char_dec_true c :
  (0 <? c) && (c <=? 0x10FFFF) && negb (is_surrogate c) = true -> text_char c.
Proof.
  intros H. apply andb_true_iff in H as [H S]. apply andb_true_iff in H as [A B].
  apply negb_true_iff in S. bool_to_Z. repeat split; try lia. exact S.
Qed.

Lemma compile_error_raised_witness :
  let msg := syntax_error_message (lit "a(b") U_REGEX_MISMATCHED_PAREN in
  lua_utf8_gmatch mini_engine [LString (lit "xyz"); LString (lit "a(b")]
    = Raise (LuaError msg)
  /\ call (lua_utf8_gsub mini_engine no_host)
       [LString (lit "xyz"); LString (lit "a(b"); LString (lit "-")]
     = Raise (LuaError msg)
  /\ call (lua_utf8_find mini_engine)
       [LString (lit "xyz"); LString (lit "a(b"); LNumber 3]
     = Raise (LuaError msg)
  /\ call (lua_utf8_match mini_engine) [LString (lit "xyz"); LString (lit "a(b")]
     = Raise (LuaError msg).
Proof.
  destruct (compile_error_raised mini_engine no_host (lit "xyz") [97; 40; 98]
              U_REGEX_MISMATCHED_PAREN 3 0 (LString (lit "-")))
    as (A & B & _ & C & _ & D).
  - repeat constructor; apply text_char_dec_true; reflexivity.
  - vm_compute; reflexivity.
  - vm_compute; intuition discriminate.
  - vm_compute; intuition discriminate.
  - exact I.
  - cbv zeta. split; [exact A | split; [exact B | split]].
    + refine (proj1 (C _)). vm_compute. discriminate.
    + refine (proj1 (D _)). vm_compute. discriminate.
Defined.

(** C9 as stated fails for [find] and [match]: the unbalanced pattern is
    never compiled when [find] gets an init index past the end of the
    haystack (the default index 1 on an empty haystack is one), nor when
    [match] gets an empty haystack. *)
Lemma compile_error_counterexample :
  regex_compile mini_engine (fromUTF8 (c_str (lit "(")))
    = inl U_REGEX_MISMATCHED_PAREN
  /\ call (lua_utf8_find mini_engine) [LString []; LString (lit "(")] = Ok []
  /\ call (lua_utf8_find mini_engine)
       [LString (lit "abc"); LString (lit "("); LNumber 4] = Ok []
  /\ call (lua_utf8_match mini_engine) [LString []; LString (lit "(")] = Ok [LNil].
Proof. repeat split; vm_compute; reflexivity. Qed.

(** ** The persistent matcher of gmatch *)

Lemma bind_inv {A B} (c : Lua A) (k : A -> Lua B) L x :
  bind c k L = Ok x -> exists a L1, c L = Ok (a, L1) /\ k a L1 = Ok x.
Proof.
  unfold bind. destruct (c L) as [[a L1]|f]; [|discriminate].
  intros H. now exists a, L1.
Qed.

Lemma bytes_eqb_eq a : forall b, bytes_eqb a b = true <-> a = b.
Proof.
  induction a as [|x a IH]; intros [|y b]; cbn [bytes_eqb]; try easy.
  rewrite andb_true_iff, Z.eqb_eq, IH. split.
  - now intros [-> ->].
  - intros H. now inversion H.
Qed.

Lemma bytes_eqb_neq a b : a <> b -> bytes_eqb a b = false.
Proof.
  intros H. destruct (bytes_eqb a b) eqn:E0; [|reflexivity].
  now apply bytes_eqb_eq in E0.
Qed.

Section Persistent.

Variable E : RegexEngine.

Lemma find_keeps (m : RegexMatcher E) :
  fPatternString (snd (find m)) = fPatternString m
  /\ fInput (snd (find m)) = fInput m
  /\ fPattern (snd (find m)) = fPattern m
  /\ fAppendPosition (snd (find m)) = fAppendPosition m.
Proof.
  unfold find, search, no_match.
  repeat match goal with
  | |- context [match ?x with _ => _ end] => destruct x
  end; cbn; auto.
Qed.

Lemma aux_match_matcher (m m' : RegexMatcher E) L n L' :
  aux_match E m L = Ok ((n, m'), L') -> m' = snd (find m).
Proof.
  unfold aux_match. destruct (find m) as [found m1]. cbn [snd].
  destruct found.
  - destruct (groupCount m1 =? 0)%nat.
    + destruct (group m1 0); [discriminate|].
      intros H. apply bind_inv in H as (a & L1 & _ & H). now inversion H.
    + intros H. apply bind_inv in H as (a & L1 & _ & H). now inversion H.
  - intros H. apply bind_inv in H as (a & L1 & _ & H). now inversion H.
Qed.

Lemma advanced_keeps w w' :
  advanced E w w' ->
  fPatternString (matcher E w') = fPatternString (matcher E w)
  /\ fInput (matcher E w') = fInput (matcher E w).
Proof.
  induction 1 as [w | w w' w'' L n L' _ [IHp IHi] Hstep]; [easy|].
  unfold lua_utf8_gmatch_iter in Hstep.
  apply bind_inv in Hstep as ([k m] & L1 & Haux & Hret).
  apply aux_match_matcher in Haux. inversion Hret; subst. cbn [matcher snd].
  destruct (find_keeps (matcher E w')) as (Hp & Hi & _).
  now rewrite Hp, Hi.
Qed.

Lemma gmatch_wrapper hay needle n w L :
  lua_utf8_gmatch E [LString hay; LString needle] = Ok ((n, w), L) ->
  fPatternString (matcher E w) = fromUTF8 (c_str needle)
  /\ fInput (matcher E w) = fromUTF8 (c_str hay).
Proof.
  unfold lua_utf8_gmatch. set (L0 := [LString hay; LString needle]).
  bind_step tt L0. bind_step (fromUTF8 (c_str hay)) L0.
  bind_step (fromUTF8 (c_str needle)) L0.
  unfold RegexWrapper_new, RegexMatcher_new.
  destruct (regex_compile E (fromUTF8 (c_str needle))); [discriminate|].
  intros H. apply bind_inv in H as (a & L1 & _ & H). inversion H; subst.
  now cbn.
Qed.

Lemma index_pattern w id :
  call (regex_matcher_index E w) [LUserdata id; LString (lit "pattern")]
  = Ok [LString (c_str (to_utf8 (fPatternString (matcher E w))))].
Proof.
  unfold call, regex_matcher_index.
  set (L := [LUserdata id; LString (lit "pattern")]).
  bind_step tt L. bind_step (lit "pattern") L.
  replace (bytes_eqb (lit "pattern") (lit "input")) with false by reflexivity.
  replace (bytes_eqb (lit "pattern") (lit "pattern")) with true by reflexivity.
  reflexivity.
Qed.

Lemma index_input w id :
  call (regex_matcher_index E w) [LUserdata id; LString (lit "input")]
  = Ok [LString (c_str (to_utf8 (fInput (matcher E w))))].
Proof.
  unfold call, regex_matcher_index.
  set (L := [LUserdata id; LString (lit "input")]).
  bind_step tt L. bind_step (lit "input") L.
  replace (bytes_eqb (lit "input") (lit "input")) with true by reflexivity.
  reflexivity.
Qed.

Lemma index_other w id key :
  key <> lit "input" -> key <> lit "pattern" ->
  call (regex_matcher_index E w) [LUserdata id; LString key]
  = Raise (LuaError (lit "Not a readable RegexMatcher member: " ++ key)).
Proof.
  intros H1 H2. unfold call, regex_matcher_index.
  set (L := [LUserdata id; LString key]).
  bind_step tt L. bind_step key L.
  rewrite (bytes_eqb_neq _ _ H1), (bytes_eqb_neq _ _ H2). reflexivity.
Qed.

End Persistent.

(** C8: a matcher made by [gmatch] from a pattern given as well-formed text
    has two readable attributes: ["pattern"] is the pattern text as it was
    given, and ["input"] is the subject text, after any number of calls of
    the iterator; reading any other attribute is an error whose message ends
    with the name asked for. *)
Theorem matcher_attributes (E : RegexEngine) (hay : bytes) (cps : list Z)
    (n0 : Z) (w0 w : RegexWrapper E) (L0 : lua_State) (id : nat) (key : bytes) :
  Forall text_char cps ->
  lua_utf8_gmatch E [LString hay; LString (utf8 cps)] = Ok ((n0, w0), L0) ->
  advanced E w0 w ->
  call (regex_matcher_index E w) [LUserdata id; LString (lit "pattern")]
    = Ok [LString (utf8 cps)]
  /\ call (regex_matcher_index E w) [LUserdata id; LString (lit "input")]
     = Ok [LString (c_str (to_utf8 (fromUTF8 (c_str hay))))]
  /\ (key <> lit "input" -> key <> lit "pattern" ->
      call (regex_matcher_index E w) [LUserdata id; LString key]
      = Raise (LuaError (lit "Not a readable RegexMatcher member: " ++ key))).
Proof.
  intros Ht Hg Ha.
  destruct (gmatch_wrapper E _ _ _ _ _ Hg) as [Hp Hi].
  destruct (advanced_keeps E _ _ Ha) as [Hp' Hi'].
  split; [|split].
  - rewrite index_pattern, Hp', Hp, checked_text by assumption.
    now rewrite pushed_text.
  - now rewrite index_input, Hi', Hi.
  - apply index_other.
Qed.

Example gmatch_demo_steps :
  lua_utf8_gmatch_iter mini_engine demo_w0 [] = Ok ((1, demo_w1), [LString (lit "a")])
  /\ lua_utf8_gmatch_iter mini_engine demo_w1 [] = Ok ((1, demo_w2), [LString (lit "b")])
  /\ fMatchEnd (matcher mini_engine demo_w2) = 3%nat.
Proof. split; [reflexivity | split; reflexivity]. Qed.

Lemma matcher_attributes_witness :
  call (regex_matcher_index mini_engine demo_w2) [LUserdata 0; LString (lit "pattern")]
    = Ok [LString (lit "[^,]+")]
  /\ call (regex_matcher_index mini_engine demo_w2) [LUserdata 0; LString (lit "input")]
     = Ok [LString (lit "a,b,c")]
  /\ call (regex_matcher_index mini_engine demo_w2) [LUserdata 0; LString (lit "cursor")]
     = Raise (LuaError (lit "Not a readable RegexMatcher member: cursor")).
Proof.
  destruct (matcher_attributes mini_engine (lit "a,b,c") [91; 94; 44; 93; 43] 1
              demo_w0 demo_w2 [LString (lit "a,b,c"); LString (lit "[^,]+"); LFunction 0]
              0 (lit "cursor")) as (A & B & C).
  - repeat constructor; apply text_char_dec_true; reflexivity.
  - reflexivity.
  - apply (advanced_S mini_engine demo_w0 demo_w1 demo_w2 [] 1 [LString (lit "b")]).
    + apply (advanced_S mini_engine demo_w0 demo_w0 demo_w1 [] 1 [LString (lit "a")]).
      * apply advanced_0.
      * reflexivity.
    + reflexivity.
  - split; [exact A | split; [exact B |]].
    apply C; vm_compute; discriminate.
Defined.

(** ** gsub: the matches it visits *)

Section Matches.

Variable E : RegexEngine.

Lemma find_none (m : RegexMatcher E) :
  next_pos m = None -> fst (find m) = false.
Proof.
  unfold next_pos, resume, find, result_of. cbn [m_start m_end].
  destruct (fMatch m).
  - destruct (fMatchStart m =? fMatchEnd m)%nat; [|discriminate].
    destruct (length (fInput m) <=? fMatchEnd m)%nat; [reflexivity | discriminate].
  - destruct (fLastMatchEnd m); [reflexivity | discriminate].
Qed.

Lemma find_some (m : RegexMatcher E) pos :
  next_pos m = Some pos ->
  exists last, find m = search m last pos.
Proof.
  unfold next_pos, resume, find, result_of. cbn [m_start m_end].
  destruct (fMatch m).
  - destruct (fMatchStart m =? fMatchEnd m)%nat.
    + destruct (length (fInput m) <=? fMatchEnd m)%nat; [discriminate|].
      intros H. inversion H. now eexists.
    + intros H. inversion H. now eexists.
  - destruct (fLastMatchEnd m); [discriminate|].
    intros H. inversion H. now eexists.
Qed.

(** One call of [find], read through [pending]. *)
Lemma find_pending (m : RegexMatcher E) fuel :
  match pending (S fuel) m with
  | [] => fst (find m) = false
  | r :: rest =>
    fst (find m) = true
    /\ fMatch (snd (find m)) = true
    /\ result_of (snd (find m)) = r
    /\ pending fuel (snd (find m)) = rest
    /\ exists pos, next_pos m = Some pos
                   /\ regex_exec E (fPattern m) (fInput m) pos = Some r
  end.
Proof.
  unfold pending. destruct (next_pos m) as [pos|] eqn:Hn.
  - destruct (find_some m pos Hn) as [last Hf]. rewrite Hf.
    cbn [matches_from]. unfold search.
    destruct (regex_exec E (fPattern m) (fInput m) pos) as [r|] eqn:Hx.
    + cbn [fst snd fMatch].
      split; [reflexivity|]. split; [reflexivity|]. split; [now destruct r|]. split.
      * unfold next_pos. cbn [fMatch fInput fPattern]. unfold result_of.
        cbn [fMatchStart fMatchEnd fGroups]. now destruct r.
      * now exists pos.
    + reflexivity.
  - now apply find_none.
Qed.

Hypothesis exec_bounds : forall prog input pos r,
  regex_exec E prog input pos = Some r ->
  (pos <= m_start r /\ m_start r <= m_end r /\ m_end r <= length input)%nat.

Lemma width32_pos input pos : (1 <= width32 input pos)%nat.
Proof.
  unfold width32. destruct (skipn pos input) as [|c [|d r]]; try lia.
  destruct (is_lead c && is_trail d); lia.
Qed.

(** Each match found leaves strictly less to come. *)
Lemma find_budget (m : RegexMatcher E) :
  fst (find m) = true -> (budget (snd (find m)) < budget m)%nat.
Proof.
  intros Hf. pose proof (find_pending m 0) as H.
  destruct (pending 1 m) as [|r rest]; [congruence|].
  destruct H as (_ & Hm & Hr & _ & pos & Hn & Hx).
  destruct (find_keeps E m) as (_ & Hi & _).
  apply exec_bounds in Hx as (B1 & B2 & B3).
  unfold budget at 2. rewrite Hn.
  unfold budget, next_pos. rewrite Hm, Hr, Hi. unfold resume.
  pose proof (width32_pos (fInput m) (m_end r)).
  destruct (m_start r =? m_end r)%nat eqn:Ee.
  - apply Nat.eqb_eq in Ee.
    destruct (length (fInput m) <=? m_end r)%nat eqn:El.
    + lia.
    + apply Nat.leb_gt in El. lia.
  - apply Nat.eqb_neq in Ee. lia.
Qed.

End Matches.

(** ** gsub: replacement templates *)

Section Templates.

Variable E : RegexEngine.

Lemma expand_replacement_ext fuel ng (g g' : nat -> UnicodeString) :
  (forall i, g i = g' i) ->
  forall repl dest,
    expand_replacement E fuel ng g repl dest = expand_replacement E fuel ng g' repl dest.
Proof.
  intros Hg. induction fuel as [|fuel IH]; intros repl dest; [reflexivity|].
  cbn [expand_replacement]. destruct repl as [|c r]; [reflexivity|].
  destruct (c =? BACKSLASH).
  - destruct r as [|c2 r2]; [reflexivity|].
    destruct ((c2 =? 85) || (c2 =? 117)); [|apply IH].
    destruct (unescape_u c2 r2) as [[v r3]|]; apply IH.
  - destruct (negb (c =? DOLLARSIGN)); [apply IH|].
    destruct (next32 r) as [[c2 r']|]; [|reflexivity].
    destruct (digit_value E c2); [|reflexivity].
    destruct (scan_group_number E (length r) ng 0 0 r) as [e|[groupNum r'']];
      [reflexivity|].
    rewrite Hg. apply IH.
Qed.

(** The destination only ever grows: the text a template adds does not
    depend on what was appended before. *)
Lemma expand_replacement_dest fuel ng (g : nat -> UnicodeString) :
  forall repl dest,
    expand_replacement E fuel ng g repl dest
    = match expand_replacement E fuel ng g repl [] with
      | inl e => inl e
      | inr t => inr (dest ++ t)
      end.
Proof.
  assert (step : forall fuel',
    (forall repl dest,
        expand_replacement E fuel' ng g repl dest
        = match expand_replacement E fuel' ng g repl [] with
          | inl e => inl e
          | inr t => inr (dest ++ t)
          end) ->
    forall repl dest x,
      expand_replacement E fuel' ng g repl (dest ++ x)
      = match expand_replacement E fuel' ng g repl ([] ++ x) with
        | inl e => inl e
        | inr t => inr (dest ++ t)
        end).
  { intros fuel' IH repl dest x. rewrite (IH repl (dest ++ x)), (IH repl ([] ++ x)).
    destruct (expand_replacement E fuel' ng g repl []); [reflexivity|].
    cbn [app]. now rewrite app_assoc. }
  induction fuel as [|fuel IH]; intros repl dest.
  - cbn. now rewrite app_nil_r.
  - specialize (step fuel IH).
    cbn [expand_replacement]. destruct repl as [|c r]; [now rewrite app_nil_r|].
    destruct (c =? BACKSLASH).
    + destruct r as [|c2 r2]; [now rewrite app_nil_r|].
      destruct ((c2 =? 85) || (c2 =? 117)); [|apply step].
      destruct (unescape_u c2 r2) as [[v r3]|]; [apply step | apply IH].
    + destruct (negb (c =? DOLLARSIGN)); [apply step|].
      destruct (next32 r) as [[c2 r']|]; [|reflexivity].
      destruct (digit_value E c2); [|reflexivity].
      destruct (scan_group_number E (length r) ng 0 0 r) as [e|[groupNum r'']];
        [reflexivity|].
      apply step.
Qed.

Lemma group_text_result (m : RegexMatcher E) i :
  fMatch m = true ->
  group_text m i = result_group (groupCount m) (fInput m) (result_of m) i.
Proof.
  intros Hm. unfold group_text, group, result_group. rewrite Hm. cbn [negb].
  destruct (groupCount m <? i)%nat; [reflexivity|]. now destruct i.
Qed.

Lemma appendReplacement_text (m : RegexMatcher E) dest repl :
  fMatch m = true ->
  appendReplacement m dest repl
  = match template_text (E := E) (groupCount m)
            (result_group (groupCount m) (fInput m) (result_of m)) repl with
    | inl e => inl e
    | inr t =>
      inr (set_append m (fMatchEnd m),
           dest ++ substring (fInput m) (fAppendPosition m) (fMatchStart m) ++ t)
    end.
Proof.
  intros Hm. unfold appendReplacement, template_text. rewrite Hm. cbn [negb].
  rewrite expand_replacement_dest.
  rewrite (expand_replacement_ext _ _ _ _ (fun i => group_text_result m i Hm)).
  destruct (expand_replacement E (S (length repl)) (groupCount m)
              (result_group (groupCount m) (fInput m) (result_of m)) repl []);
    [reflexivity|].
  unfold set_append. rewrite Hm. now rewrite app_assoc.
Qed.

End Templates.

(** ** gsub: the loop *)

Lemma take_quota_nil {A} q : take_quota q (@nil A) = [].
Proof. destruct q as [k|]; [apply firstn_nil | reflexivity]. Qed.

Lemma quota_reached n counter : counter = n -> 0 <= counter -> quota n counter = Some 0%nat.
Proof.
  intros -> H. unfold quota. decide_test (n <? 0). now rewrite Z.sub_diag.
Qed.

Lemma quota_next {A} n counter fuel (x : A) l :
  counter_ok n counter (S fuel) -> counter <> n ->
  take_quota (quota n counter) (x :: l) = x :: take_quota (quota n (counter + 1)) l
  /\ int32_wrap (counter + 1) = counter + 1
  /\ counter_ok n (counter + 1) fuel.
Proof.
  intros (H0 & HA & HB) Hne. unfold quota, counter_ok.
  destruct (n <? 0) eqn:Hn; bool_to_Z.
  - specialize (HB Hn). repeat split; try lia.
    apply int32_wrap_small. long_consts. lia.
  - destruct (HA Hn) as [H1 H2]. repeat split; try lia.
    + cbn [take_quota].
      replace (Z.to_nat (n - counter)) with (S (Z.to_nat (n - (counter + 1)))) by lia.
      reflexivity.
    + apply int32_wrap_small. long_consts. lia.
Qed.

Section GsubLoop.

Variable E : RegexEngine.
Variable host_call : nat -> list lua_value -> result lua_value.
Hypothesis exec_bounds : forall prog input pos r,
  regex_exec E prog input pos = Some r ->
  (pos <= m_start r /\ m_start r <= m_end r /\ m_end r <= length input)%nat.
Variable n : Z.

(** The loop in template mode: it replaces the pending matches the limit
    allows, in order, and nothing else. *)
Lemma gsub_loop_template fuel : forall v L,
  (budget (g_matcher E v) < fuel)%nat ->
  counter_ok n (g_counter E v) fuel ->
  gsub_output (gsub_loop E host_call fuel 2 n v L)
  = match replace_matches
            (gsub_text E (groupCount (g_matcher E v)) (fInput (g_matcher E v))
               (g_repl E v))
            (fInput (g_matcher E v))
            (take_quota (quota n (g_counter E v)) (pending fuel (g_matcher E v)))
            (fAppendPosition (g_matcher E v)) with
    | inr out => Ok (g_r E v ++ out, L)
    | inl e => Raise (LuaError (u_errorName e))
    end.
Proof.
  induction fuel as [|fuel IH]; intros v L Hb Hc; [lia|].
  cbn [gsub_loop].
  pose proof (find_pending E (g_matcher E v) fuel) as Hp.
  pose proof (find_budget E exec_bounds (g_matcher E v)) as Hbud.
  destruct (find_keeps E (g_matcher E v)) as (_ & Hin & Hpat & Happ).
  destruct (find (g_matcher E v)) as [found m1] eqn:Hf. cbn [fst snd] in *.
  destruct (pending (S fuel) (g_matcher E v)) as [|r rest].
  - subst found. cbn [negb]. rewrite take_quota_nil. cbn [replace_matches].
    unfold ret, gsub_output, appendTail. cbn [g_matcher g_r].
    now rewrite Happ, Hin.
  - destruct Hp as (-> & Hm & Hr & Hrest & _). cbn [negb].
    destruct (g_counter E v =? n) eqn:Hcn; bool_to_Z.
    + rewrite (quota_reached _ _ Hcn) by apply Hc. cbn [take_quota firstn replace_matches].
      unfold ret, gsub_output, appendTail. cbn [g_matcher g_r].
      now rewrite Happ, Hin.
    + destruct (quota_next n _ fuel r rest Hc Hcn) as (Hq & Hw & Hc').
      rewrite Hq, Hw. clear Hq Hw. cbn [replace_matches].
      unfold gsub_replacement. cbn [Z.eqb].
      erewrite bind_ok by reflexivity.
      rewrite appendReplacement_text by assumption.
      assert (Hg : groupCount m1 = groupCount (g_matcher E v))
        by (unfold groupCount; now rewrite Hpat).
      unfold gsub_text at 1. rewrite Hg, Hin, Hr.
      destruct (template_text (groupCount (g_matcher E v))
                  (result_group (groupCount (g_matcher E v))
                     (fInput (g_matcher E v)) r) (g_repl E v)) as [e|t];
        [reflexivity|].
      rewrite IH.
      * cbn [g_matcher g_repl g_r g_counter]. 
        change (pending fuel (set_append m1 (fMatchEnd m1))) with (pending fuel m1).
        change (groupCount (set_append m1 (fMatchEnd m1))) with (groupCount m1).
        cbn [set_append fInput fAppendPosition].
        rewrite Hrest, Hg, Hin, Happ. rewrite <- Hr. cbn [result_of m_start m_end].
        destruct (replace_matches _ _ _ _); [reflexivity|].
        now rewrite <- !app_assoc.
      * cbn [g_matcher]. change (budget (set_append m1 (fMatchEnd m1))) with (budget m1).
        specialize (Hbud eq_refl). lia.
      * exact Hc'.
Qed.

End GsubLoop.

Section GsubTemplate.

Variable E : RegexEngine.
Variable host_call : nat -> list lua_value -> result lua_value.
Hypothesis exec_bounds : forall prog input pos r,
  regex_exec E prog input pos = Some r ->
  (pos <= m_start r /\ m_start r <= m_end r /\ m_end r <= length input)%nat.

(** The fuel of [all_matches] is enough: more of it finds nothing more. *)
Lemma matches_from_enough prog input fuel : forall pos,
  (length input + 1 - pos < fuel)%nat ->
  matches_from E (S fuel) prog input pos = matches_from E fuel prog input pos.
Proof.
  induction fuel as [|fuel IH]; intros pos Hlt; [lia|].
  cbn [matches_from].
  destruct (regex_exec E prog input pos) as [r|] eqn:Hx; [|reflexivity].
  f_equal. destruct (resume input r) as [pos'|] eqn:Hr; [|reflexivity].
  apply exec_bounds in Hx as (B1 & B2 & B3).
  change (matches_from E (S fuel) prog input pos' = matches_from E fuel prog input pos').
  apply IH. unfold resume in Hr.
  pose proof (width32_pos input (m_end r)).
  destruct (m_start r =? m_end r)%nat eqn:Ee.
  - destruct (length input <=? m_end r)%nat; [discriminate|]. inversion Hr. lia.
  - apply Nat.eqb_neq in Ee. inversion Hr. lia.
Qed.

Lemma all_matches_stable prog input k :
  matches_from E (length input + 2 + k) prog input 0 = all_matches E prog input.
Proof.
  unfold all_matches. induction k as [|k IH].
  - now rewrite Nat.add_0_r.
  - rewrite Nat.add_succ_r, matches_from_enough by lia. exact IH.
Qed.

(** After the loop: [appendTail], [pushustring], [return 1]. *)
Lemma gsub_finish (c : Lua (gsub_vars E)) L :
  (v <- c ;;
   (pushustring (appendTail (g_matcher E v) (g_r E v)) ;;; ret 1)) L
  = match gsub_output (c L) with
    | Ok (out, L') => Ok (1, L' ++ [LString (c_str (to_utf8 out))])
    | Raise f => Raise f
    end.
Proof.
  unfold bind, gsub_output. destruct (c L) as [[v L']|f]; reflexivity.
Qed.

Lemma gsub_template_run hay needle repl n prog (L : lua_State) :
  regex_compile E (fromUTF8 (c_str needle)) = inr prog ->
  counter_ok n 0 (gsub_fuel (fromUTF8 (c_str hay))) ->
  (v <- gsub_loop E host_call (gsub_fuel (fromUTF8 (c_str hay))) 2 n
          {| g_matcher := reset (fresh_matcher prog (fromUTF8 (c_str needle)) [] 0)
                            (fromUTF8 (c_str hay));
             g_repl := fromUTF8 (c_str repl); g_r := []; g_counter := 0 |} ;;
   (pushustring (appendTail (g_matcher E v) (g_r E v)) ;;; ret 1)) L
  = let input := fromUTF8 (c_str hay) in
    match replace_matches
            (gsub_text E (regex_groupCount E prog) input (fromUTF8 (c_str repl)))
            input (take_quota (quota n 0) (all_matches E prog input)) 0 with
    | inr out => Ok (1, L ++ [LString (c_str (to_utf8 out))])
    | inl e => Raise (LuaError (u_errorName e))
    end.
Proof.
  intros Hc Hk. rewrite gsub_finish.
  rewrite (gsub_loop_template E host_call exec_bounds).
  - cbn [g_matcher g_repl g_r g_counter]. cbv zeta.
    change (pending _ _) with (all_matches E prog (fromUTF8 (c_str hay))).
    change (groupCount _) with (regex_groupCount E prog).
    cbn [reset fInput fAppendPosition].
    destruct (replace_matches _ _ _ _); reflexivity.
  - cbn [g_matcher]. unfold budget, gsub_fuel. cbn. lia.
  - exact Hk.
Qed.


Lemma gsub_template_3 hay needle repl prog :
  regex_compile E (fromUTF8 (c_str needle)) = inr prog ->
  counter_ok (-1) 0 (gsub_fuel (fromUTF8 (c_str hay))) ->
  call (lua_utf8_gsub E host_call) [LString hay; LString needle; LString repl]
  = let input := fromUTF8 (c_str hay) in
    match replace_matches
            (gsub_text E (regex_groupCount E prog) input (fromUTF8 (c_str repl)))
            input (all_matches E prog input) 0 with
    | inr out => Ok [LString (c_str (to_utf8 out))]
    | inl e => Raise (LuaError (u_errorName e))
    end.
Proof.
  intros Hc Hk. unfold call, lua_utf8_gsub.
  set (L := [LString hay; LString needle; LString repl]).
  bind_step 3 L. bind_step (-1) L.
  bind_step (fromUTF8 (c_str hay)) L. bind_step (fromUTF8 (c_str needle)) L.
  bind_step false L. bind_step false L.
  bind_step (2, fromUTF8 (c_str repl)) L. cbn [fst snd].
  rewrite (RegexMatcher_new_ok _ _ _ Hc).
  rewrite (gsub_template_run hay needle repl (-1) prog L Hc Hk). cbv zeta.
  change (take_quota (quota (-1) 0) ?l) with l.
  destruct (replace_matches _ _ _ _); reflexivity.
Qed.

End GsubTemplate.

Lemma counter_ok_limit n fuel : 0 <= n <= INT_MAX -> counter_ok n 0 fuel.
Proof. intros H. unfold counter_ok. repeat split; lia. Qed.

Lemma counter_ok_unbounded n (input : UnicodeString) :
  n < 0 -> Z.of_nat (length input) + 2 <= INT_MAX -> counter_ok n 0 (gsub_fuel input).
Proof. intros H Hl. unfold counter_ok, gsub_fuel. repeat split; lia. Qed.

(** ** The executable engine meets the bounds *)

Lemma next32_length u c r : next32 u = Some (c, r) -> (length r < length u)%nat.
Proof.
  unfold next32. destruct u as [|a [|b u']]; [discriminate | |].
  - intros H. inversion H. cbn. lia.
  - destruct (is_lead a && is_trail b); intros H; inversion H; cbn; lia.
Qed.

Lemma run_bounds fuel : forall r s i c k res,
  Mini.run fuel r s i c k = Some res ->
  exists s' i' c',
    k s' i' c' = Some res /\ (i <= i')%nat /\ (i' + length s' = i + length s)%nat.
Proof.
  induction fuel as [|fuel IH]; intros r s i c k res H; [discriminate|].
  cbn [Mini.run] in H.
  assert (atom : forall a,
    match next32 s with
    | Some (cp, s') =>
      if Mini.accepts a cp then k s' (i + (length s - length s'))%nat c else None
    | None => None
    end = Some res ->
    exists s' i' c',
      k s' i' c' = Some res /\ (i <= i')%nat /\ (i' + length s' = i + length s)%nat).
  { intros a Ha. destruct (next32 s) as [[cp s']|] eqn:Hn; [|discriminate].
    destruct (Mini.accepts a cp); [|discriminate].
    apply next32_length in Hn. exists s', (i + (length s - length s'))%nat, c.
    repeat split; [assumption | lia | lia]. }
  destruct r as [| | neg ranges | a b | a b | a | g a].
  - now exists s, i, c.
  - now apply (atom Mini.RAny).
  - now apply (atom (Mini.RSet neg ranges)).
  - apply IH in H as (s1 & i1 & c1 & H & B1 & B2).
    apply IH in H as (s2 & i2 & c2 & H & B3 & B4).
    exists s2, i2, c2. repeat split; [assumption | lia | lia].
  - destruct (Mini.run fuel a s i c k) eqn:Ha.
    + inversion H; subst. now apply IH in Ha.
    + now apply IH in H.
  - match type of H with
    | match ?x with _ => _ end = _ => destruct x eqn:Ha
    end.
    + inversion H; subst. apply IH in Ha as (s1 & i1 & c1 & Ha & B1 & B2).
      destruct (i1 =? i)%nat; [discriminate|].
      apply IH in Ha as (s2 & i2 & c2 & Ha & B3 & B4).
      exists s2, i2, c2. repeat split; [assumption | lia | lia].
    + now exists s, i, c.
  - apply IH in H as (s1 & i1 & c1 & H & B1 & B2).
    now exists s1, i1, (Mini.set_cap (g - 1) (i, i1) c1).
Qed.

Lemma scan_bounds n : forall p input s i m,
  (i + length s = length input)%nat ->
  Mini.scan n p input s i = Some m ->
  (i <= m_start m /\ m_start m <= m_end m /\ m_end m <= length input)%nat.
Proof.
  induction n as [|n IH]; intros p input s i m Hlen H; cbn [Mini.scan] in H.
  - match type of H with
    | match ?x with _ => _ end = _ => destruct x as [[e c]|] eqn:Hr
    end; [|discriminate].
    apply run_bounds in Hr as (s' & i' & c' & Hk & B1 & B2).
    inversion Hk; subst. inversion H; subst. cbn. lia.
  - match type of H with
    | match ?x with _ => _ end = _ => destruct x as [[e c]|] eqn:Hr
    end.
    + apply run_bounds in Hr as (s' & i' & c' & Hk & B1 & B2).
      inversion Hk; subst. inversion H; subst. cbn. lia.
    + destruct (next32 s) as [[cp s']|] eqn:Hn; [|discriminate].
      apply next32_length in Hn.
      apply IH in H; lia.
Qed.

Lemma mini_exec_bounds : forall prog input pos r,
  regex_exec mini_engine prog input pos = Some r ->
  (pos <= m_start r /\ m_start r <= m_end r /\ m_end r <= length input)%nat.
Proof.
  intros prog input pos r. cbn [regex_exec mini_engine]. unfold Mini.exec.
  destruct (pos <=? length input)%nat eqn:Hp; [|discriminate].
  apply Nat.leb_le in Hp. apply scan_bounds.
  rewrite length_skipn. lia.
Qed.

(** The boundary cases of the limit on three matches. *)
Example gsub_limit_boundaries :
  call (lua_utf8_gsub mini_engine no_host)
    [LString (lit "aaa"); LString (lit "a"); LString (lit "b"); LNumber 0]
  = Ok [LString (lit "aaa")]
  /\ call (lua_utf8_gsub mini_engine no_host)
       [LString (lit "aaa"); LString (lit "a"); LString (lit "b"); LNumber 1]
     = Ok [LString (lit "baa")]
  /\ call (lua_utf8_gsub mini_engine no_host)
       [LString (lit "aaa"); LString (lit "a"); LString (lit "b"); LNumber 2]
     = Ok [LString (lit "bba")]
  /\ call (lua_utf8_gsub mini_engine no_host)
       [LString (lit "aaa"); LString (lit "a"); LString (lit "b"); LNumber 3]
     = Ok [LString (lit "bbb")]
  /\ call (lua_utf8_gsub mini_engine no_host)
       [LString (lit "aaa"); LString (lit "a"); LString (lit "b"); LNumber 4]
     = Ok [LString (lit "bbb")].
Proof. repeat split; vm_compute; reflexivity. Qed.

(** ** gsub: what a template string means *)

Lemma replace_matches_splice text t input ms : forall pos,
  (forall r, text r = inr (t r)) ->
  replace_matches text input ms pos = inr (splice t input ms pos).
Proof.
  induction ms as [|r ms IH]; intros pos Ht; [reflexivity|].
  cbn [replace_matches splice]. now rewrite Ht, IH.
Qed.

Section TemplateTokens.

Variable E : RegexEngine.
Hypothesis digit_ascii : forall c,
  0 <= c < 128 ->
  digit_value E c = if (48 <=? c) && (c <=? 57) then Some (c - 48) else None.
Variable ng : nat.
Variable g : nat -> UnicodeString.

Lemma scan_stops fuel groupNum numDigits u :
  not_digit_next E u ->
  scan_group_number E fuel ng groupNum numDigits u = inr (groupNum, u).
Proof.
  unfold not_digit_next. destruct fuel as [|fuel]; [reflexivity|].
  cbn [scan_group_number]. destruct (next32 u) as [[c r]|]; [|reflexivity].
  now intros ->.
Qed.

Lemma next32_digit d rest :
  (d <= 9)%nat -> next32 (48 + Z.of_nat d :: rest) = Some (48 + Z.of_nat d, rest).
Proof.
  intros Hd. unfold next32. destruct rest as [|x rest]; [reflexivity|].
  unfold is_lead. decide_test ((0xD800 <=? 48 + Z.of_nat d) && (48 + Z.of_nat d <=? 0xDBFF)).
  reflexivity.
Qed.

Lemma digit_value_digit d :
  (d <= 9)%nat -> digit_value E (48 + Z.of_nat d) = Some (Z.of_nat d).
Proof.
  intros Hd. rewrite digit_ascii by lia.
  decide_test ((48 <=? 48 + Z.of_nat d) && (48 + Z.of_nat d <=? 57)).
  f_equal. lia.
Qed.

Lemma expand_tokens ts : forall fuel dest,
  (length (render ts) < fuel)%nat -> tokens_ok E ng ts ->
  expand_replacement E fuel ng g (render ts) dest
  = inr (dest ++ flat_map (denote g) ts).
Proof.
  induction ts as [|t ts IH]; intros fuel dest Hf Hok;
    (destruct fuel as [|fuel]; [lia|]).
  - cbn. now rewrite app_nil_r.
  - unfold render in *. cbn [flat_map] in *. rewrite length_app in Hf.
    destruct t as [c | d | c]; cbn [render_token app length denote] in *.
    + destruct Hok as (H1 & H2 & Hok). cbn [expand_replacement].
      decide_test (c =? BACKSLASH). decide_test (c =? DOLLARSIGN). cbn [negb].
      rewrite IH by (assumption || lia). now rewrite <- app_assoc.
    + destruct Hok as (H1 & H2 & H3 & Hok). cbn [expand_replacement].
      change (DOLLARSIGN =? BACKSLASH) with false.
      change (DOLLARSIGN =? DOLLARSIGN) with true. cbn [negb].
      rewrite next32_digit, digit_value_digit by assumption.
      cbn [length scan_group_number].
      rewrite next32_digit, digit_value_digit by assumption.
      decide_test (0 * 10 + Z.of_nat d >? Z.of_nat ng).
      rewrite scan_stops by assumption.
      rewrite IH by (assumption || lia).
      replace (Z.to_nat (0 * 10 + Z.of_nat d)) with d by lia.
      now rewrite <- app_assoc.
    + destruct Hok as (H1 & H2 & Hok). cbn [expand_replacement].
      change (BACKSLASH =? BACKSLASH) with true. cbv iota.
      decide_test ((c =? 85) || (c =? 117)).
      rewrite IH by (assumption || lia). now rewrite <- app_assoc.
Qed.

Lemma template_text_tokens ts :
  tokens_ok E ng ts ->
  template_text (E := E) ng g (render ts) = inr (flat_map (denote g) ts).
Proof.
  intros Hok. unfold template_text. now rewrite expand_tokens by (assumption || lia).
Qed.

Lemma plain_tokens u :
  plain u ->
  render (map TLit u) = u /\ tokens_ok E ng (map TLit u)
  /\ flat_map (denote g) (map TLit u) = u.
Proof.
  induction 1 as [|c u [H1 H2] _ (IH1 & IH2 & IH3)]; [easy|].
  unfold render in *. cbn. now rewrite IH1, IH3.
Qed.

End TemplateTokens.

(** Characters that are neither dollar sign nor backslash are copied as
    they are. *)
Lemma expand_plain E ng (g : nat -> UnicodeString) u : forall fuel dest,
  (length u < fuel)%nat -> plain u ->
  expand_replacement E fuel ng g u dest = inr (dest ++ u).
Proof.
  induction u as [|c u IH]; intros fuel dest Hf Hp;
    (destruct fuel as [|fuel]; [cbn in Hf; lia|]).
  - cbn. now rewrite app_nil_r.
  - apply Forall_cons_iff in Hp as [[H1 H2] Hp]. cbn [expand_replacement].
    decide_test (c =? BACKSLASH). decide_test (c =? DOLLARSIGN). cbn [negb].
    rewrite IH by (assumption || (cbn in Hf; lia)). now rewrite <- app_assoc.
Qed.

(** C1, what the code does: the percent sign has no meaning in a template.
    A template in which neither a dollar sign nor a backslash occurs, with
    or without percent signs, is copied as it is in the place of every
    match: [%1] is not replaced by a capture group and [%%] stays two
    percent signs. *)
Theorem gsub_percent_literal (E : RegexEngine)
    (host_call : nat -> list lua_value -> result lua_value)
    (hay needle repl : bytes) (prog : regex_prog E) :
  (forall prog input pos r,
      regex_exec E prog input pos = Some r ->
      (pos <= m_start r /\ m_start r <= m_end r /\ m_end r <= length input)%nat) ->
  regex_compile E (fromUTF8 (c_str needle)) = inr prog ->
  Z.of_nat (length (fromUTF8 (c_str hay))) + 2 <= INT_MAX ->
  plain (fromUTF8 (c_str repl)) ->
  let input := fromUTF8 (c_str hay) in
  call (lua_utf8_gsub E host_call) [LString hay; LString needle; LString repl]
  = Ok [LString (c_str (to_utf8
         (splice (fun _ => fromUTF8 (c_str repl)) input (all_matches E prog input) 0)))].
Proof.
  intros Hx Hc Hlen Hp input.
  rewrite (gsub_template_3 E host_call Hx hay needle repl prog Hc)
    by (apply counter_ok_unbounded; [lia | assumption]).
  cbv zeta. fold input.
  rewrite (replace_matches_splice _ (fun _ => fromUTF8 (c_str repl))); [reflexivity|].
  intros r. unfold gsub_text, template_text.
  now rewrite expand_plain by (assumption || lia).
Qed.

Lemma gsub_percent_literal_witness :
  call (lua_utf8_gsub mini_engine no_host)
    [LString (lit "ab"); LString (lit "(a)"); LString (lit "%1%%")]
  = Ok [LString (lit "%1%%b")].
Proof.
  rewrite (gsub_percent_literal mini_engine no_host (lit "ab") (lit "(a)") (lit "%1%%")
             prog_group_a mini_exec_bounds).
  - reflexivity.
  - reflexivity.
  - vm_compute. discriminate.
  - repeat constructor; discriminate.
Defined.

(** X22: a template string is read in ICU's replacement syntax, under the
    conditions of [tokens_ok]: a dollar sign followed by one digit [N] that
    is at most the number of groups and is not followed by a further digit
    stands for capture group [N] of the match ([$0] for the whole match); a
    backslash followed by a character other than [u] and [U] stands for
    that character; every other character, the percent sign included,
    stands for itself.  Each match is replaced by the template read this
    way, and a template with neither dollar sign nor backslash replaces
    each match by itself, verbatim. *)
Theorem gsub_template (E : RegexEngine)
    (host_call : nat -> list lua_value -> result lua_value)
    (hay needle repl : bytes) (prog : regex_prog E) (ts : list token) :
  (forall prog input pos r,
      regex_exec E prog input pos = Some r ->
      (pos <= m_start r /\ m_start r <= m_end r /\ m_end r <= length input)%nat) ->
  (forall c, 0 <= c < 128 ->
      digit_value E c = if (48 <=? c) && (c <=? 57) then Some (c - 48) else None) ->
  regex_compile E (fromUTF8 (c_str needle)) = inr prog ->
  Z.of_nat (length (fromUTF8 (c_str hay))) + 2 <= INT_MAX ->
  let input := fromUTF8 (c_str hay) in
  let ng := regex_groupCount E prog in
  (fromUTF8 (c_str repl) = render ts -> tokens_ok E ng ts ->
   call (lua_utf8_gsub E host_call) [LString hay; LString needle; LString repl]
   = Ok [LString (c_str (to_utf8
          (splice (fun r => flat_map (denote (result_group ng input r)) ts)
                  input (all_matches E prog input) 0)))])
  /\ (plain (fromUTF8 (c_str repl)) ->
      call (lua_utf8_gsub E host_call) [LString hay; LString needle; LString repl]
      = Ok [LString (c_str (to_utf8
             (splice (fun _ => fromUTF8 (c_str repl))
                     input (all_matches E prog input) 0)))]).
Proof.
  intros Hx Hd Hc Hlen input ng.
  assert (tokens : forall ts',
    fromUTF8 (c_str repl) = render ts' -> tokens_ok E ng ts' ->
    call (lua_utf8_gsub E host_call) [LString hay; LString needle; LString repl]
    = Ok [LString (c_str (to_utf8
           (splice (fun r => flat_map (denote (result_group ng input r)) ts')
                   input (all_matches E prog input) 0)))]).
  { intros ts' Hr Hok.
    rewrite (gsub_template_3 E host_call Hx hay needle repl prog Hc)
      by (apply counter_ok_unbounded; [lia | assumption]).
    cbv zeta. fold input. fold ng.
    rewrite (replace_matches_splice _
               (fun r => flat_map (denote (result_group ng input r)) ts')).
    - reflexivity.
    - intros r. unfold gsub_text. rewrite Hr.
      now apply template_text_tokens. }
  split.
  - apply tokens.
  - intros Hp.
    destruct (plain_tokens E ng (fun _ => []) _ Hp) as (Hr & Hok & _).
    rewrite (tokens (map TLit (fromUTF8 (c_str repl)))) by (auto using eq_sym).
    assert (Hs : forall ms pos,
      splice (fun r => flat_map (denote (result_group ng input r))
                         (map TLit (fromUTF8 (c_str repl)))) input ms pos
      = splice (fun _ => fromUTF8 (c_str repl)) input ms pos).
    { induction ms as [|r ms IH]; intros pos; [reflexivity|].
      cbn [splice]. rewrite IH.
      now destruct (plain_tokens E ng (result_group ng input r) _ Hp) as (_ & _ & ->). }
    now rewrite Hs.
Qed.

Lemma mini_digit_ascii : forall c,
  0 <= c < 128 ->
  digit_value mini_engine c = if (48 <=? c) && (c <=? 57) then Some (c - 48) else None.
Proof. reflexivity. Qed.

Lemma gsub_template_witness :
  call (lua_utf8_gsub mini_engine no_host)
    [LString (lit "abcd"); LString (lit "(b)(c)"); LString (lit "<$2\$%$1>")]
  = Ok [LString (lit "a<c$%b>d")]
  /\ call (lua_utf8_gsub mini_engine no_host)
       [LString (lit "a1b2c3"); LString (lit "[0-9]"); LString (lit "#")]
     = Ok [LString (lit "a#b#c#")].
Proof.
  split.
  - destruct (gsub_template mini_engine no_host (lit "abcd") (lit "(b)(c)")
                (lit "<$2\$%$1>") prog_b_c
                [TLit 60; TGroup 2; TEsc 36; TLit 37; TGroup 1; TLit 62]
                mini_exec_bounds mini_digit_ascii) as [A _].
    + reflexivity.
    + vm_compute. discriminate.
    + rewrite A.
      * reflexivity.
      * reflexivity.
      * cbn; repeat split; (discriminate || lia || reflexivity).
  - destruct (gsub_template mini_engine no_host (lit "a1b2c3") (lit "[0-9]")
                (lit "#") prog_digit [] mini_exec_bounds mini_digit_ascii) as [_ B].
    + reflexivity.
    + vm_compute. discriminate.
    + rewrite B.
      * reflexivity.
      * repeat constructor; discriminate.
Defined.

(** C1 fails on the code: the percent sign has no meaning of its own, neither
    in the pattern (where [%d] matches the two characters percent and d, so
    nothing is replaced in ["a1b2c3"]) nor in the template (where [%1] and
    [%%] are copied as they are); and a template without a percent sign is
    not always copied verbatim, since [$1] stands for a group. *)
Lemma gsub_percent_counterexample :
  call (lua_utf8_gsub mini_engine no_host)
    [LString (lit "a1b2c3"); LString (lit "%d"); LString (lit "#")]
  = Ok [LString (lit "a1b2c3")]
  /\ call (lua_utf8_gsub mini_engine no_host)
       [LString (lit "ab"); LString (lit "(a)"); LString (lit "%1%%")]
     = Ok [LString (lit "%1%%b")]
  /\ call (lua_utf8_gsub mini_engine no_host)
       [LString (lit "ab"); LString (lit "(a)"); LString (lit "$1$1")]
     = Ok [LString (lit "aab")].
Proof. repeat split; vm_compute; reflexivity. Qed.

(** ** gsub: a table as replacement *)

Lemma index_value_low (L : lua_State) x i :
  0 < i <= Z.of_nat (length L) -> index_value (L ++ [x]) i = index_value L i.
Proof.
  intros H. unfold index_value. decide_test (i >? 0).
  apply nth_error_app1. lia.
Qed.

Lemma index_value_top (L : lua_State) x : index_value (L ++ [x]) (-1) = Some x.
Proof.
  unfold index_value. change (-1 >? 0) with false. change (-1 <? 0) with true.
  cbv iota. rewrite length_app. cbn [length].
  decide_test (Z.of_nat (length L + 1) + -1 <? 0).
  rewrite nth_error_app2 by lia.
  replace (Z.to_nat (Z.of_nat (length L + 1) + -1) - length L)%nat with 0%nat by lia.
  reflexivity.
Qed.

Section GsubTable.

Variable E : RegexEngine.
Variable host_call : nat -> list lua_value -> result lua_value.
Hypothesis exec_bounds : forall prog input pos r,
  regex_exec E prog input pos = Some r ->
  (pos <= m_start r /\ m_start r <= m_end r /\ m_end r <= length input)%nat.
Variable n : Z.
Variable t : list (bytes * lua_value).

Lemma table_replacement (m : RegexMatcher E) repl (L : lua_State) :
  fMatch m = true ->
  index_value L 3 = Some (LTable t) -> (3 <= length L)%nat ->
  gsub_replacement E host_call 1 m repl L
  = match table_get t (table_key (groupCount m) (fInput m) (result_of m)) with
    | LString s => Ok (fromUTF8 (c_str s), L ++ [LString s])
    | _ => Raise (LuaError expected_string_at_top)
    end.
Proof.
  intros Hm Ht Hl. unfold gsub_replacement, table_key.
  change (1 =? 0) with false. change (1 =? 1) with true. cbv iota.
  set (idx := if (groupCount m =? 0)%nat then 0%nat else 1%nat).
  set (key := c_str (to_utf8 (result_group (groupCount m) (fInput m) (result_of m) idx))).
  assert (Hpush :
    (if (groupCount m =? 0)%nat
     then match group m 0 with
          | inl status => my_lua_error (u_errorName status)
          | inr m0 => pushustring m0
          end
     else match group m 1 with
          | inl status => my_lua_error (u_errorName status)
          | inr m0 => pushustring m0
          end) L = Ok (tt, L ++ [LString key])).
  { unfold key, idx, group, result_group. rewrite Hm. cbn [negb].
    destruct (groupCount m =? 0)%nat eqn:Hg.
    - reflexivity.
    - apply Nat.eqb_neq in Hg.
      replace (groupCount m <? 1)%nat with false
        by (symmetry; apply Nat.ltb_ge; lia).
      reflexivity. }
  rewrite (bind_ok _ _ _ _ _ Hpush).
  assert (Hget : lua_gettable 3 (L ++ [LString key]) = Ok (tt, L ++ [table_get t key])).
  { unfold lua_gettable. rewrite index_value_low, Ht by lia.
    now rewrite rev_unit, rev_involutive. }
  rewrite (bind_ok _ _ _ _ _ Hget).
  unfold checkustring, lua_type, lua_at, bind, ret. rewrite index_value_top.
  destruct (table_get t key); cbn [type_of]; rewrite ?index_value_top; reflexivity.
Qed.

(** The loop in table mode stops with an error as soon as it comes to a
    match the table has no string for. *)
Lemma gsub_loop_table fuel : forall v L r,
  (budget (g_matcher E v) < fuel)%nat ->
  counter_ok n (g_counter E v) fuel ->
  index_value L 3 = Some (LTable t) -> (3 <= length L)%nat ->
  In r (take_quota (quota n (g_counter E v)) (pending fuel (g_matcher E v))) ->
  no_replacement t (groupCount (g_matcher E v)) (fInput (g_matcher E v)) r ->
  exists msg, gsub_loop E host_call fuel 1 n v L = Raise (LuaError msg).
Proof.
  induction fuel as [|fuel IH]; intros v L r Hb Hc Ht Hl Hin Hbad; [lia|].
  cbn [gsub_loop].
  pose proof (find_pending E (g_matcher E v) fuel) as Hp.
  pose proof (find_budget E exec_bounds (g_matcher E v)) as Hbud.
  destruct (find_keeps E (g_matcher E v)) as (_ & Hi & Hpat & Happ).
  destruct (find (g_matcher E v)) as [found m1] eqn:Hf. cbn [fst snd] in *.
  destruct (pending (S fuel) (g_matcher E v)) as [|r1 rest].
  - rewrite take_quota_nil in Hin. contradiction.
  - destruct Hp as (-> & Hm & Hr & Hrest & _). cbn [negb].
    destruct (g_counter E v =? n) eqn:Hcn; bool_to_Z.
    + rewrite (quota_reached _ _ Hcn) in Hin by apply Hc. contradiction.
    + destruct (quota_next n _ fuel r1 rest Hc Hcn) as (Hq & Hw & Hc').
      rewrite Hq in Hin. rewrite Hw. clear Hq Hw.
      assert (Hg : groupCount m1 = groupCount (g_matcher E v))
        by (unfold groupCount; now rewrite Hpat).
      unfold bind at 1. rewrite table_replacement by assumption.
      rewrite Hg, Hi, Hr.
      destruct (table_get t (table_key (groupCount (g_matcher E v))
                               (fInput (g_matcher E v)) r1)) eqn:Hv;
        try (now eexists).
      destruct (appendReplacement m1 (g_r E v) (fromUTF8 (c_str s)))
        as [e|[m2 r2]] eqn:Ha; [now eexists|].
      rewrite appendReplacement_text in Ha by assumption.
      destruct (template_text _ _ _) as [e|txt]; [discriminate|].
      inversion Ha; subst m2 r2. clear Ha.
      destruct Hin as [<- | Hin].
      * unfold no_replacement in Hbad. now rewrite Hv in Hbad.
      * apply (IH _ _ r); cbn [g_matcher g_counter].
        -- change (budget (set_append m1 (fMatchEnd m1))) with (budget m1).
           specialize (Hbud eq_refl). lia.
        -- exact Hc'.
        -- rewrite index_value_low by lia. exact Ht.
        -- rewrite length_app. lia.
        -- change (pending fuel (set_append m1 (fMatchEnd m1))) with (pending fuel m1).
           now rewrite Hrest.
        -- change (groupCount (set_append m1 (fMatchEnd m1))) with (groupCount m1).
           cbn [set_append fInput]. now rewrite Hg, Hi.
Qed.

(** When the very first match has no string, the error is the one of
    [checkustring] on the value looked up. *)
Lemma gsub_loop_table_first fuel v L r rest :
  counter_ok n (g_counter E v) (S fuel) -> g_counter E v <> n ->
  index_value L 3 = Some (LTable t) -> (3 <= length L)%nat ->
  pending (S fuel) (g_matcher E v) = r :: rest ->
  no_replacement t (groupCount (g_matcher E v)) (fInput (g_matcher E v)) r ->
  gsub_loop E host_call (S fuel) 1 n v L = Raise (LuaError expected_string_at_top).
Proof.
  intros Hc Hcn Ht Hl Hpend Hbad. cbn [gsub_loop].
  pose proof (find_pending E (g_matcher E v) fuel) as Hp. rewrite Hpend in Hp.
  destruct (find_keeps E (g_matcher E v)) as (_ & Hi & Hpat & _).
  destruct (find (g_matcher E v)) as [found m1] eqn:Hf. cbn [fst snd] in *.
  destruct Hp as (-> & Hm & Hr & _). cbn [negb].
  decide_test (g_counter E v =? n).
  assert (Hg : groupCount m1 = groupCount (g_matcher E v))
    by (unfold groupCount; now rewrite Hpat).
  unfold bind at 1. rewrite table_replacement by assumption.
  rewrite Hg, Hi, Hr. unfold no_replacement in Hbad.
  destruct (table_get t _); try reflexivity. contradiction.
Qed.

End GsubTable.

(** C10: in table mode, when the limit lets [gsub] come to a match for which
    the table holds no string (the key is absent, or its value is not a
    string), the call ends with an error and returns no string, so the
    match is not kept as a fallback; when that match is the first one, the
    error is the one [checkustring] raises for the value looked up. *)
Theorem gsub_table_no_fallback (E : RegexEngine)
    (host_call : nat -> list lua_value -> result lua_value)
    (hay needle : bytes) (t : list (bytes * lua_value)) (n : Z)
    (prog : regex_prog E) (r : MatchResult) :
  (forall prog input pos r,
      regex_exec E prog input pos = Some r ->
      (pos <= m_start r /\ m_start r <= m_end r /\ m_end r <= length input)%nat) ->
  regex_compile E (fromUTF8 (c_str needle)) = inr prog ->
  INT_MIN <= n <= INT_MAX ->
  Z.of_nat (length (fromUTF8 (c_str hay))) + 2 <= INT_MAX ->
  let input := fromUTF8 (c_str hay) in
  let ng := regex_groupCount E prog in
  no_replacement t ng input r ->
  (In r (all_matches E prog input) ->
   exists msg,
     call (lua_utf8_gsub E host_call) [LString hay; LString needle; LTable t]
     = Raise (LuaError msg))
  /\ (In r (take_quota (quota n 0) (all_matches E prog input)) ->
      exists msg,
        call (lua_utf8_gsub E host_call)
          [LString hay; LString needle; LTable t; LNumber n]
        = Raise (LuaError msg))
  /\ (forall rest, all_matches E prog input = r :: rest ->
      call (lua_utf8_gsub E host_call) [LString hay; LString needle; LTable t]
      = Raise (LuaError expected_string_at_top)).
Proof.
  intros Hx Hc Hn Hlen input ng Hbad.
  assert (Hk : forall k, k < 0 -> counter_ok k 0 (gsub_fuel input))
    by (intros k Hk; now apply counter_ok_unbounded).
  assert (Hkn : counter_ok n 0 (gsub_fuel input)).
  { destruct (Z.lt_ge_cases n 0); [now apply Hk|].
    apply counter_ok_limit. long_consts. lia. }
  assert (Hb : (budget (reset (fresh_matcher prog (fromUTF8 (c_str needle)) [] 0) input)
                < gsub_fuel input)%nat)
    by (unfold budget, gsub_fuel; cbn; lia).
  pose (v0 := {| g_matcher := reset (fresh_matcher prog (fromUTF8 (c_str needle)) [] 0)
                                   input;
                 g_repl := []; g_r := []; g_counter := 0 |} : gsub_vars E).
  split; [|split].
  - intros Hin. unfold call, lua_utf8_gsub.
    set (L := [LString hay; LString needle; LTable t]).
    bind_step 3 L. bind_step (-1) L.
    bind_step (fromUTF8 (c_str hay)) L. bind_step (fromUTF8 (c_str needle)) L.
    bind_step false L. bind_step true L. bind_step (1, @nil Z) L. cbn [fst snd].
    rewrite (RegexMatcher_new_ok _ _ _ Hc).
    destruct (gsub_loop_table E host_call Hx (-1) t (gsub_fuel input) v0 L r)
      as [msg Hmsg];
      [exact Hb | now apply Hk | | | exact Hin | exact Hbad |].
    + reflexivity.
    + cbn. lia.
    + exists msg. fold input. erewrite bind_raise by exact Hmsg. reflexivity.
  - intros Hin. unfold call, lua_utf8_gsub.
    set (L := [LString hay; LString needle; LTable t; LNumber n]).
    bind_step 4 L. bind_step n L.
    bind_step (fromUTF8 (c_str hay)) L. bind_step (fromUTF8 (c_str needle)) L.
    bind_step false L. bind_step true L. bind_step (1, @nil Z) L. cbn [fst snd].
    rewrite (RegexMatcher_new_ok _ _ _ Hc).
    destruct (gsub_loop_table E host_call Hx n t (gsub_fuel input) v0 L r)
      as [msg Hmsg];
      [exact Hb | exact Hkn | | | exact Hin | exact Hbad |].
    + reflexivity.
    + cbn. lia.
    + exists msg. fold input. erewrite bind_raise by exact Hmsg. reflexivity.
  - intros rest Hall. unfold call, lua_utf8_gsub.
    set (L := [LString hay; LString needle; LTable t]).
    bind_step 3 L. bind_step (-1) L.
    bind_step (fromUTF8 (c_str hay)) L. bind_step (fromUTF8 (c_str needle)) L.
    bind_step false L. bind_step true L. bind_step (1, @nil Z) L. cbn [fst snd].
    rewrite (RegexMatcher_new_ok _ _ _ Hc).
    fold input. unfold gsub_fuel. rewrite Nat.add_succ_r.
    erewrite bind_raise; [reflexivity|].
    apply (gsub_loop_table_first E host_call (-1) t _ v0 L r rest).
    + rewrite <- Nat.add_succ_r. now apply Hk.
    + cbn. discriminate.
    + reflexivity.
    + cbn. lia.
    + rewrite <- Nat.add_succ_r. exact Hall.
    + exact Hbad.
Qed.

Lemma gsub_table_no_fallback_witness :
  (exists msg,
     call (lua_utf8_gsub mini_engine no_host)
       [LString (lit "solo"); LString (lit "[lo]");
        LTable [(lit "o", LString (lit "0"))]]
     = Raise (LuaError msg))
  /\ call (lua_utf8_gsub mini_engine no_host)
       [LString (lit "lot"); LString (lit "[lo]");
        LTable [(lit "o", LString (lit "0")); (lit "l", LNumber 1)]]
     = Raise (LuaError expected_string_at_top).
Proof.
  split.
  - destruct (gsub_table_no_fallback mini_engine no_host (lit "solo") (lit "[lo]")
                [(lit "o", LString (lit "0"))] 0 prog_lo
                {| m_start := 2; m_end := 3; m_groups := [] |} mini_exec_bounds)
      as (A & _).
    + reflexivity.
    + vm_compute; intuition discriminate.
    + vm_compute; discriminate.
    + exact I.
    + apply A. vm_compute. right. left. reflexivity.
  - destruct (gsub_table_no_fallback mini_engine no_host (lit "lot") (lit "[lo]")
                [(lit "o", LString (lit "0")); (lit "l", LNumber 1)] 0 prog_lo
                {| m_start := 0; m_end := 1; m_groups := [] |} mini_exec_bounds)
      as (_ & _ & C).
    + reflexivity.
    + vm_compute; intuition discriminate.
    + vm_compute; discriminate.
    + exact I.
    + apply (C [{| m_start := 1; m_end := 2; m_groups := [] |}]). reflexivity.
Defined.

(** ** gsub: the limit *)


Section GsubTableLoop.

Variable E : RegexEngine.
Variable host_call : nat -> list lua_value -> result lua_value.
Hypothesis exec_bounds : forall prog input pos r,
  regex_exec E prog input pos = Some r ->
  (pos <= m_start r /\ m_start r <= m_end r /\ m_end r <= length input)%nat.
Variable n : Z.
Variable t : list (bytes * lua_value).


(** After the loop: [appendTail], [pushustring], [return 1]; the one result
    is the string pushed last. *)
Lemma gsub_finish_call (c : Lua (gsub_vars E)) L :
  call (v <- c ;; (pushustring (appendTail (g_matcher E v) (g_r E v)) ;;; ret 1)) L
  = match gsub_string (c L) with
    | Ok out => Ok [LString (c_str (to_utf8 out))]
    | Raise f => Raise f
    end.
Proof.
  unfold call, bind, gsub_string. destruct (c L) as [[v L']|f]; [|reflexivity].
  unfold pushustring, lua_pushstring, lua_push, ret. f_equal. apply (lastn_app _ [_]).
Qed.


End GsubTableLoop.





(** ** gsub: what it returns *)

(** C5, what the code does: whenever [gsub] returns, it returns one value, a
    string; the number of replacements it counted in [counter] is not pushed
    (the function ends in [return 1], while its documentation promises the
    count as a second value). *)
Theorem gsub_single_result (E : RegexEngine)
    (host_call : nat -> list lua_value -> result lua_value)
    (args results : list lua_value) :
  call (lua_utf8_gsub E host_call) args = Ok results ->
  exists s, results = [LString s].
Proof.
  unfold call.
  destruct (lua_utf8_gsub E host_call args) as [[k L]|f] eqn:H; [|discriminate].
  intros Hres. inversion Hres; subst results. clear Hres.
  unfold lua_utf8_gsub in H.
  apply bind_inv in H as (top & L1 & _ & H).
  apply bind_inv in H as (n & L2 & _ & H).
  apply bind_inv in H as (haystack & L3 & _ & H).
  apply bind_inv in H as (needle & L4 & _ & H).
  apply bind_inv in H as (isf & L5 & _ & H).
  apply bind_inv in H as (ist & L6 & _ & H).
  apply bind_inv in H as (mr & L7 & _ & H).
  destruct (RegexMatcher_new E needle) as [status|m]; [discriminate|].
  apply bind_inv in H as (v & L8 & _ & H).
  lua_unfold. inversion H; subst k L.
  eexists. apply (lastn_app L8 [_]).
Qed.

Lemma gsub_single_result_witness :
  call (lua_utf8_gsub mini_engine no_host)
    [LString (lit "a1b2c3"); LString (lit "[0-9]"); LString (lit "#")]
  = Ok [LString (lit "a#b#c#")]
  /\ exists s, [LString (lit "a#b#c#")] = [LString s].
Proof.
  assert (H : call (lua_utf8_gsub mini_engine no_host)
                [LString (lit "a1b2c3"); LString (lit "[0-9]"); LString (lit "#")]
              = Ok [LString (lit "a#b#c#")]) by (vm_compute; reflexivity).
  split; [exact H|].
  exact (gsub_single_result mini_engine no_host _ _ H).
Defined.

(** * Further properties *)

(** ** Text across the boundary *)

Lemma scalar_not_surrogate c : scalar c -> is_lead c = false /\ is_trail c = false.
Proof.
  intros H. apply scalar_range in H. unfold is_lead, is_trail.
  split; apply andb_false_iff; destruct H;
    ((left; apply Z.leb_gt; lia) || (right; apply Z.leb_gt; lia)).
Qed.

Lemma countChar32_single c rest :
  is_lead c = false -> countChar32 (c :: rest) = 1 + countChar32 rest.
Proof.
  intros H. destruct rest as [|d r]; [reflexivity|].
  rewrite countChar32_cons2, H. reflexivity.
Qed.

Lemma utf16_of_cp_cases c :
  scalar c ->
  (c < 0x10000 /\ utf16_of_cp c = [c])
  \/ (exists hi lo, utf16_of_cp c = [hi; lo] /\ is_lead hi = true /\ is_trail lo = true
                    /\ is_trail hi = false /\ is_lead lo = false).
Proof.
  intros H. apply scalar_range in H. unfold utf16_of_cp.
  destruct ((c <? 0) || (1114111 <? c)) eqn:A; bool_to_Z; [exfalso; lia|].
  destruct (c <? 65536) eqn:B; bool_to_Z; [left; split; [lia | reflexivity]|].
  right. eexists _, _. split; [reflexivity|].
  assert (0 <= (c - 65536) / 1024 < 1024) by (Z.div_mod_to_equations; lia).
  assert (0 <= (c - 65536) mod 1024 < 1024) by (Z.div_mod_to_equations; lia).
  generalize dependent ((c - 65536) / 1024). generalize dependent ((c - 65536) mod 1024).
  intros lo Hlo hi Hhi.
  unfold is_lead, is_trail. repeat split.
  - apply andb_true_iff. split; apply Z.leb_le; lia.
  - apply andb_true_iff. split; apply Z.leb_le; lia.
  - apply andb_false_iff. left. apply Z.leb_gt. lia.
  - apply andb_false_iff. right. apply Z.leb_gt. lia.
Qed.

Lemma countChar32_utf16 cps :
  Forall scalar cps -> countChar32 (utf16 cps) = Z.of_nat (length cps).
Proof.
  induction 1 as [|c cps Hc _ IH]; [reflexivity|].
  unfold utf16 in *. cbn [flat_map length].
  destruct (utf16_of_cp_cases c Hc) as [[_ ->] | (hi & lo & -> & Hh & Hl & _)].
  - cbn [app]. rewrite countChar32_single by now apply scalar_not_surrogate.
    rewrite IH. lia.
  - cbn [app]. rewrite countChar32_cons2, Hh, Hl. cbn [andb]. rewrite IH. lia.
Qed.

Lemma length_utf16_of_cp c : (length (utf16_of_cp c) <= 2)%nat.
Proof. unfold utf16_of_cp. decide_tests; cbn; lia. Qed.

Lemma length_c_str s : (length (c_str s) <= length s)%nat.
Proof.
  induction s as [|b s IH]; [apply le_n|].
  unfold c_str; fold c_str. destruct (b =? 0); cbn [length]; lia.
Qed.

Lemma c_str_nonzero s : Forall (fun b => b <> 0) (c_str s).
Proof.
  induction s as [|b s IH]; [constructor|].
  unfold c_str; fold c_str. decide_test (b =? 0); [constructor|].
  now constructor.
Qed.

Lemma c_str_Forall (P : Z -> Prop) s : Forall P s -> Forall P (c_str s).
Proof.
  induction 1 as [|b s Hb _ IH]; [constructor|].
  unfold c_str; fold c_str. destruct (b =? 0); now constructor.
Qed.

(** Break [fromUTF8] on its head byte into the branches of the decoder. *)
Ltac fromUTF8_cases :=
  unfold fromUTF8; fold fromUTF8;
  repeat match goal with
  | |- context [match ?l with [] => _ | _ :: _ => _ end] =>
    is_var l; destruct l
  | |- context [if ?t then _ else _] =>
    lazymatch t with
    | context [if _ then _ else _] => fail
    | _ => destruct t eqn:?
    end
  end.

Lemma length_fromUTF8 s : (length (fromUTF8 s) <= length s)%nat.
Proof.
  induction s as [s IH] using list_length_ind.
  destruct s as [|b0 r0]; [apply le_n|].
  fromUTF8_cases;
    repeat match goal with
    | |- context [fromUTF8 ?r] =>
      let H := fresh "IHr" in
      pose proof (IH r ltac:(cbn [length]; lia)) as H;
      generalize dependent (fromUTF8 r); intros
    end;
    rewrite ?length_app; cbn [length] in *;
    try match goal with
    | |- context [utf16_of_cp ?c] => pose proof (length_utf16_of_cp c)
    end; lia.
Qed.

Lemma text_char_intro c :
  0 < c <= 0x10FFFF -> c < 0xD800 \/ 0xDFFF < c -> text_char c.
Proof.
  intros R S. repeat split; try lia.
  unfold is_surrogate. apply andb_false_iff.
  destruct S; [left | right]; apply Z.leb_gt; lia.
Qed.

Lemma utf16_cons_bmp c cps : 0 <= c < 0x10000 -> utf16 (c :: cps) = c :: utf16 cps.
Proof.
  intros H. unfold utf16. cbn [flat_map]. unfold utf16_of_cp. decide_tests. reflexivity.
Qed.

(** The induction hypothesis of [fromUTF8_text] at the remaining bytes [r]. *)
Ltac decoded_tail IH r :=
  let cps := fresh "cps" in let Hc := fresh "Hc" in let Hr := fresh "Hr" in
  destruct (IH r) as (cps & Hc & Hr);
  [ cbn [length]; lia
  | repeat first [assumption | apply Forall_cons | apply Forall_nil]
  | repeat first [assumption | apply Forall_cons | apply Forall_nil]
  | rewrite Hr ].

(** Whatever the bytes, the decoder yields well-formed text. *)
Lemma fromUTF8_text s :
  Forall (fun b => 0 <= b <= 255) s -> Forall (fun b => b <> 0) s ->
  exists cps, Forall text_char cps /\ fromUTF8 s = utf16 cps.
Proof.
  induction s as [s IH] using list_length_ind. intros Hb Hz.
  destruct s as [|b0 r0]; [now exists []|].
  fromUTF8_cases;
    repeat match goal with
    | H : Forall _ (_ :: _) |- _ => inversion H; clear H; subst
    end;
    unfold lead3_t1, lead4_t1, is_cont in *;
    repeat match goal with
    | H : (if ?t then _ else _) = _ |- _ => destruct t eqn:?
    end;
    bool_to_Z;
    try match goal with
    | |- context [fromUTF8 ?r] => decoded_tail IH r
    end.
  all: try (match goal with
    | |- exists _, _ /\ U_REPLACEMENT :: utf16 ?cps = _ =>
      exists (U_REPLACEMENT :: cps); split;
      [constructor; [apply text_char_intro; unfold U_REPLACEMENT; lia | assumption]
      | now rewrite utf16_cons_bmp by (unfold U_REPLACEMENT; lia)]
    | |- exists _, _ /\ [U_REPLACEMENT] = _ =>
      exists [U_REPLACEMENT]; split;
      [constructor; [apply text_char_intro; unfold U_REPLACEMENT; lia | constructor]
      | reflexivity]
    | |- exists _, _ /\ utf16_of_cp ?c ++ utf16 ?cps = _ =>
      exists (c :: cps); split;
      [constructor; [apply text_char_intro; lia | assumption] | reflexivity]
    | |- exists _, _ /\ ?c :: utf16 ?cps = _ =>
      exists (c :: cps); split;
      [constructor; [apply text_char_intro; lia | assumption]
      | now rewrite utf16_cons_bmp by lia]
    end).
Qed.

(** X1: [len] counts code points, not bytes: for text of [n] characters, of
    whatever plane, it returns [n]. *)
Theorem len_counts_code_points (cps : list Z) :
  Forall text_char cps ->
  call lua_utf8_len [LString (utf8 cps)] = Ok [LNumber (Z.of_nat (length cps))].
Proof.
  intros H. unfold call. lua_run. rewrite checked_text by assumption.
  rewrite countChar32_utf16 by now apply text_chars_scalar.
  reflexivity.
Qed.

Lemma len_counts_code_points_witness :
  call lua_utf8_len [LString (utf8 [0x61; 0xE9; 0x20AC; 0x1D11E])] = Ok [LNumber 4].
Proof.
  apply (len_counts_code_points [0x61; 0xE9; 0x20AC; 0x1D11E]).
  repeat constructor; (lia || discriminate || reflexivity).
Defined.

(** X2: whatever bytes the string holds, [len] returns a number between 0 and
    the number of bytes. *)
Theorem len_at_most_bytes (s : bytes) :
  exists n, call lua_utf8_len [LString s] = Ok [LNumber n]
            /\ 0 <= n <= Z.of_nat (length s).
Proof.
  exists (countChar32 (fromUTF8 (c_str s))). split.
  - unfold call. lua_run. reflexivity.
  - pose proof (countChar32_bounds (fromUTF8 (c_str s))).
    pose proof (length_fromUTF8 (c_str s)). pose proof (length_c_str s). lia.
Qed.

(** X3: the length operator agrees with [len]: the metamethod returns for a
    string and any second operand what [len] returns for the string. *)
Theorem mt_len_is_len (s : bytes) (v : lua_value) :
  call lua_utf8_mt_len [LString s; v] = call lua_utf8_len [LString s].
Proof. unfold call, lua_utf8_mt_len. lua_run. reflexivity. Qed.

(** X4: [checkustring] never hands ill-formed text to the functions: whatever
    bytes the Lua string at the index holds, the result is the UTF-16 form of
    a sequence of scalar values none of which is NUL, and the stack is left
    as it was. *)
Theorem checkustring_text (s : bytes) (rest : lua_State) :
  Forall is_byte s ->
  exists cps, Forall text_char cps
              /\ checkustring 1 (LString s :: rest) = Ok (utf16 cps, LString s :: rest).
Proof.
  intros Hb.
  destruct (fromUTF8_text (c_str s)) as (cps & Hc & Hr).
  - now apply c_str_Forall.
  - apply c_str_nonzero.
  - exists cps. split; [assumption|]. lua_run. now rewrite Hr.
Qed.

Lemma checkustring_text_witness :
  exists cps, Forall text_char cps
              /\ checkustring 1 [LString [0x61; 0xFF; 0xC3; 0x00; 0x62]]
                 = Ok (utf16 cps, [LString [0x61; 0xFF; 0xC3; 0x00; 0x62]]).
Proof.
  apply (checkustring_text [0x61; 0xFF; 0xC3; 0x00; 0x62] []).
  repeat constructor; unfold is_byte; lia.
Defined.

(** X5: text crosses the boundary unchanged in both directions:
    [pushustring] of the UTF-16 form of text pushes its UTF-8 form, and
    [checkustring] reads the UTF-16 form back from it. *)
Theorem push_check_roundtrip (cps : list Z) (L : lua_State) :
  Forall text_char cps ->
  (pushustring (utf16 cps) ;;; checkustring (-1)) L
  = Ok (utf16 cps, L ++ [LString (utf8 cps)]).
Proof.
  intros H. unfold pushustring, lua_pushstring.
  rewrite pushed_text by assumption.
  erewrite bind_ok by reflexivity.
  unfold checkustring, lua_type, lua_at, bind, ret.
  rewrite index_value_top. cbn [type_of]. rewrite index_value_top.
  now rewrite checked_text.
Qed.

Lemma push_check_roundtrip_witness :
  (pushustring (utf16 [0x61; 0x1D11E]) ;;; checkustring (-1)) [LNil]
  = Ok (utf16 [0x61; 0x1D11E], [LNil] ++ [LString (utf8 [0x61; 0x1D11E])]).
Proof.
  apply (push_check_roundtrip [0x61; 0x1D11E] [LNil]).
  repeat constructor; (lia || discriminate || reflexivity).
Defined.


(** ** reverse *)

Lemma existsb_lead_false u : existsb is_lead u = false -> reswap_surrogates u = u.
Proof.
  induction u as [u IH] using list_length_ind. intros H.
  destruct u as [|c [|d r]]; [reflexivity | reflexivity |].
  cbn [existsb] in H. apply orb_false_iff in H as [Hc H].
  pose proof H as H'. cbn [existsb] in H'. apply orb_false_iff in H' as [Hd _].
  cbn [reswap_surrogates]. rewrite Hd, andb_false_r.
  f_equal. apply (IH (d :: r)); [cbn [length]; lia | assumption].
Qed.

(** Whether a lead surrogate was met or not, the outcome is that of the
    second pass. *)
Lemma reverse_reswap u : reverse u = reswap_surrogates (rev u).
Proof.
  unfold reverse. destruct (existsb is_lead u) eqn:H; [reflexivity|].
  symmetry. apply existsb_lead_false.
  rewrite <- H. clear H. induction u as [|c u IH]; [reflexivity|].
  cbn [rev existsb]. rewrite existsb_app, IH. cbn [existsb].
  rewrite orb_false_r. apply orb_comm.
Qed.

Lemma reswap_single c t :
  is_trail c = false -> reswap_surrogates (c :: t) = c :: reswap_surrogates t.
Proof.
  intros H. destruct t as [|d r]; [reflexivity|].
  cbn [reswap_surrogates]. now rewrite H.
Qed.

Lemma reswap_reversed cps :
  Forall scalar cps ->
  reswap_surrogates (flat_map (fun c => rev (utf16_of_cp c)) cps) = utf16 cps.
Proof.
  induction 1 as [|c cps Hc _ IH]; [reflexivity|].
  unfold utf16 in *. cbn [flat_map].
  destruct (utf16_of_cp_cases c Hc) as [[_ ->] | (hi & lo & -> & Hh & Hl & _)].
  - cbn [rev app]. rewrite reswap_single by now apply scalar_not_surrogate.
    now rewrite IH.
  - cbn [rev app reswap_surrogates]. rewrite Hh, Hl. cbn [andb]. now rewrite IH.
Qed.

Lemma rev_flat_map {A B} (f : A -> list B) l :
  rev (flat_map f l) = flat_map (fun x => rev (f x)) (rev l).
Proof.
  induction l as [|x l IH]; [reflexivity|].
  cbn [flat_map rev]. rewrite rev_app_distr, IH, flat_map_app.
  cbn [flat_map]. now rewrite app_nil_r.
Qed.

Lemma reverse_utf16 cps : Forall scalar cps -> reverse (utf16 cps) = utf16 (rev cps).
Proof.
  intros H. rewrite reverse_reswap. unfold utf16 at 1. rewrite rev_flat_map.
  apply reswap_reversed. now apply Forall_rev.
Qed.

(** X6: [reverse] reverses the order of the characters, not of the bytes or
    of the UTF-16 code units: for text it returns the text of the reversed
    sequence of code points, characters outside the Basic Multilingual Plane
    included. *)
Theorem reverse_code_points (cps : list Z) :
  Forall text_char cps ->
  call lua_utf8_reverse [LString (utf8 cps)] = Ok [LString (utf8 (rev cps))].
Proof.
  intros H. unfold call, lua_utf8_reverse. lua_run.
  rewrite checked_text by assumption.
  rewrite reverse_utf16 by now apply text_chars_scalar.
  rewrite pushed_text by now apply Forall_rev.
  reflexivity.
Qed.

Lemma reverse_code_points_witness :
  call lua_utf8_reverse [LString (utf8 [0x61; 0x1D11E; 0x20AC])]
  = Ok [LString (utf8 (rev [0x61; 0x1D11E; 0x20AC]))].
Proof.
  apply (reverse_code_points [0x61; 0x1D11E; 0x20AC]).
  repeat constructor; (lia || discriminate || reflexivity).
Defined.

(** X7: [reverse] keeps the number of characters, whatever bytes the string
    holds. *)
Theorem reverse_keeps_len (s : bytes) :
  Forall is_byte s ->
  exists t, call lua_utf8_reverse [LString s] = Ok [LString t]
            /\ call lua_utf8_len [LString t] = call lua_utf8_len [LString s].
Proof.
  intros Hb.
  destruct (fromUTF8_text (c_str s)) as (cps & Hc & Hr);
    [now apply c_str_Forall | apply c_str_nonzero |].
  exists (utf8 (rev cps)). unfold call, lua_utf8_reverse. lua_run.
  rewrite Hr, reverse_utf16 by now apply text_chars_scalar.
  rewrite pushed_text by now apply Forall_rev.
  split; [reflexivity|].
  rewrite checked_text by now apply Forall_rev.
  rewrite !countChar32_utf16 by (try apply Forall_rev; now apply text_chars_scalar).
  now rewrite length_rev.
Qed.

Lemma reverse_keeps_len_witness :
  exists t, call lua_utf8_reverse [LString [0x61; 0xFF; 0xE2; 0x82; 0xAC]] = Ok [LString t]
            /\ call lua_utf8_len [LString t]
               = call lua_utf8_len [LString [0x61; 0xFF; 0xE2; 0x82; 0xAC]].
Proof.
  apply (reverse_keeps_len [0x61; 0xFF; 0xE2; 0x82; 0xAC]).
  repeat constructor; unfold is_byte; lia.
Defined.


(** ** codepoint and char on any input *)




(** [codepoint("abc", 5)]: nothing is pushed and -1 results are announced. *)
Example codepoint_past_the_end :
  lua_utf8_codepoint [LString (lit "abc"); LNumber 5]
  = Ok (-1, [LString (lit "abc"); LNumber 5]).
Proof. reflexivity. Qed.

(** X9: [char] builds the UTF-8 text of any sequence of characters, those
    outside the Basic Multilingual Plane included. *)
Theorem char_text (cps : list Z) :
  Forall text_char cps ->
  call lua_utf8_char (map LNumber cps) = Ok [LString (utf8 cps)].
Proof.
  intros Hb. unfold call, lua_utf8_char.
  set (L := map LNumber cps).
  bind_step (Z.of_nat (length L)) L.
  rewrite Nat2Z.id. unfold L at 1. rewrite length_map.
  pose proof (char_loop cps [] []) as Hloop. cbn [length Z.of_nat app] in Hloop.
  change (0 + 1) with 1 in Hloop.
  erewrite bind_ok by exact Hloop.
  lua_unfold. rewrite pushed_text by assumption.
  f_equal. apply (lastn_app _ [_]).
Qed.

Lemma char_text_witness :
  call lua_utf8_char (map LNumber [0x48; 0x20AC; 0x1F600])
  = Ok [LString (utf8 [0x48; 0x20AC; 0x1F600])].
Proof.
  apply (char_text [0x48; 0x20AC; 0x1F600]).
  repeat constructor; (lia || discriminate || reflexivity).
Defined.






(** ** sub: slices *)

Lemma Forall_firstn {A} (P : A -> Prop) n : forall l, Forall P l -> Forall P (firstn n l).
Proof.
  induction n as [|n IH]; intros l H; [constructor|].
  destruct H; cbn [firstn]; constructor; auto.
Qed.

Lemma Forall_skipn {A} (P : A -> Prop) n : forall l, Forall P l -> Forall P (skipn n l).
Proof.
  induction n as [|n IH]; intros l H; [assumption|].
  destruct H; cbn [skipn]; [constructor | auto].
Qed.

Lemma utf8_app a b : utf8 (a ++ b) = utf8 a ++ utf8 b.
Proof. apply flat_map_app. Qed.

(** [sub] on text of the Basic Multilingual Plane, by the range it computes. *)
Lemma sub_3_bmp cps i j :
  Forall bmp_char cps -> Z.of_nat (length cps) <= INT_MAX ->
  LONG_MIN <= i <= LONG_MAX -> LONG_MIN <= j <= LONG_MAX ->
  call lua_utf8_sub [LString (utf8 cps); LNumber i; LNumber j]
  = Ok [LString (utf8 (chars_between cps
                         (clamp 1 (Z.of_nat (length cps) + 1)
                            (from_end (Z.of_nat (length cps)) i))
                         (clamp 0 (Z.of_nat (length cps))
                            (from_end (Z.of_nat (length cps)) j))))].
Proof.
  intros Hb Hn Hi Hj.
  assert (Hc : countChar32 (fromUTF8 (c_str (utf8 cps))) = Z.of_nat (length cps))
    by (rewrite bmp_text_checked by assumption; now apply countChar32_bmp).
  rewrite sub_3 by (rewrite ?Hc; long_consts; lia). cbv zeta.
  rewrite Hc, sub_range_eq by (assumption || lia). cbv zeta. cbn [fst snd].
  rewrite bmp_text_checked by assumption.
  set (n := Z.of_nat (length cps)) in *.
  set (a := clamp 1 (n + 1) (from_end n i)).
  set (b := clamp 0 n (from_end n j)).
  assert (1 <= a <= n + 1) by (subst a; unfold clamp; lia).
  assert (0 <= b <= n) by (subst b; unfold clamp; lia).
  unfold chars_between.
  destruct (b <? a) eqn:E; bool_to_Z.
  - rewrite extractBetween_empty.
    replace (Z.to_nat (b - a + 1)) with 0%nat by lia. reflexivity.
  - rewrite extractBetween_inside by (unfold ulength; fold n; lia).
    replace (b - (a - 1)) with (b - a + 1) by lia.
    now rewrite bmp_text_pushed by now apply Forall_firstn, Forall_skipn.
Qed.

(** X11: on text of the Basic Multilingual Plane [sub(s, i, j)] is the text of
    the characters at the positions [first..last], where a negative index
    counts from the end, [first] is cut to [1..n+1] and [last] to [0..n];
    it is empty when [last < first]. *)
Theorem sub_slice (cps : list Z) (i j : Z) :
  Forall bmp_char cps -> Z.of_nat (length cps) <= INT_MAX ->
  LONG_MIN <= i <= LONG_MAX -> LONG_MIN <= j <= LONG_MAX ->
  let n := Z.of_nat (length cps) in
  let first := clamp 1 (n + 1) (from_end n i) in
  let last := clamp 0 n (from_end n j) in
  call lua_utf8_sub [LString (utf8 cps); LNumber i; LNumber j]
  = Ok [LString (utf8 (chars_between cps first last))].
Proof. intros Hb Hn Hi Hj. cbv zeta. now apply sub_3_bmp. Qed.

Lemma sub_slice_witness :
  call lua_utf8_sub [LString (utf8 [0x61; 0xE9; 0x20AC; 0x62]); LNumber (-3); LNumber 3]
  = Ok [LString (utf8 [0xE9; 0x20AC])].
Proof.
  apply (sub_slice [0x61; 0xE9; 0x20AC; 0x62] (-3) 3);
    [repeat constructor; (lia || discriminate || reflexivity) | | |];
    cbn [length]; long_consts; lia.
Defined.

(** X12: [sub] splits text of the Basic Multilingual Plane without loss: for
    every position [k], the prefix [sub(s, 1, k)] followed by the suffix
    [sub(s, k+1)] is [s]. *)
Theorem sub_split (cps : list Z) (k : Z) :
  Forall bmp_char cps -> Z.of_nat (length cps) <= INT_MAX ->
  0 <= k <= Z.of_nat (length cps) ->
  exists p q,
    call lua_utf8_sub [LString (utf8 cps); LNumber 1; LNumber k] = Ok [LString p]
    /\ call lua_utf8_sub [LString (utf8 cps); LNumber (k + 1); LNumber (-1)]
       = Ok [LString q]
    /\ call lua_utf8_sub [LString (utf8 cps); LNumber (k + 1)] = Ok [LString q]
    /\ p ++ q = utf8 cps.
Proof.
  intros Hb Hn Hk.
  assert (Hc : countChar32 (fromUTF8 (c_str (utf8 cps))) = Z.of_nat (length cps))
    by (rewrite bmp_text_checked by assumption; now apply countChar32_bmp).
  eexists _, _. split; [|split; [|split]].
  - apply sub_3_bmp; (assumption || (long_consts; lia)).
  - apply sub_3_bmp; (assumption || (long_consts; lia)).
  - rewrite sub_2 by (rewrite ?Hc; long_consts; lia).
    rewrite <- (sub_3_bmp cps (k + 1) (-1)) by (assumption || (long_consts; lia)).
    rewrite sub_3 by (rewrite ?Hc; long_consts; lia). reflexivity.
  - rewrite <- utf8_app. f_equal.
    unfold chars_between, clamp, from_end.
    set (n := Z.of_nat (length cps)) in *.
    decide_tests.
    replace (Z.max 1 (Z.min (n + 1) 1)) with 1 by lia.
    replace (Z.max 0 (Z.min n k)) with k by lia.
    replace (Z.max 1 (Z.min (n + 1) (k + 1))) with (k + 1) by lia.
    replace (Z.max 0 (Z.min n (-1 + n + 1))) with n by lia.
    replace (k - 1 + 1) with k by lia.
    replace (k + 1 - 1) with k by lia. cbn [Z.to_nat Z.sub skipn].
    replace (Z.to_nat (1 - 1)) with 0%nat by lia. cbn [skipn].
    rewrite (firstn_all2 (n := Z.to_nat (n - (k + 1) + 1)))
      by (rewrite length_skipn; subst n; lia).
    apply firstn_skipn.
Qed.

Lemma sub_split_witness :
  exists p q,
    call lua_utf8_sub [LString (utf8 [0x61; 0xE9; 0x20AC]); LNumber 1; LNumber 2]
      = Ok [LString p]
    /\ call lua_utf8_sub [LString (utf8 [0x61; 0xE9; 0x20AC]); LNumber (2 + 1); LNumber (-1)]
       = Ok [LString q]
    /\ call lua_utf8_sub [LString (utf8 [0x61; 0xE9; 0x20AC]); LNumber (2 + 1)]
       = Ok [LString q]
    /\ p ++ q = utf8 [0x61; 0xE9; 0x20AC].
Proof.
  apply (sub_split [0x61; 0xE9; 0x20AC] 2);
    [repeat constructor; (lia || discriminate || reflexivity) | |];
    cbn [length]; long_consts; lia.
Defined.


(** ** find without patterns *)

Lemma starts_with_firstn needle : forall u,
  starts_with needle u = true ->
  firstn (length needle) u = needle /\ (length needle <= length u)%nat.
Proof.
  induction needle as [|c needle IH]; intros u H; [split; [reflexivity | cbn; lia]|].
  destruct u as [|d u]; [discriminate|].
  cbn [starts_with] in H. apply andb_true_iff in H as [Hc H]. apply Z.eqb_eq in Hc.
  destruct (IH u H) as [IH1 IH2]. cbn [firstn length]. subst d.
  split; [now rewrite IH1 | lia].
Qed.

Lemma firstn_starts_with needle : forall u,
  firstn (length needle) u = needle -> starts_with needle u = true.
Proof.
  induction needle as [|c needle IH]; intros u H; [reflexivity|].
  destruct u as [|d u]; [discriminate|].
  cbn [firstn length] in H. inversion H. subst d.
  cbn [starts_with]. rewrite Z.eqb_refl. cbn [andb]. rewrite H2. now apply IH.
Qed.

Lemma indexOf_from_found needle : forall u off r,
  indexOf_from needle u off = r -> r <> -1 -> 0 <= off ->
  off <= r
  /\ starts_with needle (skipn (Z.to_nat (r - off)) u) = true
  /\ forall k, (Z.to_nat (off + Z.of_nat k) < Z.to_nat r)%nat ->
               starts_with needle (skipn k u) = false.
Proof.
  induction u as [|c u IH]; intros off r H Hr Hoff; [cbn in H; congruence|].
  cbn [indexOf_from] in H.
  destruct (starts_with needle (c :: u)) eqn:Hs.
  - subst r. rewrite Z.sub_diag. cbn [Z.to_nat skipn].
    split; [lia|]. split; [assumption|]. intros k Hk. lia.
  - destruct (IH (off + 1) r H Hr ltac:(lia)) as (H1 & H2 & H3).
    split; [lia|]. split.
    + replace (Z.to_nat (r - off)) with (S (Z.to_nat (r - (off + 1)))) by lia.
      exact H2.
    + intros [|k] Hk; [exact Hs|]. cbn [skipn]. apply H3. lia.
Qed.

Lemma indexOf_from_none needle : forall u off,
  indexOf_from needle u off = -1 -> 0 <= off ->
  forall k, (k < length u)%nat -> starts_with needle (skipn k u) = false.
Proof.
  induction u as [|c u IH]; intros off H Hoff k Hk; [cbn in Hk; lia|].
  cbn [indexOf_from] in H.
  destruct (starts_with needle (c :: u)) eqn:Hs; [lia|].
  destruct k as [|k]; [exact Hs|].
  cbn [skipn]. apply (IH (off + 1)); [assumption | lia | cbn in Hk; lia].
Qed.

(** [find] with [plain] set, once the arguments are read. *)
Lemma find_plain_run E hay needle init :
  INT_MIN <= init <= INT_MAX ->
  init <= countChar32 (fromUTF8 (c_str hay)) ->
  countChar32 (fromUTF8 (c_str hay)) < INT_MAX ->
  call (lua_utf8_find E) [LString hay; LString needle; LNumber init; LBoolean true]
  = let u := fromUTF8 (c_str hay) in
    let p := fromUTF8 (c_str needle) in
    let r := indexOf u p (Z.max 1 (from_end (countChar32 u) init) - 1) in
    if r =? -1 then Ok [LNil]
    else Ok [LNumber (r + 1); LNumber (r + countChar32 p)].
Proof.
  intros Hi Hle Hmax. unfold call, lua_utf8_find.
  pose proof (countChar32_bounds (fromUTF8 (c_str hay))) as [Hl0 _].
  set (L := [LString hay; LString needle; LNumber init; LBoolean true]).
  bind_step 4 L. bind_step (init, true) L. cbn [fst snd].
  bind_step (fromUTF8 (c_str hay)) L. bind_step (fromUTF8 (c_str needle)) L.
  set (n := countChar32 (fromUTF8 (c_str hay))) in *.
  decide_test (init >? n). cbv zeta.
  replace (int32_wrap
             ((if (if init <? 0 then int32_wrap (init + (n + 1)) else init) <? 1
               then 1
               else if init <? 0 then int32_wrap (init + (n + 1)) else init) - 1))
    with (Z.max 1 (from_end n init) - 1).
  - destruct (indexOf _ _ _ =? -1); [reflexivity|].
    lua_unfold. cbn. reflexivity.
  - unfold from_end. destruct (init <? 0) eqn:A; bool_to_Z.
    + rewrite (int32_wrap_small (init + (n + 1))) by (long_consts; lia).
      decide_tests; rewrite int32_wrap_small by (long_consts; lia); lia.
    + decide_tests; rewrite int32_wrap_small by (long_consts; lia); lia.
Qed.

(** X13: a plain search for the empty string never succeeds: [find] returns
    [nil] (and no value at all when [init] is past the end), where Lua's own
    [string.find] would report an empty match at [init]. *)
Theorem find_plain_empty_needle (E : RegexEngine) (hay needle : bytes) (init : Z) :
  c_str needle = [] -> INT_MIN <= init <= INT_MAX ->
  call (lua_utf8_find E) [LString hay; LString needle; LNumber init; LBoolean true]
  = if init >? countChar32 (fromUTF8 (c_str hay)) then Ok [] else Ok [LNil].
Proof.
  intros Hn Hi. unfold call, lua_utf8_find.
  set (L := [LString hay; LString needle; LNumber init; LBoolean true]).
  bind_step 4 L. bind_step (init, true) L. cbn [fst snd].
  bind_step (fromUTF8 (c_str hay)) L. bind_step (fromUTF8 (c_str needle)) L.
  rewrite Hn. destruct (init >? countChar32 (fromUTF8 (c_str hay))); reflexivity.
Qed.

Lemma find_plain_empty_needle_witness :
  call (lua_utf8_find mini_engine) [LString (lit "abc"); LString []; LNumber 1; LBoolean true]
  = if 1 >? countChar32 (fromUTF8 (c_str (lit "abc"))) then Ok [] else Ok [LNil].
Proof.
  apply (find_plain_empty_needle mini_engine (lit "abc") [] 1);
    [reflexivity | long_consts; lia].
Defined.

Lemma chars_between_firstn {A} (l : list A) (k : nat) (len : nat) :
  chars_between l (Z.of_nat k + 1) (Z.of_nat k + Z.of_nat len) = firstn len (skipn k l).
Proof.
  unfold chars_between. f_equal; [lia | f_equal; lia].
Qed.

Lemma pinIndex_inside len i : 0 <= i <= len -> pinIndex len i = i.
Proof. intros H. unfold pinIndex. decide_tests. reflexivity. Qed.

Lemma indexOf_cases (u needle : UnicodeString) (s : nat) :
  (s <= length u)%nat ->
  (needle = [] /\ indexOf u needle (Z.of_nat s) = -1)
  \/ (needle <> []
      /\ indexOf u needle (Z.of_nat s) = indexOf_from needle (skipn s u) (Z.of_nat s)).
Proof.
  intros H. destruct needle as [|c needle]; [now left|]. right.
  split; [discriminate|]. unfold indexOf.
  rewrite pinIndex_inside by (unfold ulength; lia). now rewrite Nat2Z.id.
Qed.

Lemma chars_between_at {A} (l : list A) (k : Z) (len : nat) :
  1 <= k ->
  chars_between l k (k + Z.of_nat len - 1) = firstn len (skipn (Z.to_nat (k - 1)) l).
Proof. intros H. unfold chars_between. f_equal. lia. Qed.

(** Where a plain search starts and what it finds, on text of the Basic
    Multilingual Plane. *)
Lemma find_plain_bmp E hs ns init :
  Forall bmp_char hs -> Forall bmp_char ns ->
  Z.of_nat (length hs) < INT_MAX -> INT_MIN <= init <= INT_MAX ->
  init <= Z.of_nat (length hs) ->
  exists s : nat,
    Z.of_nat s + 1 = Z.max 1 (from_end (Z.of_nat (length hs)) init)
    /\ call (lua_utf8_find E)
         [LString (utf8 hs); LString (utf8 ns); LNumber init; LBoolean true]
       = let r := indexOf hs ns (Z.of_nat s) in
         if r =? -1 then Ok [LNil]
         else Ok [LNumber (r + 1); LNumber (r + Z.of_nat (length ns))].
Proof.
  intros Hh Hn Hmax Hi Hle.
  assert (Hc : countChar32 (fromUTF8 (c_str (utf8 hs))) = Z.of_nat (length hs))
    by (rewrite bmp_text_checked by assumption; now apply countChar32_bmp).
  set (n := Z.of_nat (length hs)) in *.
  exists (Z.to_nat (Z.max 1 (from_end n init) - 1)).
  assert (Hs : 0 <= Z.max 1 (from_end n init) - 1 <= n)
    by (unfold from_end; destruct (init <? 0) eqn:A; bool_to_Z; lia).
  split; [lia|].
  rewrite find_plain_run by (rewrite ?Hc; assumption). cbv zeta.
  rewrite !bmp_text_checked by assumption.
  rewrite (countChar32_bmp hs), (countChar32_bmp ns) by assumption. fold n.
  rewrite Z2Nat.id by lia. reflexivity.
Qed.

(** X14: what a plain [find] returns is where the needle is: on text of the
    Basic Multilingual Plane, when [find(s, needle, init, true)] returns
    [a, b], then [sub(s, a, b)] is the needle; [a] is not before the start
    position, [b - a + 1] is the length of the needle, and the needle occurs
    at no position between the start position and [a]. *)
Theorem find_plain_sub (E : RegexEngine) (hs ns : list Z) (init a b : Z) :
  Forall bmp_char hs -> Forall bmp_char ns ->
  Z.of_nat (length hs) < INT_MAX -> INT_MIN <= init <= INT_MAX ->
  call (lua_utf8_find E)
    [LString (utf8 hs); LString (utf8 ns); LNumber init; LBoolean true]
  = Ok [LNumber a; LNumber b] ->
  let start := Z.max 1 (from_end (Z.of_nat (length hs)) init) in
  call lua_utf8_sub [LString (utf8 hs); LNumber a; LNumber b] = Ok [LString (utf8 ns)]
  /\ start <= a
  /\ b = a + Z.of_nat (length ns) - 1
  /\ forall k, start <= k < a ->
               chars_between hs k (k + Z.of_nat (length ns) - 1) <> ns.
Proof.
  intros Hh Hn Hmax Hi Hf start.
  assert (Hc : countChar32 (fromUTF8 (c_str (utf8 hs))) = Z.of_nat (length hs))
    by (rewrite bmp_text_checked by assumption; now apply countChar32_bmp).
  destruct (Z_lt_le_dec (Z.of_nat (length hs)) init) as [Hgt|Hle].
  { rewrite find_past_end_4 in Hf by (rewrite ?Hc; assumption). discriminate. }
  destruct (find_plain_bmp E hs ns init Hh Hn Hmax Hi Hle) as (s & Hs & Hrun).
  rewrite Hrun in Hf. clear Hrun. fold start in Hs. cbv zeta in Hf.
  assert (Hsl : (s <= length hs)%nat)
    by (subst start; unfold from_end in Hs; destruct (init <? 0) eqn:A; bool_to_Z; lia).
  destruct (indexOf_cases hs ns s Hsl) as [[_ Hx] | [Hne Hx]]; rewrite Hx in Hf;
    [discriminate|]. clear Hx.
  assert (Hlen : (0 < length ns)%nat) by (destruct ns; [congruence | cbn; lia]).
  destruct (indexOf_from ns (skipn s hs) (Z.of_nat s) =? -1) eqn:Hr; [discriminate|].
  apply Z.eqb_neq in Hr. injection Hf as Ha Hb. subst a b.
  destruct (indexOf_from_found ns _ _ _ eq_refl Hr ltac:(lia)) as (H1 & H2 & H3).
  set (r := indexOf_from ns (skipn s hs) (Z.of_nat s)) in *.
  rewrite skipn_skipn in H2.
  replace (Z.to_nat (r - Z.of_nat s) + s)%nat with (Z.to_nat r) in H2 by lia.
  apply starts_with_firstn in H2 as [H2 H2'].
  rewrite length_skipn in H2'.
  split; [|split; [lia | split; [lia|]]].
  - rewrite sub_3_bmp by (assumption || (long_consts; lia)).
    unfold clamp, from_end. decide_tests. do 3 f_equal.
    replace (Z.max 1 (Z.min (Z.of_nat (length hs) + 1) (r + 1)))
      with (Z.of_nat (Z.to_nat r) + 1) by lia.
    replace (Z.max 0 (Z.min (Z.of_nat (length hs)) (r + Z.of_nat (length ns))))
      with (Z.of_nat (Z.to_nat r) + Z.of_nat (length ns)) by lia.
    now rewrite chars_between_firstn, H2.
  - intros k Hk Heq.
    specialize (H3 (Z.to_nat (k - 1) - s)%nat ltac:(lia)).
    rewrite skipn_skipn in H3.
    replace (Z.to_nat (k - 1) - s + s)%nat with (Z.to_nat (k - 1)) in H3 by lia.
    rewrite chars_between_at in Heq by lia.
    rewrite firstn_starts_with in H3 by exact Heq. discriminate.
Qed.

Lemma find_plain_sub_witness :
  call lua_utf8_sub [LString (utf8 [0x61; 0x20AC; 0x62; 0x20AC; 0x62]); LNumber 4; LNumber 5]
  = Ok [LString (utf8 [0x20AC; 0x62])].
Proof.
  refine (proj1 (find_plain_sub mini_engine [0x61; 0x20AC; 0x62; 0x20AC; 0x62]
                   [0x20AC; 0x62] 3 4 5 _ _ _ _ _)).
  - repeat constructor; (lia || discriminate || reflexivity).
  - repeat constructor; (lia || discriminate || reflexivity).
  - cbn [length]. long_consts. lia.
  - long_consts. lia.
  - reflexivity.
Defined.

(** X15: a plain [find] that returns [nil] for a needle that is not empty has
    looked everywhere: on text of the Basic Multilingual Plane the needle
    occurs at no position from the start position on. *)
Theorem find_plain_nil (E : RegexEngine) (hs ns : list Z) (init : Z) :
  Forall bmp_char hs -> Forall bmp_char ns -> ns <> [] ->
  Z.of_nat (length hs) < INT_MAX -> INT_MIN <= init <= INT_MAX ->
  call (lua_utf8_find E)
    [LString (utf8 hs); LString (utf8 ns); LNumber init; LBoolean true]
  = Ok [LNil] ->
  forall k, Z.max 1 (from_end (Z.of_nat (length hs)) init) <= k ->
            chars_between hs k (k + Z.of_nat (length ns) - 1) <> ns.
Proof.
  intros Hh Hn Hne Hmax Hi Hf k Hk Heq.
  assert (Hc : countChar32 (fromUTF8 (c_str (utf8 hs))) = Z.of_nat (length hs))
    by (rewrite bmp_text_checked by assumption; now apply countChar32_bmp).
  destruct (Z_lt_le_dec (Z.of_nat (length hs)) init) as [Hgt|Hle].
  { rewrite find_past_end_4 in Hf by (rewrite ?Hc; assumption). discriminate. }
  destruct (find_plain_bmp E hs ns init Hh Hn Hmax Hi Hle) as (s & Hs & Hrun).
  rewrite Hrun in Hf. clear Hrun. cbv zeta in Hf.
  assert (Hsl : (s <= length hs)%nat)
    by (unfold from_end in Hs; destruct (init <? 0) eqn:A; bool_to_Z; lia).
  destruct (indexOf_cases hs ns s Hsl) as [[Hx _] | [_ Hx]]; [congruence|].
  rewrite Hx in Hf. clear Hx.
  destruct (indexOf_from ns (skipn s hs) (Z.of_nat s) =? -1) eqn:Hr; [|discriminate].
  apply Z.eqb_eq in Hr.
  assert (Hfirst : firstn (length ns) (skipn (Z.to_nat (k - 1)) hs) = ns)
    by (rewrite <- chars_between_at by lia; exact Heq).
  destruct (Nat.lt_ge_cases (Z.to_nat (k - 1)) (length hs)) as [Hin|Hout].
  - pose proof (indexOf_from_none ns _ _ Hr ltac:(lia) (Z.to_nat (k - 1) - s)%nat) as H.
    rewrite length_skipn, skipn_skipn in H.
    replace (Z.to_nat (k - 1) - s + s)%nat with (Z.to_nat (k - 1)) in H by lia.
    rewrite firstn_starts_with in H by assumption.
    specialize (H ltac:(lia)). discriminate.
  - rewrite skipn_all2, firstn_nil in Hfirst by assumption. congruence.
Qed.

Lemma find_plain_nil_witness :
  chars_between [0x61; 0x62; 0x63; 0x61] 3 (3 + Z.of_nat (length [0x61; 0x62]) - 1)
  <> [0x61; 0x62].
Proof.
  refine (find_plain_nil mini_engine [0x61; 0x62; 0x63; 0x61] [0x61; 0x62] 2 _ _ _ _ _ _ 3 _).
  - repeat constructor; (lia || discriminate || reflexivity).
  - repeat constructor; (lia || discriminate || reflexivity).
  - discriminate.
  - cbn [length]. long_consts. lia.
  - long_consts. lia.
  - reflexivity.
  - vm_compute. discriminate.
Defined.


(** ** Captures and pending matches *)

Section CapturesPending.

Variable E : RegexEngine.

(** The same, read through [pending]. *)
Lemma found_values_pending (m : RegexMatcher E) fuel :
  found_values E m
  = match pending (S fuel) m with
    | [] => [LNil]
    | r :: _ => captures (groupCount m) (fInput m) r
    end.
Proof.
  pose proof (find_pending E m fuel) as Hp.
  destruct (find_keeps E m) as (_ & Hin & Hpat & _).
  unfold found_values.
  destruct (pending (S fuel) m) as [|r rest].
  - now rewrite Hp.
  - destruct Hp as (-> & _ & -> & _).
    unfold groupCount. now rewrite Hpat, Hin.
Qed.

End CapturesPending.


(** ** find and match with a pattern *)

Lemma first_match E (prog : regex_prog E) pattern input pos :
  match regex_exec E prog input pos with
  | None => fst (find (fresh_matcher prog pattern input pos)) = false
  | Some r =>
    fst (find (fresh_matcher prog pattern input pos)) = true
    /\ fMatch (snd (find (fresh_matcher prog pattern input pos))) = true
    /\ result_of (snd (find (fresh_matcher prog pattern input pos))) = r
  end.
Proof.
  unfold find, fresh_matcher, search. cbn.
  destruct (regex_exec E prog input pos) as [r|]; [|reflexivity].
  cbn. now destruct r.
Qed.

Lemma pending_fresh E (prog : regex_prog E) pattern input pos :
  pending 1 (fresh_matcher prog pattern input pos)
  = match regex_exec E prog input pos with
    | None => []
    | Some r => [r]
    end.
Proof.
  unfold pending, fresh_matcher, next_pos. cbn.
  destruct (regex_exec E prog input pos) as [r|]; [|reflexivity].
  now destruct (resume input r).
Qed.

(** [find] with a pattern, started inside the haystack. *)
Lemma find_regex_run E hay needle init prog :
  regex_compile E (fromUTF8 (c_str needle)) = inr prog ->
  1 <= init <= countChar32 (fromUTF8 (c_str hay)) ->
  countChar32 (fromUTF8 (c_str hay)) <= INT_MAX ->
  call (lua_utf8_find E) [LString hay; LString needle; LNumber init]
  = let input := fromUTF8 (c_str hay) in
    match regex_exec E prog input (Z.to_nat (init - 1)) with
    | Some r =>
      Ok (LNumber (Z.of_nat (m_start r) + 1) :: LNumber (Z.of_nat (m_end r))
            :: group_values (regex_groupCount E prog) input r)
    | None => Ok [LNil]
    end.
Proof.
  intros Hc Hi Hmax. unfold call, lua_utf8_find.
  pose proof (countChar32_bounds (fromUTF8 (c_str hay))) as [_ Hlen].
  set (L := [LString hay; LString needle; LNumber init]).
  bind_step 3 L. bind_step (init, false) L. cbn [fst snd].
  bind_step (fromUTF8 (c_str hay)) L. bind_step (fromUTF8 (c_str needle)) L.
  set (input := fromUTF8 (c_str hay)) in *.
  decide_test (init >? countChar32 input).
  decide_test (init <? 0). decide_test (init <? 1).
  rewrite int32_wrap_small by (long_consts; lia).
  rewrite (RegexMatcher_new_ok _ _ _ Hc).
  unfold find_at. rewrite reset_at_ok by (unfold ulength; lia).
  pose proof (first_match E prog (fromUTF8 (c_str needle)) input (Z.to_nat (init - 1)))
    as Hf.
  destruct (find_keeps E (fresh_matcher prog (fromUTF8 (c_str needle)) input
                            (Z.to_nat (init - 1)))) as (_ & Hin & Hpat & _).
  destruct (find _) as [found m1]. cbn [fst snd] in *. cbv zeta.
  destruct (regex_exec E prog input (Z.to_nat (init - 1))) as [r|].
  - destruct Hf as (-> & Hm & Hr).
    assert (Hg : groupCount m1 = regex_groupCount E prog)
      by (unfold groupCount; now rewrite Hpat).
    erewrite bind_ok by reflexivity. erewrite bind_ok by reflexivity.
    erewrite bind_ok by (apply push_groups_run; assumption).
    unfold ret. rewrite Hg, Hin, Hr.
    change (fMatchStart m1) with (m_start (result_of m1)).
    change (fMatchEnd m1) with (m_end (result_of m1)). rewrite Hr.
    f_equal. rewrite <- !app_assoc. cbn [app].
    set (vs := LNumber _ :: LNumber _ :: group_values _ _ _).
    replace (Z.to_nat (2 + Z.of_nat (regex_groupCount E prog))) with (length vs)
      by (subst vs; cbn [length]; unfold group_values;
          rewrite length_map, length_seq; lia).
    apply lastn_app.
  - subst found. reflexivity.
Qed.

(** [match], started inside the haystack. *)
Lemma match_regex_run E hay needle init prog :
  regex_compile E (fromUTF8 (c_str needle)) = inr prog ->
  1 <= init <= countChar32 (fromUTF8 (c_str hay)) ->
  countChar32 (fromUTF8 (c_str hay)) <= INT_MAX ->
  call (lua_utf8_match E) [LString hay; LString needle; LNumber init]
  = let input := fromUTF8 (c_str hay) in
    match regex_exec E prog input (Z.to_nat (init - 1)) with
    | Some r => Ok (captures (regex_groupCount E prog) input r)
    | None => Ok [LNil]
    end.
Proof.
  intros Hc Hi Hmax. unfold call, lua_utf8_match.
  pose proof (countChar32_bounds (fromUTF8 (c_str hay))) as [_ Hlen].
  set (L := [LString hay; LString needle; LNumber init]).
  bind_step 3 L. bind_step init L.
  bind_step (fromUTF8 (c_str hay)) L. bind_step (fromUTF8 (c_str needle)) L.
  set (input := fromUTF8 (c_str hay)) in *.
  decide_test (countChar32 input =? 0).
  decide_test (init >? countChar32 input).
  decide_test (init <? 0). decide_test (init <? 1).
  rewrite wrap_long_small by (long_consts; lia).
  rewrite (RegexMatcher_new_ok _ _ _ Hc).
  rewrite reset_at_ok by (unfold ulength; lia).
  fold (call (r <- aux_match E (fresh_matcher prog (fromUTF8 (c_str needle)) input
                                  (Z.to_nat (init - 1))) ;; ret (fst r)) L).
  rewrite aux_match_call, (found_values_pending E _ 0), pending_fresh. cbv zeta.
  now destruct (regex_exec E prog input (Z.to_nat (init - 1))).
Qed.

(** X16: [find] and [match] report the same match, the first one the engine
    finds from the offset [init - 1] on: [find] returns its first and last
    position, counted in UTF-16 code units from 1, and then its capture
    groups; [match] returns its capture groups, or the whole match when the
    pattern has no group; both return [nil] when there is no match. *)
Theorem find_match_agree (E : RegexEngine) (hay needle : bytes) (init : Z)
    (prog : regex_prog E) :
  regex_compile E (fromUTF8 (c_str needle)) = inr prog ->
  1 <= init <= countChar32 (fromUTF8 (c_str hay)) ->
  countChar32 (fromUTF8 (c_str hay)) <= INT_MAX ->
  let input := fromUTF8 (c_str hay) in
  let ng := regex_groupCount E prog in
  match regex_exec E prog input (Z.to_nat (init - 1)) with
  | Some r =>
    call (lua_utf8_find E) [LString hay; LString needle; LNumber init]
    = Ok (LNumber (Z.of_nat (m_start r) + 1) :: LNumber (Z.of_nat (m_end r))
            :: group_values ng input r)
    /\ call (lua_utf8_match E) [LString hay; LString needle; LNumber init]
       = Ok (if (ng =? 0)%nat
             then [LString (c_str (to_utf8 (substring input (m_start r) (m_end r))))]
             else group_values ng input r)
  | None =>
    call (lua_utf8_find E) [LString hay; LString needle; LNumber init] = Ok [LNil]
    /\ call (lua_utf8_match E) [LString hay; LString needle; LNumber init] = Ok [LNil]
  end.
Proof.
  intros Hc Hi Hmax input ng.
  rewrite (find_regex_run E hay needle init prog Hc Hi Hmax).
  rewrite (match_regex_run E hay needle init prog Hc Hi Hmax). cbv zeta.
  fold input ng.
  destruct (regex_exec E prog input (Z.to_nat (init - 1))) as [r|]; [|easy].
  split; [reflexivity|]. unfold captures, result_group.
  now destruct (ng =? 0)%nat eqn:E0.
Qed.


Lemma find_match_agree_witness :
  call (lua_utf8_find mini_engine)
    [LString (lit "abcbc"); LString (lit "(b)(c)"); LNumber 3]
  = Ok [LNumber 4; LNumber 5; LString (lit "b"); LString (lit "c")]
  /\ call (lua_utf8_match mini_engine)
       [LString (lit "abcbc"); LString (lit "(b)(c)"); LNumber 3]
     = Ok [LString (lit "b"); LString (lit "c")].
Proof.
  exact (find_match_agree mini_engine (lit "abcbc") (lit "(b)(c)") 3 prog_b_c
           eq_refl
           ltac:(vm_compute; split; discriminate)
           ltac:(vm_compute; discriminate)).
Defined.

(** ** gmatch: the iteration *)

Section Iteration.

Variable E : RegexEngine.
Hypothesis exec_bounds : forall prog input pos r,
  regex_exec E prog input pos = Some r ->
  (pos <= m_start r /\ m_start r <= m_end r /\ m_end r <= length input)%nat.

(** After a search that found nothing, no search finds anything. *)
Lemma pending_exhausted (m : RegexMatcher E) fuel fuel' :
  pending (S fuel) m = [] -> pending fuel' (snd (find m)) = [].
Proof.
  unfold pending, next_pos, find, resume, result_of, search, no_match.
  cbn [m_start m_end].
  destruct (fMatch m) eqn:Hm.
  - destruct (fMatchStart m =? fMatchEnd m)%nat.
    + destruct (length (fInput m) <=? fMatchEnd m)%nat.
      * intros _. cbn. reflexivity.
      * cbn [matches_from].
        destruct (regex_exec E (fPattern m) (fInput m) _); [discriminate|].
        intros _. cbn. reflexivity.
    + cbn [matches_from].
      destruct (regex_exec E (fPattern m) (fInput m) _); [discriminate|].
      intros _. cbn. reflexivity.
  - destruct (fLastMatchEnd m) eqn:Hl.
    + intros _. cbn [snd]. now rewrite Hm, Hl.
    + cbn [matches_from].
      destruct (regex_exec E (fPattern m) (fInput m) (fMatchEnd m)) eqn:Hx;
        [discriminate|].
      intros _. cbn. destruct fuel'; [reflexivity|].
      cbn [matches_from]. now rewrite Hx.
Qed.

Lemma gmatch_calls_pending args k : forall (w : RegexWrapper E) fuel,
  (forall extra, pending (fuel + extra) (matcher E w) = pending fuel (matcher E w)) ->
  gmatch_calls E args k w
  = Ok (map (captures (groupCount (matcher E w)) (fInput (matcher E w)))
          (firstn k (pending fuel (matcher E w)))
        ++ repeat [LNil] (k - length (pending fuel (matcher E w)))).
Proof.
  induction k as [|k IH]; intros w fuel Hst; [reflexivity|].
  cbn [gmatch_calls]. unfold lua_utf8_gmatch_iter.
  erewrite bind_ok by apply aux_match_run. unfold ret. cbn [fst snd].
  rewrite Nat2Z.id, lastn_app, (found_values_pending E _ fuel).
  destruct (find_keeps E (matcher E w)) as (_ & Hin & Hpat & _).
  assert (Hg : groupCount (snd (find (matcher E w))) = groupCount (matcher E w))
    by (unfold groupCount; now rewrite Hpat).
  assert (Hs1 : pending (S fuel) (matcher E w) = pending fuel (matcher E w))
    by (rewrite <- (Hst 1%nat); f_equal; lia).
  destruct (pending fuel (matcher E w)) as [|r rest] eqn:Hpen.
  - rewrite Hs1.
    rewrite (IH _ 0%nat); cbn [matcher].
    + rewrite (pending_exhausted _ fuel 0%nat Hs1).
      cbn [firstn map app length]. rewrite firstn_nil. cbn [map app].
      now rewrite !Nat.sub_0_r.
    + intros extra. now rewrite !(pending_exhausted _ fuel _ Hs1).
  - rewrite Hs1.
    assert (Hrest : forall extra,
               pending (fuel + extra) (snd (find (matcher E w))) = rest).
    { intros extra. pose proof (find_pending E (matcher E w) (fuel + extra)) as Hp.
      replace (S (fuel + extra)) with (fuel + S extra)%nat in Hp by lia.
      rewrite Hst in Hp. rewrite ?Hpen in Hp. now destruct Hp as (_ & _ & _ & Hp & _). }
    rewrite (IH _ fuel); cbn [matcher].
    + rewrite Hg, Hin. rewrite <- (Nat.add_0_r fuel) at 1 2. rewrite Hrest.
      reflexivity.
    + intros extra. rewrite Hrest. rewrite <- (Nat.add_0_r fuel) at 1. now rewrite Hrest.
Qed.

(** [gmatch] itself: it leaves a closure whose matcher is set on the
    haystack. *)
Lemma gmatch_run hay needle prog :
  regex_compile E (fromUTF8 (c_str needle)) = inr prog ->
  lua_utf8_gmatch E [LString hay; LString needle]
  = Ok ((1, {| matcher := fresh_matcher prog (fromUTF8 (c_str needle))
                            (fromUTF8 (c_str hay)) 0;
               text := fromUTF8 (c_str hay) |}),
        [LString hay; LString needle; LFunction 0]).
Proof.
  intros Hc. unfold lua_utf8_gmatch. set (L0 := [LString hay; LString needle]).
  bind_step tt L0. bind_step (fromUTF8 (c_str hay)) L0.
  bind_step (fromUTF8 (c_str needle)) L0.
  unfold RegexWrapper_new. rewrite (RegexMatcher_new_ok _ _ _ Hc). reflexivity.
Qed.

End Iteration.

(** X17: the iterator of [gmatch] enumerates the matches: called [k] times, on
    whatever arguments, it returns the captures of the first [k] matches of
    the pattern in the haystack, from left to right and without overlap,
    and [nil] each time it is called after the last match. *)
Theorem gmatch_enumerates (E : RegexEngine) (hay needle : bytes) (prog : regex_prog E)
    (args : lua_State) (k : nat) :
  (forall prog input pos r,
      regex_exec E prog input pos = Some r ->
      (pos <= m_start r /\ m_start r <= m_end r /\ m_end r <= length input)%nat) ->
  regex_compile E (fromUTF8 (c_str needle)) = inr prog ->
  let input := fromUTF8 (c_str hay) in
  let ms := all_matches E prog input in
  exists w,
    lua_utf8_gmatch E [LString hay; LString needle]
    = Ok ((1, w), [LString hay; LString needle; LFunction 0])
    /\ gmatch_calls E args k w
       = Ok (map (captures (regex_groupCount E prog) input) (firstn k ms)
             ++ repeat [LNil] (k - length ms)).
Proof.
  intros Hx Hc input ms. eexists. split; [exact (gmatch_run E hay needle prog Hc)|].
  rewrite (gmatch_calls_pending E args k _ (length input + 2)); [reflexivity|].
  intros extra. cbn [matcher]. unfold pending. cbn.
  apply (all_matches_stable E Hx).
Qed.

Lemma gmatch_enumerates_witness :
  exists w,
    lua_utf8_gmatch mini_engine [LString (lit "a1b22"); LString (lit "[0-9]")]
    = Ok ((1, w), [LString (lit "a1b22"); LString (lit "[0-9]"); LFunction 0])
    /\ gmatch_calls mini_engine [LNil; LString (lit "x")] 5 w
       = Ok [[LString (lit "1")]; [LString (lit "2")]; [LString (lit "2")];
             [LNil]; [LNil]].
Proof.
  exact (gmatch_enumerates mini_engine (lit "a1b22") (lit "[0-9]") prog_digit
           [LNil; LString (lit "x")] 5 mini_exec_bounds eq_refl).
Defined.


(** ** gsub: a function as replacement *)

Lemma lua_call_string host_call (L : lua_State) s rest :
  lua_call host_call (Z.of_nat (length rest)) (L ++ LString s :: rest)
  = Raise (LuaError (lit "attempt to call a string value")).
Proof.
  replace (L ++ LString s :: rest) with ((L ++ [LString s]) ++ rest)
    by (now rewrite <- app_assoc).
  unfold lua_call. rewrite Nat2Z.id. cbv zeta.
  replace (length ((L ++ [LString s]) ++ rest) - length rest)%nat
    with (length (L ++ [LString s]))
    by (rewrite !length_app; cbn [length]; lia).
  rewrite firstn_app, firstn_all, Nat.sub_diag, firstn_O, app_nil_r.
  rewrite rev_app_distr. reflexivity.
Qed.

Lemma index_value_app (L rest : lua_State) i :
  0 < i <= Z.of_nat (length L) -> index_value (L ++ rest) i = index_value L i.
Proof.
  intros H. unfold index_value. decide_test (i >? 0).
  apply nth_error_app1. lia.
Qed.

Section GsubFunction.

Variable E : RegexEngine.
Variable host_call : nat -> list lua_value -> result lua_value.

(** Lines 568-590: the function is pushed above its arguments, so what
    [lua_call] takes for the callee is the first argument, a string. *)
Lemma function_replacement (m : RegexMatcher E) repl (L : lua_State) f :
  fMatch m = true ->
  index_value L 3 = Some (LFunction f) -> (3 <= length L)%nat ->
  gsub_replacement E host_call 0 m repl L
  = Raise (LuaError (lit "attempt to call a string value")).
Proof.
  intros Hm Hf Hl. unfold gsub_replacement. cbn [Z.eqb].
  apply bind_raise.
  destruct (groupCount m =? 0)%nat eqn:E0.
  - rewrite group_found by (assumption || lia).
    erewrite bind_ok by reflexivity.
    erewrite bind_ok with (a := tt)
      (L' := L ++ [LString (c_str (to_utf8 (result_group (groupCount m) (fInput m)
                                              (result_of m) 0))); LFunction f]).
    + apply (lua_call_string host_call L _ [LFunction f]).
    + unfold lua_pushvalue, lua_at, bind, ret, pushustring, lua_pushstring, lua_push.
      rewrite index_value_app by lia. rewrite Hf. now rewrite <- app_assoc.
  - apply Nat.eqb_neq in E0.
    erewrite bind_ok by (apply push_groups_run; assumption).
    unfold group_values.
    destruct (groupCount m) as [|k] eqn:Hg; [congruence|].
    cbn [seq map].
    set (rest := map _ (seq 2 k)).
    erewrite bind_ok with (a := tt)
      (L' := L ++ LString (c_str (to_utf8 (result_group (S k) (fInput m) (result_of m) 1)))
                 :: (rest ++ [LFunction f])).
    + replace (Z.of_nat (S k)) with (Z.of_nat (length (rest ++ [LFunction f])))
        by (subst rest; rewrite length_app, length_map, length_seq; cbn [length]; lia).
      apply lua_call_string.
    + unfold lua_pushvalue, lua_at, bind, ret, lua_push.
      rewrite index_value_app by lia. rewrite Hf.
      rewrite <- app_assoc. reflexivity.
Qed.

Lemma gsub_function_run f (L : lua_State) n hay needle prog r :
  regex_exec E prog (fromUTF8 (c_str hay)) 0 = Some r ->
  index_value L 3 = Some (LFunction f) -> (3 <= length L)%nat ->
  n <> 0 ->
  gsub_loop E host_call (gsub_fuel (fromUTF8 (c_str hay))) 0 n
    {| g_matcher := reset (fresh_matcher prog (fromUTF8 (c_str needle)) [] 0)
                      (fromUTF8 (c_str hay));
       g_repl := []; g_r := []; g_counter := 0 |} L
  = Raise (LuaError (lit "attempt to call a string value")).
Proof.
  intros Hx Hf Hl Hn. unfold gsub_fuel.
  replace (length (fromUTF8 (c_str hay)) + 2)%nat
    with (S (length (fromUTF8 (c_str hay)) + 1)) by lia.
  cbn [gsub_loop g_matcher g_counter g_repl g_r].
  pose proof (first_match E prog (fromUTF8 (c_str needle)) (fromUTF8 (c_str hay)) 0) as H.
  rewrite Hx in H. destruct H as (H1 & H2 & _).
  change (reset (fresh_matcher prog (fromUTF8 (c_str needle)) [] 0) (fromUTF8 (c_str hay)))
    with (fresh_matcher prog (fromUTF8 (c_str needle)) (fromUTF8 (c_str hay)) 0).
  destruct (find _) as [found m1]. cbn [fst snd] in *. subst found. cbn [negb].
  decide_test (0 =? n).
  apply bind_raise. now apply (function_replacement m1 [] L f).
Qed.

End GsubFunction.

(** X18: a function given as replacement is never called: as soon as there is
    a match to replace, [gsub] raises "attempt to call a string value",
    whatever the function.  (The function is pushed after its arguments, so
    [lua_call] takes the first argument, a string, for the callee.) *)
Theorem gsub_function_raises (E : RegexEngine)
    (host_call : nat -> list lua_value -> result lua_value)
    (hay needle : bytes) (f : nat) (n : Z) (prog : regex_prog E) (r : MatchResult) :
  regex_compile E (fromUTF8 (c_str needle)) = inr prog ->
  regex_exec E prog (fromUTF8 (c_str hay)) 0 = Some r ->
  INT_MIN <= n <= INT_MAX -> n <> 0 ->
  call (lua_utf8_gsub E host_call) [LString hay; LString needle; LFunction f]
  = Raise (LuaError (lit "attempt to call a string value"))
  /\ call (lua_utf8_gsub E host_call)
       [LString hay; LString needle; LFunction f; LNumber n]
     = Raise (LuaError (lit "attempt to call a string value")).
Proof.
  intros Hc Hx Hn Hn0. split.
  - unfold call, lua_utf8_gsub.
    set (L := [LString hay; LString needle; LFunction f]).
    bind_step 3 L. bind_step (-1) L.
    bind_step (fromUTF8 (c_str hay)) L. bind_step (fromUTF8 (c_str needle)) L.
    bind_step true L. bind_step false L. bind_step (0, @nil Z) L. cbn [fst snd].
    rewrite (RegexMatcher_new_ok _ _ _ Hc).
    erewrite bind_raise; [reflexivity|].
    apply (gsub_function_run E host_call f L (-1) hay needle prog r Hx);
      [reflexivity | cbn; lia | lia].
  - unfold call, lua_utf8_gsub.
    set (L := [LString hay; LString needle; LFunction f; LNumber n]).
    bind_step 4 L. bind_step n L.
    bind_step (fromUTF8 (c_str hay)) L. bind_step (fromUTF8 (c_str needle)) L.
    bind_step true L. bind_step false L. bind_step (0, @nil Z) L. cbn [fst snd].
    rewrite (RegexMatcher_new_ok _ _ _ Hc).
    erewrite bind_raise; [reflexivity|].
    apply (gsub_function_run E host_call f L n hay needle prog r Hx);
      [reflexivity | cbn; lia | assumption].
Qed.

Lemma gsub_function_raises_witness :
  call (lua_utf8_gsub mini_engine (fun _ _ => Ok (LString (lit "x"))))
    [LString (lit "aaa"); LString (lit "a"); LFunction 7]
  = Raise (LuaError (lit "attempt to call a string value"))
  /\ call (lua_utf8_gsub mini_engine (fun _ _ => Ok (LString (lit "x"))))
       [LString (lit "aaa"); LString (lit "a"); LFunction 7; LNumber 1]
     = Raise (LuaError (lit "attempt to call a string value")).
Proof.
  refine (gsub_function_raises mini_engine (fun _ _ => Ok (LString (lit "x")))
            (lit "aaa") (lit "a") 7 1 prog_a _ eq_refl eq_refl _ _).
  - vm_compute. intuition discriminate.
  - discriminate.
Defined.

(** ** getProperty *)

Lemma value_loop (h : Z -> lua_value) (body : Z -> unit -> Lua unit) n :
  (forall i L, body i tt L = Ok (tt, L ++ [h i])) ->
  forall a (L : lua_State),
  for_loop n a body tt L
  = Ok (tt, L ++ map (fun k => h (a + Z.of_nat k)) (seq 0 n)).
Proof.
  intros Hbody. induction n as [|n IH]; intros a L.
  - cbn. unfold ret. now rewrite app_nil_r.
  - cbn [for_loop]. erewrite bind_ok by apply Hbody.
    rewrite IH, <- app_assoc. cbn [seq map app]. rewrite Z.add_0_r.
    rewrite <- seq_shift, map_map. do 4 f_equal.
    apply map_ext. intros k. f_equal. lia.
Qed.

Lemma charAt_units (F : Z -> lua_value) (u : UnicodeString) n :
  (n <= length u)%nat ->
  map (fun k => F (charAt u (0 + Z.of_nat k))) (seq 0 n) = map F (firstn n u).
Proof.
  revert u. induction n as [|n IH]; intros u Hn; [reflexivity|].
  destruct u as [|c u]; [cbn in Hn; lia|].
  cbn [seq map firstn]. f_equal.
  rewrite <- seq_shift, map_map. rewrite <- (IH u) by (cbn in Hn; lia).
  apply map_ext_in. intros k Hk. apply in_seq in Hk. f_equal.
  unfold charAt, ulength. cbn [length] in *.
  decide_test ((0 <=? 0 + Z.of_nat (S k)) && (0 + Z.of_nat (S k) <? Z.of_nat (S (length u)))).
  decide_test ((0 <=? 0 + Z.of_nat k) && (0 + Z.of_nat k <? Z.of_nat (length u))).
  replace (Z.to_nat (0 + Z.of_nat (S k))) with (S k) by lia.
  replace (Z.to_nat (0 + Z.of_nat k)) with k by lia. reflexivity.
Qed.

(** X19: [getProperty(s, name)] returns as many values as [s] has code points,
    and the value at position [i] is the name of the property's value at the
    [i]-th UTF-16 code unit of [s]: on text of the Basic Multilingual Plane
    that is one value for each character, in order. *)
Theorem get_property_values (D : UCharDatabase) (lua_number2str : Z -> bytes)
    (s prop_ : bytes) :
  let u := fromUTF8 (c_str s) in
  call (lua_utf8_get_property D lua_number2str) [LString s; LString prop_]
  = Ok (map (property_value D (c_str prop_)) (firstn (Z.to_nat (countChar32 u)) u))
  /\ (forall cps, Forall bmp_char cps -> s = utf8 cps ->
      call (lua_utf8_get_property D lua_number2str) [LString s; LString prop_]
      = Ok (map (property_value D (c_str prop_)) cps)).
Proof.
  intros u.
  assert (Hrun : call (lua_utf8_get_property D lua_number2str) [LString s; LString prop_]
                 = Ok (map (property_value D (c_str prop_))
                         (firstn (Z.to_nat (countChar32 u)) u))).
  { unfold call, lua_utf8_get_property.
    set (L := [LString s; LString prop_]).
    bind_step tt L. bind_step u L.
    erewrite bind_ok with (a := c_str prop_) (L' := L) by reflexivity.
    erewrite bind_ok; cycle 1.
    { apply (value_loop (fun i => property_value D (c_str prop_) (charAt u i))).
      intros i L0. unfold property_value. cbv zeta.
      destruct (u_getPropertyValueName D _ _ U_SHORT_PROPERTY_NAME); [reflexivity|].
      destruct (u_getPropertyValueName D _ _ U_LONG_PROPERTY_NAME); reflexivity. }
    pose proof (countChar32_bounds u) as [H0 H1].
    rewrite (charAt_units (property_value D (c_str prop_)) u) by lia.
    unfold ret. f_equal.
    replace (Z.to_nat (countChar32 u))
      with (length (map (property_value D (c_str prop_))
                      (firstn (Z.to_nat (countChar32 u)) u))) at 1
      by (rewrite length_map, length_firstn; lia).
    apply lastn_app. }
  split; [exact Hrun|].
  intros cps Hb ->. rewrite Hrun. subst u.
  rewrite bmp_text_checked by assumption.
  rewrite countChar32_bmp by assumption.
  now rewrite Nat2Z.id, firstn_all.
Qed.

Example get_property_demo :
  call (lua_utf8_get_property demo_database (fun _ => [])) [LString (lit "aB1"); LString (lit "gc")]
  = Ok [LString (lit "Ll"); LString (lit "Lu"); LString (lit "Nd")]
  /\ call (lua_utf8_get_property demo_database (fun _ => []))
       [LString (lit "aB1"); LString (lit "none")]
     = Ok [LNil; LNil; LNil].
Proof. split; reflexivity. Qed.

(** ** Arguments that are no strings; haystacks without a match *)



Section GsubNoMatch.

Variable E : RegexEngine.
Variable host_call : nat -> list lua_value -> result lua_value.

Lemma gsub_loop_no_match mode n hay needle prog (L : lua_State) repl :
  regex_exec E prog (fromUTF8 (c_str hay)) 0 = None ->
  call (v <- gsub_loop E host_call (gsub_fuel (fromUTF8 (c_str hay))) mode n
               {| g_matcher := reset (fresh_matcher prog (fromUTF8 (c_str needle)) [] 0)
                                 (fromUTF8 (c_str hay));
                  g_repl := repl; g_r := []; g_counter := 0 |} ;;
        (pushustring (appendTail (g_matcher E v) (g_r E v)) ;;; ret 1)) L
  = Ok [LString (c_str (to_utf8 (fromUTF8 (c_str hay))))].
Proof.
  intros Hx. rewrite gsub_finish_call. unfold gsub_fuel.
  replace (length (fromUTF8 (c_str hay)) + 2)%nat
    with (S (length (fromUTF8 (c_str hay)) + 1)) by lia.
  cbn [gsub_loop g_matcher g_counter g_repl g_r].
  pose proof (first_match E prog (fromUTF8 (c_str needle)) (fromUTF8 (c_str hay)) 0) as H.
  rewrite Hx in H.
  change (reset (fresh_matcher prog (fromUTF8 (c_str needle)) [] 0) (fromUTF8 (c_str hay)))
    with (fresh_matcher prog (fromUTF8 (c_str needle)) (fromUTF8 (c_str hay)) 0).
  destruct (find_keeps E (fresh_matcher prog (fromUTF8 (c_str needle))
                            (fromUTF8 (c_str hay)) 0)) as (_ & Hin & _ & Happ).
  destruct (find _) as [found m1]. cbn [fst snd] in *. subst found. cbn [negb].
  unfold ret, gsub_string, appendTail. cbn [g_matcher g_r].
  rewrite Hin, Happ. reflexivity.
Qed.

End GsubNoMatch.

(** X21: when the pattern has no match in the haystack, [gsub] returns the
    haystack (as text: unchanged), whether the replacement is a string, a
    table or a function, and the replacement is not looked at. *)
Theorem gsub_no_match (E : RegexEngine)
    (host_call : nat -> list lua_value -> result lua_value)
    (cps : list Z) (needle : bytes) (v : lua_value) (prog : regex_prog E) :
  Forall text_char cps ->
  regex_compile E (fromUTF8 (c_str needle)) = inr prog ->
  regex_exec E prog (utf16 cps) 0 = None ->
  is_repl v ->
  call (lua_utf8_gsub E host_call) [LString (utf8 cps); LString needle; v]
  = Ok [LString (utf8 cps)].
Proof.
  intros Ht Hc Hx Hv.
  rewrite <- (checked_text cps Ht) in Hx.
  rewrite <- (pushed_text cps Ht) at 2. rewrite <- (checked_text cps Ht).
  unfold to_utf8.
  destruct v as [| | | s | t | f |]; try contradiction.
  - unfold call at 1. unfold lua_utf8_gsub.
    set (L := [LString (utf8 cps); LString needle; LString s]).
    bind_step 3 L. bind_step (-1) L.
    bind_step (fromUTF8 (c_str (utf8 cps))) L. bind_step (fromUTF8 (c_str needle)) L.
    bind_step false L. bind_step false L. bind_step (2, fromUTF8 (c_str s)) L.
    cbn [fst snd]. rewrite (RegexMatcher_new_ok _ _ _ Hc).
    now apply (gsub_loop_no_match E host_call 2 (-1) (utf8 cps) needle prog L).
  - unfold call at 1. unfold lua_utf8_gsub.
    set (L := [LString (utf8 cps); LString needle; LTable t]).
    bind_step 3 L. bind_step (-1) L.
    bind_step (fromUTF8 (c_str (utf8 cps))) L. bind_step (fromUTF8 (c_str needle)) L.
    bind_step false L. bind_step true L. bind_step (1, @nil Z) L.
    cbn [fst snd]. rewrite (RegexMatcher_new_ok _ _ _ Hc).
    now apply (gsub_loop_no_match E host_call 1 (-1) (utf8 cps) needle prog L).
  - unfold call at 1. unfold lua_utf8_gsub.
    set (L := [LString (utf8 cps); LString needle; LFunction f]).
    bind_step 3 L. bind_step (-1) L.
    bind_step (fromUTF8 (c_str (utf8 cps))) L. bind_step (fromUTF8 (c_str needle)) L.
    bind_step true L. bind_step false L. bind_step (0, @nil Z) L.
    cbn [fst snd]. rewrite (RegexMatcher_new_ok _ _ _ Hc).
    now apply (gsub_loop_no_match E host_call 0 (-1) (utf8 cps) needle prog L).
Qed.

Lemma gsub_no_match_witness :
  call (lua_utf8_gsub mini_engine no_host)
    [LString (utf8 [0x62; 0x20AC; 0x1D11E]); LString (lit "a"); LFunction 0]
  = Ok [LString (utf8 [0x62; 0x20AC; 0x1D11E])].
Proof.
  apply (gsub_no_match mini_engine no_host [0x62; 0x20AC; 0x1D11E] (lit "a")
           (LFunction 0) prog_a).
  - repeat constructor; (lia || discriminate || reflexivity).
  - reflexivity.
  - reflexivity.
  - exact I.
Defined.
